(** * CoinPresolveImpliedFree: the implied-free presolve pass

    A shallow embedding of [implied_free_action::presolve] and of
    [implied_free_action::postsolve] (src/CoinPresolveImpliedFree.cpp), the
    properties the specification states about the pass, and further
    properties of the two loops of the pass and of the replay of its undo
    records.

    Conventions of the embedding.
    - [int] and [CoinBigIndex] values are [Z]; the sizes of a problem stay far
      below the wrap-around of the machine type, which is not modelled.
    - [double] values are the carrier of a [Num] structure holding exactly the
      operations and literals the source applies to them.  Two instances are
      given: [float_num], IEEE binary64 as the compiler implements it, and
      [Qc_num], exact rational arithmetic.  Statements about control flow are
      proved for every [Num]; statements that rest on the laws of arithmetic
      are proved for [Qc_num].
    - A C array is a [list] read with [l.[i]] and written with
      [l.[i <- v]].  Reading or writing outside the array is undefined in
      C++; here a read yields the default value and a write changes
      nothing. *)

From Stdlib Require Import ZArith QArith Qcanon Lia PrimFloat Uint63.
From stdpp Require Import base list.

Set Default Proof Using "Type".
Local Open Scope Z_scope.

(** ** Numbers *)

(** The [double] operations of the source. [nltb a b] is [a < b],
    [nleb a b] is [a <= b], [neqb a b] is [a == b]; [a > b] and [a >= b]
    are written with the arguments exchanged.  [of_int] is the implicit
    conversion of an [int] in a [double] expression.  The [lit_] fields
    are the decimal literals of the source. *)
Class Num : Type := {
  num : Type;
  nadd : num → num → num;
  nsub : num → num → num;
  nmul : num → num → num;
  ndiv : num → num → num;
  nopp : num → num;
  nabs : num → num;
  nltb : num → num → bool;
  nleb : num → num → bool;
  neqb : num → num → bool;
  of_int : Z → num;
  lit_0 : num;
  lit_0_1 : num;
  lit_1e8 : num;
  lit_1e20 : num;
  lit_1e31 : num;
  lit_1em12 : num
}.

#[global] Instance num_inhabited `{Num} : Inhabited num := populate lit_0.

Declare Scope num_scope.
Delimit Scope num_scope with num.
Bind Scope num_scope with num.
Infix "+" := nadd : num_scope.
Infix "-" := nsub : num_scope.
Infix "*" := nmul : num_scope.
Infix "/" := ndiv : num_scope.
Notation "- x" := (nopp x) : num_scope.
Infix "<?" := nltb : num_scope.
Infix "<=?" := nleb : num_scope.
Infix "=?" := neqb : num_scope.
Notation "x >? y" := (nltb y x) (only parsing) : num_scope.
Notation "x >=? y" := (nleb y x) (only parsing) : num_scope.

(** [max] and [min] of two doubles, as [std::max] and [std::min]. *)
Definition nmax `{Num} (a b : num) : num := if (a <? b)%num then b else a.
Definition nmin `{Num} (a b : num) : num := if (b <? a)%num then b else a.

(** IEEE binary64. *)
Definition float_of_int (z : Z) : float :=
  match z with
  | Z0 => 0%float
  | Zpos _ => PrimFloat.of_uint63 (Uint63.of_Z z)
  | Zneg _ => PrimFloat.opp (PrimFloat.of_uint63 (Uint63.of_Z (- z)))
  end.

Definition float_num : Num := {|
  num := float;
  nadd := PrimFloat.add;
  nsub := PrimFloat.sub;
  nmul := PrimFloat.mul;
  ndiv := PrimFloat.div;
  nopp := PrimFloat.opp;
  nabs := PrimFloat.abs;
  nltb := PrimFloat.ltb;
  nleb := PrimFloat.leb;
  neqb := PrimFloat.eqb;
  of_int := float_of_int;
  lit_0 := 0%float;
  lit_0_1 := 0x1.999999999999ap-4%float;
  lit_1e8 := 100000000%float;
  lit_1e20 := 100000000000000000000%float;
  lit_1e31 := 0x1.f8def8808b024p+102%float;
  lit_1em12 := 0x1.19799812dea11p-40%float
|}.

(** Exact rationals. *)
Definition Qcltb (a b : Qc) : bool := negb (Qle_bool (this b) (this a)).
Definition Qcleb (a b : Qc) : bool := Qle_bool (this a) (this b).
Definition Qcabs (a : Qc) : Qc := if Qcleb 0%Qc a then a else (- a)%Qc.
Definition Qc_of_ratio (n : Z) (d : positive) : Qc := Q2Qc (n # d).

Definition Qc_num : Num := {|
  num := Qc;
  nadd := Qcplus;
  nsub := Qcminus;
  nmul := Qcmult;
  ndiv := Qcdiv;
  nopp := Qcopp;
  nabs := Qcabs;
  nltb := Qcltb;
  nleb := Qcleb;
  neqb := Qc_eq_bool;
  of_int := fun z => Qc_of_ratio z 1;
  lit_0 := Qc_of_ratio 0 1;
  lit_0_1 := Qc_of_ratio 1 10;
  lit_1e8 := Qc_of_ratio (10 ^ 8) 1;
  lit_1e20 := Qc_of_ratio (10 ^ 20) 1;
  lit_1e31 := Qc_of_ratio (10 ^ 31) 1;
  lit_1em12 := Qc_of_ratio 1 (10 ^ 12)
|}.

(** ** Arrays *)

Definition aget {A} `{Inhabited A} (l : list A) (i : Z) : A :=
  if i <? 0 then inhabitant else l !!! Z.to_nat i.

Definition aset {A} (l : list A) (i : Z) (v : A) : list A :=
  if i <? 0 then l else <[Z.to_nat i := v]> l.

Notation "l .[ i ]" := (aget l i)
  (at level 1, i at level 200, left associativity, format "l .[ i ]").
Notation "l .[ i <- v ]" := (aset l i v)
  (at level 1, i at level 200, v at level 200, left associativity,
   format "l .[ i  <-  v ]").

(** The index range [lo, lo+1, ..., lo+len-1] of a [for] loop over a packed
    row or column; empty when [len <= 0]. *)
Definition range (lo len : Z) : list Z := seqZ lo len.

(** ** The presolve matrix *)

(** What the pass uses and the repository declares outside this file: the
    constants of CoinPresolveMatrix.hpp and CoinFinite.hpp, the row helper
    [implied_bounds], the packed-vector helper [presolve_delete_from_row],
    the macro [PRESOLVE_REMOVE_LINK] on the active-set links, the marking of
    a changed column [addCol], and the records other passes put in the
    action chain.  They are taken as they are declared, each acting on the
    arrays it is handed. *)
Class Helpers `{Num} : Type := {
  ZTOLDP : num;
  COIN_DBL_MAX : num;
  PRESOLVE_INF : num;
  (** [implied_bounds(els, clo, cup, hcol, krs, kre, &maxup, &maxdown,
      jcol, rlo, rup, &iclb, &icub)], returning
      [(maxup, maxdown, iclb, icub)] *)
  implied_bounds :
    list num → list num → list num → list Z → Z → Z → Z → num → num →
    num * num * num * num;
  (** [presolve_delete_from_row(row, col, mrstrt, hinrow, hcol, dels)],
      returning the three arrays it writes: [(hinrow, hcol, dels)] *)
  presolve_delete_from_row :
    Z → Z → list Z → list Z → list Z → list num →
    list Z * list Z * list num;
  presolvehlinks : Type;
  PRESOLVE_REMOVE_LINK : presolvehlinks → Z → presolvehlinks;
  changed_cols : Type;
  addCol : Z → changed_cols → changed_cols;
  foreign_action : Type
}.

(** The diagnostic the pass emits through the message handler. *)
Inductive message `{Num} : Type :=
  | COIN_PRESOLVE_ROWINFEAS (row : Z) (lo up : num).

(** The members of [CoinPresolveMatrix] the pass touches. *)
Record problem `{Helpers} : Type := {
  colels_ : list num;
  hrow_ : list Z;
  mcstrt_ : list Z;
  hincol_ : list Z;
  ncols_ : Z;
  clo_ : list num;
  cup_ : list num;
  rowels_ : list num;
  hcol_ : list Z;
  mrstrt_ : list Z;
  hinrow_ : list Z;
  nrows_ : Z;
  rlo_ : list num;
  rup_ : list num;
  cost_ : list num;
  rlink_ : presolvehlinks;
  clink_ : presolvehlinks;
  integerType_ : list bool;
  feasibilityTolerance_ : num;
  status_ : Z;
  messages_ : list message;
  numberColsToDo_ : Z;
  colsToDo_ : list Z;
  colChanged_ : changed_cols;
  dobias_ : num
}.

(** ** Loops *)

(** A [for] loop over the values [l] whose body may [break]: the body
    returns the new state and, when it breaks, the reason. *)
Fixpoint for_break {S E X} (body : S → X → S * option E) (s : S) (l : list X)
  : S * option E :=
  match l with
  | [] => (s, None)
  | x :: l' =>
      match body s x with
      | (s', None) => for_break body s' l'
      | (s', Some e) => (s', Some e)
      end
  end.

(** ** The first loop: which columns are implied free *)

(** The four figures the scan computes for a row: the number of unbounded
    contributions to its largest and to its smallest activity, and the sums
    of the bounded ones. *)
Record activity `{Num} : Type := {
  infiniteUpper : Z;
  infiniteLower : Z;
  maximumUp : num;
  maximumDown : num
}.

(** The arrays the pass allocates, with the two members of [prob] the first
    loop writes: [status_] and the output of the message handler. *)
Record work `{Num} : Type := {
  implied_free : list Z;
  infiniteUp : list Z;
  infiniteDown : list Z;
  maxUp : list num;
  maxDown : list num;
  status : Z;
  messages : list message
}.

(** How the classification of a freshly computed row ends (lines 189-222). *)
Inductive row_class : Type :=
  | Redundant
  | UpperUnreachable
  | LowerUnreachable
  | Summary.

(** Why the walk over the rows of a column stopped early. *)
Inductive walk_exit : Type :=
  | RowInfeasible (row : Z)
  | GiveUp (row : Z).

Section Scan.
Context `{Helpers}.
Variable prob : problem.

Local Abbreviation colels := (colels_ prob).
Local Abbreviation hrow := (hrow_ prob).
Local Abbreviation mcstrt := (mcstrt_ prob).
Local Abbreviation hincol := (hincol_ prob).
Local Abbreviation ncols := (ncols_ prob).
Local Abbreviation clo := (clo_ prob).
Local Abbreviation cup := (cup_ prob).
Local Abbreviation rowels := (rowels_ prob).
Local Abbreviation hcol := (hcol_ prob).
Local Abbreviation mrstrt := (mrstrt_ prob).
Local Abbreviation hinrow := (hinrow_ prob).
Local Abbreviation nrows := (nrows_ prob).
Local Abbreviation rlo := (rlo_ prob).
Local Abbreviation rup := (rup_ prob).
Local Abbreviation cost := (cost_ prob).
Local Abbreviation integerType := (integerType_ prob).
Local Abbreviation tol := (feasibilityTolerance_ prob).
Local Abbreviation large := lit_1e20.

(** Lines 93-100 and 82-91: [-1] not computed, [-2] give up (singleton
    row), [-3] give up (other).  The arrays [infiniteDown], [maxDown] and
    [maxUp] are allocated without a value; an entry is read only after
    [infiniteUp] of its row was set to a count, which writes it first. *)
Definition work_init : work := {|
  implied_free := replicate (Z.to_nat ncols) (-1);
  infiniteUp :=
    (λ i, if 1 <? hinrow.[i] then -1 else -2) <$> range 0 nrows;
  infiniteDown := replicate (Z.to_nat nrows) 0;
  maxUp := replicate (Z.to_nat nrows) lit_0;
  maxDown := replicate (Z.to_nat nrows) lit_0;
  status := status_ prob;
  messages := messages_ prob
|}.

(** The body of the loop of lines 160-186. *)
Definition activity_step (a : activity) (kk : Z) : activity :=
  let value := rowels.[kk] in
  let iColumn := hcol.[kk] in
  if (value >? lit_0)%num then
    let a1 :=
      if (cup.[iColumn] >=? large)%num
      then {| infiniteUpper := infiniteUpper a + 1;
              infiniteLower := infiniteLower a;
              maximumUp := maximumUp a;
              maximumDown := maximumDown a |}
      else {| infiniteUpper := infiniteUpper a;
              infiniteLower := infiniteLower a;
              maximumUp := (maximumUp a + cup.[iColumn] * value)%num;
              maximumDown := maximumDown a |} in
    if (clo.[iColumn] <=? - large)%num
    then {| infiniteUpper := infiniteUpper a1;
            infiniteLower := infiniteLower a1 + 1;
            maximumUp := maximumUp a1;
            maximumDown := maximumDown a1 |}
    else {| infiniteUpper := infiniteUpper a1;
            infiniteLower := infiniteLower a1;
            maximumUp := maximumUp a1;
            maximumDown := (maximumDown a1 + clo.[iColumn] * value)%num |}
  else if (value <? lit_0)%num then
    let a1 :=
      if (cup.[iColumn] >=? large)%num
      then {| infiniteUpper := infiniteUpper a;
              infiniteLower := infiniteLower a + 1;
              maximumUp := maximumUp a;
              maximumDown := maximumDown a |}
      else {| infiniteUpper := infiniteUpper a;
              infiniteLower := infiniteLower a;
              maximumUp := maximumUp a;
              maximumDown := (maximumDown a + cup.[iColumn] * value)%num |} in
    if (clo.[iColumn] <=? - large)%num
    then {| infiniteUpper := infiniteUpper a1 + 1;
            infiniteLower := infiniteLower a1;
            maximumUp := maximumUp a1;
            maximumDown := maximumDown a1 |}
    else {| infiniteUpper := infiniteUpper a1;
            infiniteLower := infiniteLower a1;
            maximumUp := (maximumUp a1 + clo.[iColumn] * value)%num;
            maximumDown := maximumDown a1 |}
  else a.

(** Lines 152-186: the activity figures of [row]. *)
Definition row_activity (row : Z) : activity :=
  let krs := mrstrt.[row] in
  foldl activity_step
    {| infiniteUpper := 0; infiniteLower := 0;
       maximumUp := lit_0; maximumDown := lit_0 |}
    (range krs hinrow.[row]).

(** Lines 187-188. *)
Definition maxUpx (a : activity) : num :=
  (maximumUp a + of_int (infiniteUpper a) * lit_1e31)%num.
Definition maxDownx (a : activity) : num :=
  (maximumDown a - of_int (infiniteLower a) * lit_1e31)%num.

(** The tests of lines 189, 190, 195 and 206, in their order. *)
Definition classify (row : Z) (a : activity) : row_class :=
  if (maxUpx a <=? rup.[row] + tol)%num && (maxDownx a >=? rlo.[row] - tol)%num
  then Redundant
  else if (maxUpx a <? rlo.[row] - tol)%num then UpperUnreachable
  else if (maxDownx a >? rup.[row] + tol)%num then LowerUnreachable
  else Summary.

(** [prob->status_ |= 1] and the message, lines 197-203, 208-214, 419-425
    and 429-435. *)
Definition flag_infeasible (w : work) (row : Z) : work := {|
  implied_free := implied_free w;
  infiniteUp := infiniteUp w;
  infiniteDown := infiniteDown w;
  maxUp := maxUp w;
  maxDown := maxDown w;
  status := Z.lor (status w) 1;
  messages := messages w ++ [COIN_PRESOLVE_ROWINFEAS row rlo.[row] rup.[row]]
|}.

Definition set_infiniteUp (w : work) (row v : Z) : work := {|
  implied_free := implied_free w;
  infiniteUp := (infiniteUp w).[row <- v];
  infiniteDown := infiniteDown w;
  maxUp := maxUp w;
  maxDown := maxDown w;
  status := status w;
  messages := messages w
|}.

(** Lines 218-221. *)
Definition store_activity (w : work) (row : Z) (a : activity) : work := {|
  implied_free := implied_free w;
  infiniteUp := (infiniteUp w).[row <- infiniteUpper a];
  infiniteDown := (infiniteDown w).[row <- infiniteLower a];
  maxUp := (maxUp w).[row <- maximumUp a];
  maxDown := (maxDown w).[row <- maximumDown a];
  status := status w;
  messages := messages w
|}.

(** Lines 150-223: computing a row that is not computed yet.  The result
    says whether the walk over the column's rows breaks. *)
Definition compute_row (w : work) (row : Z) : work * bool :=
  let a := row_activity row in
  match classify row a with
  | Redundant => (set_infiniteUp w row (-3), false)
  | UpperUnreachable | LowerUnreachable =>
      (set_infiniteUp (flag_infeasible w row) row (-3), true)
  | Summary => (store_activity w row a, false)
  end.
(** *** Lines 224-363: the bounds one row implies on the column

    The block works on copies: [nowLower] and [nowUpper] start as the
    column's declared bounds, the four activity figures as the cached ones,
    and nothing is written back; only [low] and [high] outlive the block.
    The [assert]s of the block are compiled out. *)
Record tighten_state : Type := {
  act : activity;
  nowLower : num;
  nowUpper : num;
  low : num;
  high : num
}.

(** "relax if original was large", subtracting and adding. *)
Definition relax_down (newBound maximum : num) : num :=
  if (nabs maximum >? lit_1e8)%num
  then (newBound - lit_1em12 * nabs maximum)%num else newBound.
Definition relax_up (newBound maximum : num) : num :=
  if (nabs maximum >? lit_1e8)%num
  then (newBound + lit_1em12 * nabs maximum)%num else newBound.

(** Lines 253-266 and 348-362: "Tighten the lower bound", then
    [low = max(low, newBound)].  [down] tells which pair of figures the
    adjustment touches: [maximumDown] and [infiniteLower] (lines 257-263)
    or [maximumUp] and [infiniteUpper] (lines 352-358). *)
Definition tighten_lower (down : bool) (value newBound : num)
  (t : tighten_state) : tighten_state :=
  let t1 :=
    if (newBound >? nowLower t + lit_1em12)%num then
      let unbounded := (nowLower t <? - large)%num in
      let now := if unbounded then lit_0 else nowLower t in
      let a := act t in
      {| act :=
           if down then
             {| infiniteUpper := infiniteUpper a;
                infiniteLower :=
                  if unbounded then infiniteLower a - 1 else infiniteLower a;
                maximumUp := maximumUp a;
                maximumDown := (maximumDown a + (newBound - now) * value)%num |}
           else
             {| infiniteUpper :=
                  if unbounded then infiniteUpper a - 1 else infiniteUpper a;
                infiniteLower := infiniteLower a;
                maximumUp := (maximumUp a + (newBound - now) * value)%num;
                maximumDown := maximumDown a |};
         nowLower := newBound;
         nowUpper := nowUpper t;
         low := low t;
         high := high t |}
    else t in
  {| act := act t1; nowLower := nowLower t1; nowUpper := nowUpper t1;
     low := nmax (low t1) newBound; high := high t1 |}.

(** Lines 284-297 and 317-330: "Tighten the upper bound", then
    [high = min(high, newBound)].  [up] tells which pair of figures the
    adjustment touches: [maximumUp] and [infiniteUpper] (lines 288-294) or
    [maximumDown] and [infiniteLower] (lines 321-327). *)
Definition tighten_upper (up : bool) (value newBound : num)
  (t : tighten_state) : tighten_state :=
  let t1 :=
    if (newBound <? nowUpper t - lit_1em12)%num then
      let unbounded := (nowUpper t >? large)%num in
      let now := if unbounded then lit_0 else nowUpper t in
      let a := act t in
      {| act :=
           if up then
             {| infiniteUpper :=
                  if unbounded then infiniteUpper a - 1 else infiniteUpper a;
                infiniteLower := infiniteLower a;
                maximumUp := (maximumUp a + (newBound - now) * value)%num;
                maximumDown := maximumDown a |}
           else
             {| infiniteUpper := infiniteUpper a;
                infiniteLower :=
                  if unbounded then infiniteLower a - 1 else infiniteLower a;
                maximumUp := maximumUp a;
                maximumDown := (maximumDown a + (newBound - now) * value)%num |};
         nowLower := nowLower t;
         nowUpper := newBound;
         low := low t;
         high := high t |}
    else t in
  {| act := act t1; nowLower := nowLower t1; nowUpper := nowUpper t1;
     low := low t1; high := nmin (high t1) newBound |}.

(** Lines 235-298: positive coefficient. *)
Definition tighten_positive (lower upper value : num) (t : tighten_state)
  : tighten_state :=
  let t1 :=
    if (lower >? - large)%num then
      let newBound :=
        if infiniteUpper (act t) =? 0 then
          relax_down (nowUpper t + (lower - maximumUp (act t)) / value)%num
                     (maximumUp (act t))
        else if (infiniteUpper (act t) =? 1) && (nowUpper t >? large)%num then
          relax_down ((lower - maximumUp (act t)) / value)%num
                     (maximumUp (act t))
        else (- COIN_DBL_MAX)%num in
      tighten_lower true value newBound t
    else t in
  if (upper <? large)%num then
    let newBound :=
      if infiniteLower (act t1) =? 0 then
        relax_up (nowLower t1 + (upper - maximumDown (act t1)) / value)%num
                 (maximumDown (act t1))
      else if (infiniteLower (act t1) =? 1) && (nowLower t1 <? - large)%num then
        relax_up ((upper - maximumDown (act t1)) / value)%num
                 (maximumDown (act t1))
      else COIN_DBL_MAX in
    tighten_upper true value newBound t1
  else t1.

(** Lines 299-363: the other sign. *)
Definition tighten_negative (lower upper value : num) (t : tighten_state)
  : tighten_state :=
  let t1 :=
    if (lower >? - large)%num then
      let newBound :=
        if infiniteUpper (act t) =? 0 then
          relax_up (nowLower t + (lower - maximumUp (act t)) / value)%num
                   (maximumUp (act t))
        else if (infiniteUpper (act t) =? 1) && (nowLower t <? - large)%num then
          relax_up ((lower - maximumUp (act t)) / value)%num
                   (maximumUp (act t))
        else COIN_DBL_MAX in
      tighten_upper false value newBound t
    else t in
  if (upper <? large)%num then
    let newBound :=
      if infiniteLower (act t1) =? 0 then
        relax_down (nowUpper t1 + (upper - maximumDown (act t1)) / value)%num
                   (maximumDown (act t1))
      else if (infiniteLower (act t1) =? 1) && (nowUpper t1 >? large)%num then
        relax_down ((upper - maximumDown (act t1)) / value)%num
                   (maximumDown (act t1))
      else (- COIN_DBL_MAX)%num in
    tighten_lower false value newBound t1
  else t1.

(** Lines 224-363 for the entry of column [j] in [row], a row whose figures
    are cached. *)
Definition implied_by_row (w : work) (j row : Z) (coeffj : num)
  (low0 high0 : num) : num * num :=
  let t := {|
    act := {| infiniteUpper := (infiniteUp w).[row];
              infiniteLower := (infiniteDown w).[row];
              maximumUp := (maxUp w).[row];
              maximumDown := (maxDown w).[row] |};
    nowLower := clo.[j];
    nowUpper := cup.[j];
    low := low0;
    high := high0 |} in
  let t' :=
    if (coeffj >? lit_0)%num
    then tighten_positive rlo.[row] rup.[row] coeffj t
    else tighten_negative rlo.[row] rup.[row] coeffj t in
  (low t', high t').

(** *** Lines 119-398: a column in two or three rows *)

(** Lines 123-141. *)
Definition column_rows_step (s : bool * bool * num) (k : Z) : bool * bool * num :=
  let '(possible, singleton, largestElement) := s in
  let row := hrow.[k] in
  let coeffj := colels.[k] in
  if 1 <? hinrow.[row] then
    (if (nabs (rlo.[row] - rup.[row]) <? tol)%num && (nabs coeffj >? ZTOLDP)%num
     then true else possible,
     singleton,
     nmax largestElement (nabs coeffj))
  else (possible, true, largestElement).

Definition column_rows (j : Z) : bool * bool * num :=
  foldl column_rows_step (false, false, lit_0) (range mcstrt.[j] hincol.[j]).

(** Lines 146-371: the body of the walk over the rows of column [j]. *)
Definition walk_step (j : Z) (s : work * num * num) (k : Z)
  : work * num * num * option walk_exit :=
  let '(w, low0, high0) := s in
  let row := hrow.[k] in
  let coeffj := colels.[k] in
  if (nabs coeffj >? ZTOLDP)%num then
    let '(w1, broke) :=
      if (infiniteUp w).[row] =? -1 then compute_row w row else (w, false) in
    if broke then (w1, low0, high0, Some (RowInfeasible row))
    else if 0 <=? (infiniteUp w1).[row] then
      let '(low1, high1) := implied_by_row w1 j row coeffj low0 high0 in
      (w1, low1, high1, None)
    else if (infiniteUp w1).[row] =? -3 then
      (w1, (- COIN_DBL_MAX)%num, COIN_DBL_MAX, Some (GiveUp row))
    else (w1, low0, high0, None)
  else (w, low0, high0, None).

Definition walk (j : Z) (w : work) : work * num * num * option walk_exit :=
  for_break (walk_step j) (w, (- COIN_DBL_MAX)%num, COIN_DBL_MAX)
    (range mcstrt.[j] hincol.[j]).

(** Lines 376-389; the argument is [largestElement] after
    [largestElement *= 0.1]. *)
Definition select_step (largestElement : num) (s : Z * Z) (k : Z) : Z * Z :=
  let '(krow, ninrow) := s in
  let row := hrow.[k] in
  let coeffj := colels.[k] in
  if (nabs (rlo.[row] - rup.[row]) <? tol)%num && (nabs coeffj >? largestElement)%num
  then if hinrow.[row] <? ninrow then (row, hinrow.[row]) else (krow, ninrow)
  else (krow, ninrow).

Definition select_row (j : Z) (largestElement : num) : Z :=
  fst (foldl (select_step largestElement) (-1, ncols + 1)
         (range mcstrt.[j] hincol.[j])).

(** Lines 390-396. *)
Definition mark_implied_free (w : work) (j krow : Z) : work := {|
  implied_free := (implied_free w).[j <- krow];
  infiniteUp := (infiniteUp w).[krow <- -3];
  infiniteDown := infiniteDown w;
  maxUp := maxUp w;
  maxDown := maxDown w;
  status := status w;
  messages := messages w
|}.

Definition scan_multi (j : Z) (w : work) : work :=
  let '(possible, singleton, largestElement) := column_rows j in
  if possible && negb singleton then
    let '(w1, low1, high1, _) := walk j w in
    if (clo.[j] <=? low1)%num && (high1 <=? cup.[j])%num then
      let krow := select_row j (largestElement * lit_0_1)%num in
      if 0 <=? krow then mark_implied_free w1 j krow else w1
    else w1
  else w.

(** *** Lines 399-446: a singleton column *)

(** The guard of lines 404-405. *)
Definition singleton_candidate (j : Z) (w : work) : bool :=
  let k := mcstrt.[j] in
  let row := hrow.[k] in
  let coeffj := colels.[k] in
  ((cost.[j] =? lit_0)%num || (rlo.[row] =? rup.[row])%num)
  && (1 <? hinrow.[row])
  && (nabs coeffj >? ZTOLDP)%num
  && negb ((infiniteUp w).[row] =? -3).

(** The call of lines 407-414: [(maxup, maxdown, ilow, iup)]. *)
Definition singleton_bounds (j : Z) : num * num * num * num :=
  let row := hrow.[mcstrt.[j]] in
  let krs := mrstrt.[row] in
  let kre := krs + hinrow.[row] in
  implied_bounds rowels clo cup hcol krs kre j rlo.[row] rup.[row].

(** The result says whether the loop over the columns breaks, and on which
    row. *)
Definition scan_singleton (j : Z) (w : work) : work * option Z :=
  let row := hrow.[mcstrt.[j]] in
  if singleton_candidate j w then
    let '(maxup, maxdown, ilow, iup) := singleton_bounds j in
    if (maxup <? PRESOLVE_INF)%num && (maxup + tol <? rlo.[row])%num then
      (flag_infeasible w row, Some row)
    else if (- PRESOLVE_INF <? maxdown)%num && (rup.[row] <? maxdown - tol)%num then
      (flag_infeasible w row, Some row)
    else if (clo.[j] <=? ilow)%num && (iup <=? cup.[j])%num then
      (mark_implied_free w j row, None)
    else (w, None)
  else (w, None).

(** Lines 117-447: the body of the loop over the columns to look at. *)
Definition scan_column (w : work) (j : Z) : work * option Z :=
  if (hincol.[j] <=? 3) && negb integerType.[j] then
    if 1 <? hincol.[j] then (scan_multi j w, None)
    else if negb (hincol.[j] =? 0) then scan_singleton j w
    else (w, None)
  else (w, None).

(** Lines 116-448. *)
Definition scan (look : list Z) (w : work) : work * option Z :=
  for_break scan_column w look.

End Scan.

(** ** The second loop: eliminating the singleton columns *)

(** The undo record of one eliminated (row, column) pair.  [action_costs]
    is the array [save_costs], or [None] for the null pointer. *)
Record action `{Num} : Type := {
  action_row : Z;
  action_col : Z;
  action_clo : num;
  action_cup : num;
  action_rlo : num;
  action_rup : num;
  action_ninrow : Z;
  action_rowels : list num;
  action_rowcols : list Z;
  action_costs : option (list num)
}.

(** The chain of presolve actions, most recent first. *)
Inductive presolve_action `{Helpers} : Type :=
  | implied_free_action (nactions : Z) (actions : list action)
  | other_action (a : foreign_action).

(** The two passes this one invokes and the repository implements
    elsewhere.  [isolated_constraint_action::presolve(prob, row, next)]
    may fail, returning a null chain; [subst_constraint_action::presolve(prob,
    implied_free, next, fill_level)] takes [fill_level] by reference. *)
Class Collaborators `{Helpers} : Type := {
  isolated_constraint_action_presolve :
    problem → Z → list presolve_action →
    problem * option (list presolve_action);
  subst_constraint_action_presolve :
    problem → list Z → list presolve_action → Z →
    problem * list presolve_action * Z
}.

(** The calls the pass makes to them, in order. *)
Inductive collaborator_call : Type :=
  | CallIsolated (row : Z)
  | CallSubst (fill_level : Z).

(** [prob] with the members the second loop writes replaced. *)
Definition rebuild `{Helpers} (p : problem)
  (colels hrow hincol hinrow : _) (rlo rup cost : list num)
  (rlink clink : presolvehlinks) (colChanged : changed_cols) (dobias : num)
  : problem := {|
  colels_ := colels;
  hrow_ := hrow;
  mcstrt_ := mcstrt_ p;
  hincol_ := hincol;
  ncols_ := ncols_ p;
  clo_ := clo_ p;
  cup_ := cup_ p;
  rowels_ := rowels_ p;
  hcol_ := hcol_ p;
  mrstrt_ := mrstrt_ p;
  hinrow_ := hinrow;
  nrows_ := nrows_ p;
  rlo_ := rlo;
  rup_ := rup;
  cost_ := cost;
  rlink_ := rlink;
  clink_ := clink;
  integerType_ := integerType_ p;
  feasibilityTolerance_ := feasibilityTolerance_ p;
  status_ := status_ p;
  messages_ := messages_ p;
  numberColsToDo_ := numberColsToDo_ p;
  colsToDo_ := colsToDo_ p;
  colChanged_ := colChanged;
  dobias_ := dobias
|}.

(** The state of the second loop: the problem, the classification array,
    the actions recorded so far ([nactions] is their number) and
    [isolated_row]. *)
Record elim_state `{Helpers} : Type := {
  e_prob : problem;
  e_implied_free : list Z;
  e_actions : list action;
  e_isolated_row : Z
}.

Section Eliminate.
Context `{Helpers}.

(** Lines 474-482: the nonzeros of the columns of [row], against the
    nonzeros of [row]. *)
Definition isolated (p : problem) (row : Z) : bool :=
  foldl (λ n k, n + (hincol_ p).[(hcol_ p).[k]]) 0
    (range (mrstrt_ p).[row] (hinrow_ p).[row])
  =? (hinrow_ p).[row].

(** The body of the loop of lines 512-529 on [(cost, save_costs)]. *)
Definition move_cost_step (p : problem) (j krs : Z) (costj coeffj : num)
  (s : list num * list num) (k : Z) : list num * list num :=
  let '(cost, save_costs) := s in
  let jcol := (hcol_ p).[k] in
  let save_costs' := save_costs.[k - krs <- cost.[jcol]] in
  if negb (jcol =? j) then
    let coeff := (rowels_ p).[k] in
    (cost.[jcol <- (cost.[jcol] + costj * (- coeff / coeffj))%num], save_costs')
  else (cost, save_costs').

(** Lines 505-541, [cost] and [save_costs] after them.  [save_costs] is
    allocated without a value and every entry is written. *)
Definition move_cost (p : problem) (j row : Z) (coeffj : num)
  : list num * list num :=
  let krs := (mrstrt_ p).[row] in
  let costj := (cost_ p).[j] in
  let '(cost, save_costs) :=
    foldl (move_cost_step p j krs costj coeffj)
      (cost_ p, replicate (Z.to_nat (hinrow_ p).[row]) lit_0)
      (range krs (hinrow_ p).[row]) in
  (cost.[j <- lit_0], save_costs).

(** Modelled from the spec: [CoinPresolveMatrix::change_bias], declared
    outside this file, "add[s] the corresponding constant term to the
    problem's objective bias". *)
Definition change_bias (dobias change_amount : num) : num :=
  (dobias + change_amount)%num.

(** The body of the loop of lines 544-548 on
    [(colChanged, hincol, hrow, colels)]. *)
Definition remove_row_step (p : problem) (row : Z)
  (s : changed_cols * list Z * list Z * list num) (k : Z)
  : changed_cols * list Z * list Z * list num :=
  let '(colChanged, hincol, hrow, colels) := s in
  let jcol := (hcol_ p).[k] in
  let '(hincol', hrow', colels') :=
    presolve_delete_from_row jcol row (mcstrt_ p) hincol hrow colels in
  (addCol jcol colChanged, hincol', hrow', colels').

(** Line 484. *)
Definition nonzero_cost (p : problem) (j row : Z) : bool :=
  negb ((cost_ p).[j] =? lit_0)%num
  && (nabs ((rup_ p).[row] - (rlo_ p).[row]) <=? feasibilityTolerance_ p)%num.

(** Lines 465-559: eliminating the singleton column [j] with its row. *)
Definition eliminate (s : elim_state) (j : Z) : elim_state :=
  let p := e_prob s in
  let kcs := (mcstrt_ p).[j] in
  let row := (hrow_ p).[kcs] in
  let coeffj := (colels_ p).[kcs] in
  let krs := (mrstrt_ p).[row] in
  let nonzero_cost := nonzero_cost p j row in
  let '(cost, save_costs) :=
    if nonzero_cost then
      let '(cost, save_costs) := move_cost p j row coeffj in
      (cost, Some save_costs)
    else (cost_ p, None) in
  let dobias :=
    if nonzero_cost
    then change_bias (dobias_ p) ((cost_ p).[j] * (rlo_ p).[row] / coeffj)%num
    else dobias_ p in
  let a := {|
    action_row := row;
    action_col := j;
    action_clo := (clo_ p).[j];
    action_cup := (cup_ p).[j];
    action_rlo := (rlo_ p).[row];
    action_rup := (rup_ p).[row];
    action_ninrow := (hinrow_ p).[row];
    action_rowels := (λ k, (rowels_ p).[k]) <$> range krs (hinrow_ p).[row];
    action_rowcols := (λ k, (hcol_ p).[k]) <$> range krs (hinrow_ p).[row];
    action_costs := save_costs |} in
  let '(colChanged, hincol, hrow, colels) :=
    foldl (remove_row_step p row)
      (colChanged_ p, hincol_ p, hrow_ p, colels_ p)
      (range krs (hinrow_ p).[row]) in
  {| e_prob :=
       rebuild p colels hrow hincol.[j <- 0] (hinrow_ p).[row <- 0]
         (rlo_ p).[row <- lit_0] (rup_ p).[row <- lit_0] cost
         (PRESOLVE_REMOVE_LINK (rlink_ p) row)
         (PRESOLVE_REMOVE_LINK (clink_ p) j)
         colChanged dobias;
     e_implied_free := (e_implied_free s).[j <- -1];
     e_actions := e_actions s ++ [a];
     e_isolated_row := e_isolated_row s |}.

(** Lines 463-560: the body of the second loop; it breaks on an isolated
    row. *)
Definition eliminate_column (s : elim_state) (j : Z) : elim_state * option Z :=
  let p := e_prob s in
  if ((hincol_ p).[j] =? 1) && (0 <=? (e_implied_free s).[j]) then
    let row := (hrow_ p).[(mcstrt_ p).[j]] in
    if isolated p row then
      ({| e_prob := p;
          e_implied_free := e_implied_free s;
          e_actions := e_actions s;
          e_isolated_row := row |}, Some row)
    else (eliminate s j, None)
  else (s, None).

(** Lines 456-561. *)
Definition eliminate_singletons (look : list Z) (p : problem)
  (implied_free : list Z) : elim_state :=
  fst (for_break eliminate_column
         {| e_prob := p; e_implied_free := implied_free;
            e_actions := []; e_isolated_row := -1 |} look).

End Eliminate.

(** ** The pass *)

Record presolve_result `{Helpers} : Type := {
  r_prob : problem;
  r_next : list presolve_action;
  r_fill_level : Z;
  r_calls : list collaborator_call
}.

Section Presolve.
Context `{Collaborators}.

(** Lines 103-114: the columns to look at. *)
Definition look_list (prob : problem) (fill_level : Z) : list Z :=
  if fill_level <? 0 then range 0 (ncols_ prob)
  else (λ iLook, (colsToDo_ prob).[iLook]) <$> range 0 (numberColsToDo_ prob).

(** [prob] with the status and the messages of the first loop. *)
Definition with_status (p : problem) (w : work) : problem := {|
  colels_ := colels_ p;
  hrow_ := hrow_ p;
  mcstrt_ := mcstrt_ p;
  hincol_ := hincol_ p;
  ncols_ := ncols_ p;
  clo_ := clo_ p;
  cup_ := cup_ p;
  rowels_ := rowels_ p;
  hcol_ := hcol_ p;
  mrstrt_ := mrstrt_ p;
  hinrow_ := hinrow_ p;
  nrows_ := nrows_ p;
  rlo_ := rlo_ p;
  rup_ := rup_ p;
  cost_ := cost_ p;
  rlink_ := rlink_ p;
  clink_ := clink_ p;
  integerType_ := integerType_ p;
  feasibilityTolerance_ := feasibilityTolerance_ p;
  status_ := status w;
  messages_ := messages w;
  numberColsToDo_ := numberColsToDo_ p;
  colsToDo_ := colsToDo_ p;
  colChanged_ := colChanged_ p;
  dobias_ := dobias_ p
|}.

(** Lines 574-579: the isolated row, if the second loop found one, goes to
    its handler; a failing handler leaves the chain as it was. *)
Definition hand_isolated_row (e : elim_state) (next : list presolve_action)
  : problem * list presolve_action * list collaborator_call :=
  if negb (e_isolated_row e =? -1) then
    let '(p', nextX) :=
      isolated_constraint_action_presolve (e_prob e) (e_isolated_row e) next in
    (p', match nextX with Some n => n | None => next end,
     [CallIsolated (e_isolated_row e)])
  else (e_prob e, next, []).

(** [implied_free_action::presolve(prob, next, fill_level)]. *)
Definition presolve (prob : problem) (next : list presolve_action)
  (fill_level : Z) : presolve_result :=
  let look := look_list prob fill_level in
  let w := fst (scan prob look (work_init prob)) in
  let e := eliminate_singletons look (with_status prob w) (implied_free w) in
  let nactions := Z.of_nat (length (e_actions e)) in
  let next1 :=
    if negb (nactions =? 0)
    then implied_free_action nactions (e_actions e) :: next else next in
  let '(prob2, next2, calls2) := hand_isolated_row e next1 in
  if negb (fill_level =? 0) then
    let '(prob3, next3, fill_level3) :=
      subst_constraint_action_presolve prob2 (e_implied_free e) next2 fill_level in
    {| r_prob := prob3; r_next := next3; r_fill_level := fill_level3;
       r_calls := calls2 ++ [CallSubst fill_level] |}
  else
    {| r_prob := prob2; r_next := next2; r_fill_level := fill_level;
       r_calls := calls2 |}.

End Presolve.

(** ** Postsolve: replaying the undo records *)

(** What [postsolve] uses and the repository declares outside this file: the
    basis statuses [CoinPrePostsolveMatrix::Status], of which the pass names
    three, with the accessors of the status arrays, and the tag
    [IMPLIED_FREE] written to [cdone_] and [rdone_].  [check_free_list],
    [PRESOLVE_STMT], [PRESOLVEASSERT] and the block under [DEBUG_PRESOLVE]
    are debugging aids that compile to nothing; the [assert]s are compiled
    out as in the first loop; [deleteAction] frees memory. *)
Class PostsolveHelpers : Type := {
  Status : Type;
  Status_eq_dec : EqDecision Status;
  basic : Status;
  atUpperBound : Status;
  atLowerBound : Status;
  statuses : Type;
  getColumnStatus : statuses → Z → Status;
  setColumnStatus : Z → Status → statuses → statuses;
  setRowStatus : Z → Status → statuses → statuses;
  IMPLIED_FREE : Z
}.

#[global] Existing Instance Status_eq_dec.

(** The members of [CoinPostsolveMatrix] the pass touches.  The columns are
    threaded lists: column [j] starts at [mcstrt_[j]], holds [hincol_[j]]
    entries and continues from the entry [k] at [link_[k]]; the unused
    entries are threaded from [free_list_].  [status_arrays_] stands for the
    two status arrays, [stdout_] for what line 768 prints. *)
Module Post.
Record matrix `{Num} `{PostsolveHelpers} : Type := {
  colels_ : list num;
  hrow_ : list Z;
  mcstrt_ : list Z;
  hincol_ : list Z;
  link_ : list Z;
  clo_ : list num;
  cup_ : list num;
  rlo_ : list num;
  rup_ : list num;
  sol_ : list num;
  rcosts_ : list num;
  cost_ : list num;
  acts_ : list num;
  rowduals_ : list num;
  maxmin_ : num;
  cdone_ : list Z;
  rdone_ : list Z;
  free_list_ : Z;
  ztolzb_ : num;
  ztoldj_ : num;
  status_arrays_ : statuses;
  stdout_ : list (num * num * num)
}.
End Post.

Section Postsolve.
Context `{Helpers} `{PostsolveHelpers}.

(** Lines 643-671: one turn of the loop that puts the coefficients of the
    row back, the entry [k] of the saved row. *)
Definition restore_entry (f : action) (m : Post.matrix) (k : Z) : Post.matrix :=
  let irow := action_row f in
  let icol := action_col f in
  let jcol := (action_rowcols f).[k] in
  let coeff := (action_rowels f).[k] in
  let '(rcosts, dcost) :=
    match action_costs f with
    | Some save_costs =>
        ((Post.rcosts_ m).[jcol <-
           ((Post.rcosts_ m).[jcol]
            + Post.maxmin_ m * (save_costs.[k] - (Post.cost_ m).[jcol]))%num],
         (Post.cost_ m).[jcol <- save_costs.[k]])
    | None => (Post.rcosts_ m, Post.cost_ m)
    end in
  let kk := Post.free_list_ m in
  let free_list := (Post.link_ m).[Post.free_list_ m] in
  let link := (Post.link_ m).[kk <- (Post.mcstrt_ m).[jcol]] in
  let columnStart := (Post.mcstrt_ m).[jcol <- kk] in
  let elementByColumn := (Post.colels_ m).[kk <- coeff] in
  let hrow := (Post.hrow_ m).[kk <- irow] in
  let '(numberInColumn, clo, cup, cdone) :=
    if jcol =? icol then
      ((Post.hincol_ m).[jcol <- 1],
       (Post.clo_ m).[icol <- action_clo f],
       (Post.cup_ m).[icol <- action_cup f],
       (Post.cdone_ m).[icol <- IMPLIED_FREE])
    else
      ((Post.hincol_ m).[jcol <- (Post.hincol_ m).[jcol] + 1],
       Post.clo_ m, Post.cup_ m, Post.cdone_ m) in
  {| Post.colels_ := elementByColumn;
     Post.hrow_ := hrow;
     Post.mcstrt_ := columnStart;
     Post.hincol_ := numberInColumn;
     Post.link_ := link;
     Post.clo_ := clo;
     Post.cup_ := cup;
     Post.rlo_ := Post.rlo_ m;
     Post.rup_ := Post.rup_ m;
     Post.sol_ := Post.sol_ m;
     Post.rcosts_ := rcosts;
     Post.cost_ := dcost;
     Post.acts_ := Post.acts_ m;
     Post.rowduals_ := Post.rowduals_ m;
     Post.maxmin_ := Post.maxmin_ m;
     Post.cdone_ := cdone;
     Post.rdone_ := Post.rdone_ m;
     Post.free_list_ := free_list;
     Post.ztolzb_ := Post.ztolzb_ m;
     Post.ztoldj_ := Post.ztoldj_ m;
     Post.status_arrays_ := Post.status_arrays_ m;
     Post.stdout_ := Post.stdout_ m |}.

(** Lines 639-677: the row and the singleton column are back in the
    matrix, with their bounds and, where they were saved, the costs. *)
Definition restore_row (f : action) (m : Post.matrix) : Post.matrix :=
  let irow := action_row f in
  let m1 := foldl (restore_entry f) m (range 0 (action_ninrow f)) in
  {| Post.colels_ := Post.colels_ m1;
     Post.hrow_ := Post.hrow_ m1;
     Post.mcstrt_ := Post.mcstrt_ m1;
     Post.hincol_ := Post.hincol_ m1;
     Post.link_ := Post.link_ m1;
     Post.clo_ := Post.clo_ m1;
     Post.cup_ := Post.cup_ m1;
     Post.rlo_ := (Post.rlo_ m1).[irow <- action_rlo f];
     Post.rup_ := (Post.rup_ m1).[irow <- action_rup f];
     Post.sol_ := Post.sol_ m1;
     Post.rcosts_ := Post.rcosts_ m1;
     Post.cost_ := Post.cost_ m1;
     Post.acts_ := Post.acts_ m1;
     Post.rowduals_ := Post.rowduals_ m1;
     Post.maxmin_ := Post.maxmin_ m1;
     Post.cdone_ := Post.cdone_ m1;
     Post.rdone_ := (Post.rdone_ m1).[irow <- IMPLIED_FREE];
     Post.free_list_ := Post.free_list_ m1;
     Post.ztolzb_ := Post.ztolzb_ m1;
     Post.ztoldj_ := Post.ztoldj_ m1;
     Post.status_arrays_ := Post.status_arrays_ m1;
     Post.stdout_ := Post.stdout_ m1 |}.

(** Lines 683-693: [(act, coeff)], the activity of the other columns of the
    row and the coefficient of the singleton column. *)
Definition rest_of_row (f : action) (sol : list num) : num * num :=
  foldl (λ '(act, coeff) k,
    if (action_rowcols f).[k] =? action_col f
    then (act, (action_rowels f).[k])
    else ((act + (action_rowels f).[k] * sol.[(action_rowcols f).[k]])%num, coeff))
    (lit_0, lit_0) (range 0 (action_ninrow f)).

(** The body of the loops of lines 719-735 and 739-757, which differ in the
    reduced cost they test: [dj k] is [rcosts[jcol]] in the first and
    [newDj] in the second. *)
Definition worst_step (f : action) (m : Post.matrix) (dj : Z → num)
  (worst : num) (k : Z) : num :=
  let jcol := (action_rowcols f).[k] in
  if negb (jcol =? action_col f) then
    if bool_decide (getColumnStatus (Post.status_arrays_ m) jcol = basic) then
      if (nabs (dj k) >? worst)%num then nabs (dj k) else worst
    else if ((Post.sol_ m).[jcol] <? (Post.clo_ m).[jcol] + ZTOLDP)%num then
      if (- dj k >? worst)%num then (- dj k)%num else worst
    else if ((Post.sol_ m).[jcol] >? (Post.cup_ m).[jcol] - ZTOLDP)%num then
      if (dj k >? worst)%num then dj k else worst
    else worst
  else worst.

Definition worst_dj (f : action) (m : Post.matrix) (dj : Z → num) : num :=
  foldl (worst_step f m dj) (Post.ztoldj_ m) (range 0 (action_ninrow f)).

(** Lines 696-761: [where], [0] in basis, [-1] at lower bound, [+1] at upper
    bound. *)
Definition where_to_put (f : action) (m : Post.matrix) : Z :=
  let irow := action_row f in
  let icol := action_col f in
  let '(act, coeff) := rest_of_row f (Post.sol_ m) in
  let thisCost := (Post.maxmin_ m * (Post.cost_ m).[icol])%num in
  let '(loActivity, upActivity) :=
    if (coeff >? of_int 0)%num
    then ((((Post.rlo_ m).[irow] - act) / coeff)%num,
          (((Post.rup_ m).[irow] - act) / coeff)%num)
    else ((((Post.rup_ m).[irow] - act) / coeff)%num,
          (((Post.rlo_ m).[irow] - act) / coeff)%num) in
  let loActivity := nmax loActivity (Post.clo_ m).[icol] in
  let upActivity := nmin upActivity (Post.cup_ m).[icol] in
  let tolCheck := (lit_0_1 * Post.ztolzb_ m)%num in
  let where_ :=
    if (loActivity <? (Post.clo_ m).[icol] + tolCheck / nabs coeff)%num
       && (thisCost >=? lit_0)%num
    then -1
    else if (upActivity >? (Post.cup_ m).[icol] - tolCheck / nabs coeff)%num
            && (thisCost <? lit_0)%num
    then 1
    else 0 in
  let possibleDual := (thisCost / coeff)%num in
  if negb (where_ =? 0) then
    let worst := worst_dj f m (λ k, (Post.rcosts_ m).[(action_rowcols f).[k]]) in
    if (worst >? Post.ztoldj_ m)%num then
      let worst2 :=
        worst_dj f m
          (λ k, ((Post.rcosts_ m).[(action_rowcols f).[k]]
                 - possibleDual * (action_rowels f).[k])%num) in
      if (worst2 <? worst)%num then 0 else where_
    else where_
  else where_.

(** Lines 780-784 on [rcosts]. *)
Definition spread_dual (f : action) (possibleDual : num) (rcosts : list num)
  : list num :=
  foldl (λ rcosts k,
    rcosts.[(action_rowcols f).[k] <-
      (rcosts.[(action_rowcols f).[k]] - possibleDual * (action_rowels f).[k])%num])
    rcosts (range 0 (action_ninrow f)).

(** Lines 681-801: the value of the column, its reduced cost, the dual and
    the activity of the row, and the two statuses. *)
Definition compute_solution (f : action) (m : Post.matrix) : Post.matrix :=
  let irow := action_row f in
  let icol := action_col f in
  let '(act, coeff) := rest_of_row f (Post.sol_ m) in
  let thisCost := (Post.maxmin_ m * (Post.cost_ m).[icol])%num in
  let possibleDual := (thisCost / coeff)%num in
  let where_ := where_to_put f m in
  let '(sol, rcosts, acts, rowduals, stats, out) :=
    if where_ =? 0 then
      let rowduals := (Post.rowduals_ m).[irow <- possibleDual] in
      if ((Post.rlo_ m).[irow] <? (Post.rup_ m).[irow])%num
           && (rowduals.[irow] <? lit_0)%num
         || ((Post.rlo_ m).[irow] <? - lit_1e20)%num
      then
        let out :=
          if ((Post.rlo_ m).[irow] <? - lit_1e20)%num
             && (rowduals.[irow] >? ZTOLDP)%num
          then Post.stdout_ m
               ++ [((Post.rlo_ m).[irow], (Post.rup_ m).[irow], rowduals.[irow])]
          else Post.stdout_ m in
        ((Post.sol_ m).[icol <- (((Post.rup_ m).[irow] - act) / coeff)%num],
         (spread_dual f possibleDual (Post.rcosts_ m)).[icol <- lit_0],
         (Post.acts_ m).[irow <- (Post.rup_ m).[irow]],
         rowduals,
         setColumnStatus icol basic
           (setRowStatus irow atUpperBound (Post.status_arrays_ m)),
         out)
      else
        ((Post.sol_ m).[icol <- (((Post.rlo_ m).[irow] - act) / coeff)%num],
         (spread_dual f possibleDual (Post.rcosts_ m)).[icol <- lit_0],
         (Post.acts_ m).[irow <- (Post.rlo_ m).[irow]],
         rowduals,
         setColumnStatus icol basic
           (setRowStatus irow atLowerBound (Post.status_arrays_ m)),
         Post.stdout_ m)
    else
      let sol :=
        if where_ <? 0
        then (Post.sol_ m).[icol <- (Post.clo_ m).[icol]]
        else (Post.sol_ m).[icol <- (Post.cup_ m).[icol]] in
      (sol,
       (Post.rcosts_ m).[icol <- thisCost],
       (Post.acts_ m).[irow <- (act + sol.[icol] * coeff)%num],
       (Post.rowduals_ m).[irow <- lit_0],
       setColumnStatus icol (if where_ <? 0 then atLowerBound else atUpperBound)
         (setRowStatus irow basic (Post.status_arrays_ m)),
       Post.stdout_ m) in
  {| Post.colels_ := Post.colels_ m;
     Post.hrow_ := Post.hrow_ m;
     Post.mcstrt_ := Post.mcstrt_ m;
     Post.hincol_ := Post.hincol_ m;
     Post.link_ := Post.link_ m;
     Post.clo_ := Post.clo_ m;
     Post.cup_ := Post.cup_ m;
     Post.rlo_ := Post.rlo_ m;
     Post.rup_ := Post.rup_ m;
     Post.sol_ := sol;
     Post.rcosts_ := rcosts;
     Post.cost_ := Post.cost_ m;
     Post.acts_ := acts;
     Post.rowduals_ := rowduals;
     Post.maxmin_ := Post.maxmin_ m;
     Post.cdone_ := Post.cdone_ m;
     Post.rdone_ := Post.rdone_ m;
     Post.free_list_ := Post.free_list_ m;
     Post.ztolzb_ := Post.ztolzb_ m;
     Post.ztoldj_ := Post.ztoldj_ m;
     Post.status_arrays_ := stats;
     Post.stdout_ := out |}.

(** Lines 629-827: the body of the loop over the actions. *)
Definition postsolve_action (m : Post.matrix) (f : action) : Post.matrix :=
  compute_solution f (restore_row f m).

(** [implied_free_action::postsolve(prob)] of the object holding
    [nactions_] and [actions_]: the actions are replayed from the last to
    the first.  The source works on a copy of [free_list_], written back at
    line 828; nothing in between reads the member. *)
Definition postsolve (nactions : Z) (actions : list action)
  (prob : Post.matrix) : Post.matrix :=
  foldl postsolve_action prob (reverse (take (Z.to_nat nactions) actions)).

End Postsolve.

(** ** What the specification says, for comparison *)

Section SpecSide.
Context `{Helpers}.
Variable prob : problem.

(** Section 4.1 of the specification, in its words: unbounded contributions
    "are tracked by count rather than folded into the running sum", "counts
    gate the logic": a side with an unbounded contribution has no finite
    activity bound, and only a side without one is compared with the row
    bounds. *)
Definition classify_by_counts (row : Z) (a : activity) : row_class :=
  let tol := feasibilityTolerance_ prob in
  let rlo := (rlo_ prob).[row] in
  let rup := (rup_ prob).[row] in
  let bounded_above := infiniteUpper a =? 0 in
  let bounded_below := infiniteLower a =? 0 in
  if (bounded_above && (maximumUp a <=? rup + tol)%num)
     && (bounded_below && (maximumDown a >=? rlo - tol)%num)
  then Redundant
  else if bounded_above && (maximumUp a <? rlo - tol)%num then UpperUnreachable
  else if bounded_below && (maximumDown a >? rup + tol)%num then LowerUnreachable
  else Summary.

(** The objective [sum_i cost[i] * x(i)] over the columns [i0, i0+1, ...]. *)
Fixpoint objective_from (i0 : Z) (cost : list num) (x : Z → num) : num :=
  match cost with
  | [] => lit_0
  | c :: cost' => (c * x i0 + objective_from (i0 + 1) cost' x)%num
  end.

Definition objective (cost : list num) (x : Z → num) : num :=
  objective_from 0 cost x.

(** The activity of [row] at the assignment [x]. *)
Definition row_value (row : Z) (x : Z → num) : num :=
  foldr (λ k acc, ((rowels_ prob).[k] * x (hcol_ prob).[k] + acc)%num) lit_0
    (range (mrstrt_ prob).[row] (hinrow_ prob).[row]).

End SpecSide.

(** The rows a run handed to the isolated-constraint handler. *)
Definition rows_handed (calls : list collaborator_call) : list Z :=
  omap (λ c, match c with CallIsolated row => Some row | CallSubst _ => None end)
    calls.

(** ** Sample data *)

(** Modelled from the spec: [implied_bounds] is declared outside this file;
    section 6 has it return "(max_up, max_down, implied_low, implied_high)
    for a single row given one excluded column", section 4.2 "the row's
    implied bound range restricted to all other columns in the row".  This
    instance serves the examples only: the theorems hold for every
    [implied_bounds]. *)
Definition sample_implied_bounds `{Num} (inf : num)
  (els clo cup : list num) (hcol : list Z) (krs kre jcol : Z) (rlo rup : num)
  : num * num * num * num :=
  let others := filter (λ k, hcol.[k] ≠ jcol) (range krs (kre - krs)) in
  let step (s : bool * bool * num * num) (k : Z) :=
    let '(posinf, neginf, maxup, maxdown) := s in
    let coeff := els.[k] in
    let lb := clo.[hcol.[k]] in
    let ub := cup.[hcol.[k]] in
    if (coeff >? lit_0)%num then
      (if (inf <=? ub)%num then true else posinf,
       if (lb <=? - inf)%num then true else neginf,
       if (inf <=? ub)%num then maxup else (maxup + ub * coeff)%num,
       if (lb <=? - inf)%num then maxdown else (maxdown + lb * coeff)%num)
    else
      (if (lb <=? - inf)%num then true else posinf,
       if (inf <=? ub)%num then true else neginf,
       if (lb <=? - inf)%num then maxup else (maxup + lb * coeff)%num,
       if (inf <=? ub)%num then maxdown else (maxdown + ub * coeff)%num) in
  let '(posinf, neginf, maxup, maxdown) :=
    foldl step (false, false, lit_0, lit_0) others in
  let coeff :=
    foldl (λ c k, if hcol.[k] =? jcol then els.[k] else c) lit_0
      (range krs (kre - krs)) in
  let ilb := ((rlo - maxup) / coeff)%num in
  let iub := ((rup - maxdown) / coeff)%num in
  let finite_ilb := (- inf <? rlo)%num && negb posinf in
  let finite_iub := (rup <? inf)%num && negb neginf in
  let lb := clo.[jcol] in
  let ub := cup.[jcol] in
  let up_j := if (coeff >? lit_0)%num then ub else lb in
  let down_j := if (coeff >? lit_0)%num then lb else ub in
  let posinf' := posinf || (if (coeff >? lit_0)%num then (inf <=? ub)%num else (lb <=? - inf)%num) in
  let neginf' := neginf || (if (coeff >? lit_0)%num then (lb <=? - inf)%num else (inf <=? ub)%num) in
  (if posinf' then inf else (maxup + up_j * coeff)%num,
   if neginf' then (- inf)%num else (maxdown + down_j * coeff)%num,
   if (coeff >? lit_0)%num
   then (if finite_ilb then ilb else (- inf)%num)
   else (if finite_iub then iub else (- inf)%num),
   if (coeff >? lit_0)%num
   then (if finite_iub then iub else inf)
   else (if finite_ilb then ilb else inf)).

(** Modelled from the spec: [presolve_delete_from_row] is declared outside
    this file; section 4.3 has the eliminator "physically delete every
    row-r coefficient from the owning columns' sparse storage".  The entry
    found is overwritten with the last one of the packed vector, whose
    length drops by one.  This instance serves the examples only. *)
Definition sample_delete_from_row `{Num} (row col : Z)
  (mrstrt hinrow hcol : list Z) (dels : list num)
  : list Z * list Z * list num :=
  let krs := mrstrt.[row] in
  let kre := krs + hinrow.[row] in
  match filter (λ k, hcol.[k] = col) (range krs hinrow.[row]) with
  | k :: _ =>
      (hinrow.[row <- hinrow.[row] - 1],
       hcol.[k <- hcol.[kre - 1]],
       dels.[k <- dels.[kre - 1]])
  | [] => (hinrow, hcol, dels)
  end.

(** Helpers for the examples: [COIN_DBL_MAX] and [PRESOLVE_INF] are [inf],
    the active-set links carry no data and [addCol] logs the column. *)
Definition sample_helpers (N : Num) (ztoldp inf : num) : Helpers := {|
  ZTOLDP := ztoldp;
  COIN_DBL_MAX := inf;
  PRESOLVE_INF := inf;
  implied_bounds := sample_implied_bounds inf;
  presolve_delete_from_row := sample_delete_from_row;
  presolvehlinks := unit;
  PRESOLVE_REMOVE_LINK := λ l _, l;
  changed_cols := list Z;
  addCol := λ j l, l ++ [j];
  foreign_action := unit
|}.

(** The largest finite binary64 number, [(2^53 - 1) * 2^971]. *)
Definition Qc_DBL_MAX : Qc := Qc_of_ratio ((2 ^ 53 - 1) * 2 ^ 971) 1.

Definition Qc_helpers : @Helpers Qc_num :=
  sample_helpers Qc_num (Qc_of_ratio 1 (10 ^ 12)) Qc_DBL_MAX.

Definition float_helpers : @Helpers float_num :=
  sample_helpers float_num 0x1.19799812dea11p-40%float
    0x1.fffffffffffffp+1023%float.

(** Collaborators for the examples: both leave the problem and the chain as
    they are. *)
Definition sample_collaborators `{Helpers} : Collaborators := {|
  isolated_constraint_action_presolve := λ p _ _, (p, None);
  subst_constraint_action_presolve := λ p _ next fill_level, (p, next, fill_level)
|}.

(** A problem from its two packed views, bounds and costs; nothing is
    infeasible yet, and every column is to be looked at. *)
Definition make_problem `{Hh : Helpers} (links : presolvehlinks)
  (changed : changed_cols) (tol : num)
  (mcstrt hincol hrow : list Z) (colels : list num)
  (mrstrt hinrow hcol : list Z) (rowels : list num)
  (clo cup rlo rup cost : list num) : problem := {|
  colels_ := colels;
  hrow_ := hrow;
  mcstrt_ := mcstrt;
  hincol_ := hincol;
  ncols_ := Z.of_nat (length hincol);
  clo_ := clo;
  cup_ := cup;
  rowels_ := rowels;
  hcol_ := hcol;
  mrstrt_ := mrstrt;
  hinrow_ := hinrow;
  nrows_ := Z.of_nat (length hinrow);
  rlo_ := rlo;
  rup_ := rup;
  cost_ := cost;
  rlink_ := links;
  clink_ := links;
  integerType_ := replicate (length hincol) false;
  feasibilityTolerance_ := tol;
  status_ := 0;
  messages_ := [];
  numberColsToDo_ := Z.of_nat (length hincol);
  colsToDo_ := range 0 (Z.of_nat (length hincol));
  colChanged_ := changed;
  dobias_ := lit_0
|}.

Definition Qc_collaborators : @Collaborators Qc_num Qc_helpers :=
  sample_collaborators.

Definition q (n : Z) : @num Qc_num := Qc_of_ratio n 1.
Definition Qc_tol : Qc := Qc_of_ratio 1 (10 ^ 7).

Definition Qc_problem := @make_problem Qc_num Qc_helpers tt [] Qc_tol.


(** A point on the row [x0 + x1 = 5] of [singleton_problem] below:
    [x0 = 3], [x1 = 2], [x2 = 0]. *)
Definition singleton_point (i : Z) : @num Qc_num :=
  if i =? 0 then q 3 else if i =? 1 then q 2 else q 0.

(** Columns 0 and 1 lie in rows 0 and 1; column 0 is free, column 1 is in
    [0,1].  Row 0 is [x0 + x1 = 4]; row 1 is the free row
    [-inf <= x0 + x1 <= inf]. *)
Definition free_column_problem : problem :=
  Qc_problem [0;2] [2;2] [0;1;0;1] [q 1;q 1;q 1;q 1]
    [0;2] [2;2] [0;1;0;1] [q 1;q 1;q 1;q 1]
    [(- Qc_DBL_MAX)%Qc; q 0] [Qc_DBL_MAX; q 1]
    [q 4; (- Qc_DBL_MAX)%Qc] [q 4; Qc_DBL_MAX] [q 0; q 0].

(** The same rows; column 0 is now in [0, inf). *)
Definition bounded_column_problem : problem :=
  Qc_problem [0;2] [2;2] [0;1;0;1] [q 1;q 1;q 1;q 1]
    [0;2] [2;2] [0;1;0;1] [q 1;q 1;q 1;q 1]
    [q 0; q 0] [Qc_DBL_MAX; q 1]
    [q 4; (- Qc_DBL_MAX)%Qc] [q 4; Qc_DBL_MAX] [q 0; q 0].

(** Two free columns 0 and 1 in the equality rows [x0 + x1 = 0] and
    [x0 + x1 + x2 = 0]; column 2 is in [0,1]. *)
Definition shared_row_problem : problem :=
  Qc_problem [0;2;4] [2;2;1] [0;1;0;1;1] [q 1;q 1;q 1;q 1;q 1]
    [0;2] [2;3] [0;1;0;1;2] [q 1;q 1;q 1;q 1;q 1]
    [(- Qc_DBL_MAX)%Qc; (- Qc_DBL_MAX)%Qc; q 0] [Qc_DBL_MAX; Qc_DBL_MAX; q 1]
    [q 0; q 0] [q 0; q 0] [q 0; q 0; q 0].

(** Column 0 in [0,10] lies in [x0 + x1 = 5] with [x1] in [0,3] and in
    [x0 + x2 = 7] with [x2] in [3,6]: the rows imply [2 <= x0 <= 4]. *)
Definition tightened_column_problem : problem :=
  Qc_problem [0;2;3] [2;1;1] [0;1;0;1] [q 1;q 1;q 1;q 1]
    [0;2] [2;2] [0;1;0;2] [q 1;q 1;q 1;q 1]
    [q 0; q 0; q 3] [q 10; q 3; q 6] [q 5; q 7] [q 5; q 7] [q 0; q 0; q 0].


(** The scenario of section 8: column 0 in [0, inf) with cost 2 appears
    only in [x0 + x1 = 5], [x1] in [0,5]; [x1] also lies in
    [x1 + x2 <= 3]. *)
Definition singleton_problem : problem :=
  Qc_problem [0;1;3] [1;2;1] [0;0;1;1] [q 1;q 1;q 1;q 1]
    [0;2] [2;2] [0;1;1;2] [q 1;q 1;q 1;q 1]
    [q 0; q 0; q 0] [Qc_DBL_MAX; q 5; q 1]
    [q 5; (- Qc_DBL_MAX)%Qc] [q 5; q 3] [q 2; q 1; q 0].

(** Column 0 in [0,10] lies in [x0 + x2 = 5], [x2] in [0,10], and in
    [x0 + x1 = 100], [x1] in [0,1], which no point reaches. *)
Definition unreachable_row_problem : problem :=
  Qc_problem [0;2;3] [2;1;1] [0;1;1;0] [q 1;q 1;q 1;q 1]
    [0;2] [2;2] [0;2;0;1] [q 1;q 1;q 1;q 1]
    [q 0; q 0; q 0] [q 10; q 1; q 10] [q 5; q 100] [q 5; q 100]
    [q 0; q 0; q 0].

(** Column 0 in [0,10] lies in [x0 + x2 = 5], [x2] in [0,3], which implies
    [2 <= x0 <= 5], and in [x0 + x1 = 100], [x1] in [0,1], which no point
    reaches. *)
Definition unreachable_after_implied_problem : problem :=
  Qc_problem [0;2;3] [2;1;1] [0;1;1;0] [q 1;q 1;q 1;q 1]
    [0;2] [2;2] [0;2;0;1] [q 1;q 1;q 1;q 1]
    [q 0; q 0; q 0] [q 10; q 1; q 3] [q 5; q 100] [q 5; q 100]
    [q 0; q 0; q 0].


(** Row 0 is [x0 + x1 = 5] and both its columns are singletons, so it is
    isolated; row 1 is [x2 + x3 = 3] with the singleton [x2] in [0, inf) and
    [x3] in [0,3]; row 2 is [x3 + x4 <= 9]. *)
Definition isolated_row_problem : problem :=
  Qc_problem [0;1;2;3;5] [1;1;1;2;1] [0;0;1;1;2;2]
    [q 1;q 1;q 1;q 1;q 1;q 1]
    [0;2;4] [2;2;2] [0;1;2;3;3;4] [q 1;q 1;q 1;q 1;q 1;q 1]
    [q 0; q 0; q 0; q 0; q 0] [Qc_DBL_MAX; q 5; Qc_DBL_MAX; q 3; q 9]
    [q 5; q 3; (- Qc_DBL_MAX)%Qc] [q 5; q 3; q 9]
    [q 0; q 0; q 0; q 0; q 0].

(** The problems [large_coefficient_problem] and [shared_row_problem] in
    IEEE binary64, with the tolerance 1e-7 and [COIN_DBL_MAX] the largest
    finite number. *)
Definition float_DBL_MAX : @num float_num := 0x1.fffffffffffffp+1023%float.

Definition float_problem :=
  @make_problem float_num float_helpers tt [] 0x1.ad7f29abcaf48p-24%float.

Definition large_coefficient_problem_binary64 : problem :=
  float_problem [0;2;3] [2;1;1] [0;1;0;1] [1; 1; 1e15; 1]%float
    [0;2] [2;2] [0;1;0;2] [1; 1e15; 1; 1]%float
    [0; -1e19; 0]%float [float_DBL_MAX; (-1e17)%float; 1%float]
    [0; 1]%float [0; 1]%float [0; 0; 0]%float.

Definition shared_row_problem_binary64 : problem :=
  float_problem [0;2;4] [2;2;1] [0;1;0;1;1] [1; 1; 1; 1; 1]%float
    [0;2] [2;3] [0;1;0;1;2] [1; 1; 1; 1; 1]%float
    [PrimFloat.opp float_DBL_MAX; PrimFloat.opp float_DBL_MAX; 0%float]
    [float_DBL_MAX; float_DBL_MAX; 1%float]
    [0; 0]%float [0; 0]%float [0; 0; 0]%float.


Definition masked_row_problem_binary64 : problem :=
  float_problem [0;2;3] [2;1;1] [0;1;0;1] [1e15; 1; 1e15; 1]%float
    [0;2] [2;2] [0;1;0;2] [1e15; 1e15; 1; 1]%float
    [1.5e16%float; PrimFloat.opp float_DBL_MAX; 0%float]
    [1.9e16; -1e17; 1]%float
    [0; 1.6e16]%float [0; 1.6e16]%float [0; 0; 0]%float.

(** The free column 0 lies with coefficient 1 in the equality row
    [x0 + x1 + x2 = 0] of three entries and with the [double] nearest to
    0.1 in the equality row [0.1 x0 + x3 = 0] of two; the other columns are
    in [0,1].  The same in exact arithmetic, the coefficient being the
    value of that [double]. *)
Definition rounded_threshold_problem_binary64 : problem :=
  float_problem [0;2;3;4] [2;1;1;1] [0;1;0;0;1]
    [1; 0x1.999999999999ap-4; 1; 1; 1]%float
    [0;3] [3;2] [0;1;2;0;3] [1; 1; 1; 0x1.999999999999ap-4; 1]%float
    [PrimFloat.opp float_DBL_MAX; 0%float; 0%float; 0%float]
    [float_DBL_MAX; 1%float; 1%float; 1%float]
    [0; 0]%float [0; 0]%float [0; 0; 0; 0]%float.

Definition rounded_threshold_problem : problem :=
  Qc_problem [0;2;3;4] [2;1;1;1] [0;1;0;0;1]
    [q 1; Qc_of_ratio 3602879701896397 36028797018963968; q 1; q 1; q 1]
    [0;3] [3;2] [0;1;2;0;3]
    [q 1; q 1; q 1; Qc_of_ratio 3602879701896397 36028797018963968; q 1]
    [(- Qc_DBL_MAX)%Qc; q 0; q 0; q 0] [Qc_DBL_MAX; q 1; q 1; q 1]
    [q 0; q 0] [q 0; q 0] [q 0; q 0; q 0; q 0].

(** ** Predicates and terms of the properties *)


(** What the second loop leaves alone: the declared column bounds, the
    status and the messages. *)
Definition untouched `{Helpers} (p p' : problem) : Prop :=
  clo_ p' = clo_ p ∧ cup_ p' = cup_ p
  ∧ status_ p' = status_ p ∧ messages_ p' = messages_ p.

(** The two conditions of lines 382-383 on the entry [k] of a column. *)
Definition equality_entry `{Helpers} (prob : problem) (k : Z) : bool :=
  (nabs ((rlo_ prob).[(hrow_ prob).[k]] - (rup_ prob).[(hrow_ prob).[k]])
   <? feasibilityTolerance_ prob)%num.
Definition significant_entry `{Helpers} (prob : problem) (threshold : num)
  (k : Z) : bool :=
  (nabs (colels_ prob).[k] >? threshold)%num.

(** Only a row with at most one entry is tagged [-2]. *)
Definition tags_sound `{Helpers} (prob : problem) (w : work) : Prop :=
  ∀ row, (infiniteUp w).[row] = -2 → (hinrow_ prob).[row] ≤ 1.

Section CostTerms.
Context {Hh : @Helpers Qc_num}.
Variable p : @problem Qc_num Hh.
Variables (j : Z) (costj coeffj : @num Qc_num).
Variable x : Z → @num Qc_num.

(** The cost array through one turn of the loop of lines 512-529. *)
Definition cost_step (cost : list (@num Qc_num)) (k : Z) : list (@num Qc_num) :=
  if negb ((hcol_ p).[k] =? j)
  then cost.[(hcol_ p).[k]
             <- (cost.[(hcol_ p).[k]] + costj * (- (rowels_ p).[k] / coeffj))%num]
  else cost.

(** What the loop of lines 512-529 adds to the objective at [x]; the
    activity of the entries [l] at [x]; the part of it that column [j]
    contributes. *)
Definition moved (l : list Z) : @num Qc_num :=
  foldr (λ k acc,
    ((if ((hcol_ p).[k] =? j)%Z then lit_0
      else costj * (- (rowels_ p).[k] / coeffj) * x (hcol_ p).[k]) + acc)%num)
    lit_0 l.
Definition entries_value (l : list Z) : @num Qc_num :=
  foldr (λ k acc, ((rowels_ p).[k] * x (hcol_ p).[k] + acc)%num) lit_0 l.
Definition own_value (l : list Z) : @num Qc_num :=
  foldr (λ k acc,
    ((if ((hcol_ p).[k] =? j)%Z then (rowels_ p).[k] * x j else lit_0)
     + acc)%num)
    lit_0 l.

End CostTerms.

(** The values [S] are ordered by the comparisons of the [double]s the way
    numbers are: [<=] is reflexive, two values compare one way or the
    other, [<=] followed by [<] gives [<=], and a value that is [<= 0] is
    0.  Exact rationals are, and so are [double]s that are not NaN. *)
Definition ordered `{Num} (S : list num) : Prop :=
  (∀ a, a ∈ S → (a <=? a)%num = true)
  ∧ (∀ a b, a ∈ S → b ∈ S → (a <? b)%num = false → (b <=? a)%num = true)
  ∧ (∀ a b c, a ∈ S → b ∈ S → c ∈ S →
       (a <=? b)%num = true → (b <? c)%num = true → (a <=? c)%num = true)
  ∧ (∀ a, a ∈ S → (a <=? lit_0)%num = true → a = lit_0).

(** The magnitudes of the coefficients of the entries [l], and those of
    column [j] with 0, the start of [largestElement]. *)
Definition magnitudes `{Helpers} (prob : problem) (l : list Z) : list num :=
  (λ k, nabs (colels_ prob).[k]) <$> l.

Definition magnitudes_ordered `{Helpers} (prob : problem) (j : Z) : Prop :=
  ordered
    (lit_0 :: magnitudes prob (range (mcstrt_ prob).[j] (hincol_ prob).[j])).

(** The tags of [w'] continue those of [w]: the array keeps its length and
    a row tagged [-3] stays tagged [-3]. *)
Definition tags_continue `{Num} (w w' : work) : Prop :=
  length (infiniteUp w') = length (infiniteUp w)
  ∧ ∀ row, (infiniteUp w).[row] = -3 → (infiniteUp w').[row] = -3.

(** The four arrays have one entry per row, and an entry tagged with a
    count holds the figures of its row. *)
Definition cache_sound `{Helpers} (prob : problem) (w : work) : Prop :=
  (length (infiniteUp w) = Z.to_nat (nrows_ prob)
   ∧ length (infiniteDown w) = Z.to_nat (nrows_ prob)
   ∧ length (maxUp w) = Z.to_nat (nrows_ prob)
   ∧ length (maxDown w) = Z.to_nat (nrows_ prob))
  ∧ ∀ row, 0 ≤ row < nrows_ prob → 0 ≤ (infiniteUp w).[row] →
      (infiniteUp w).[row] = infiniteUpper (row_activity prob row)
      ∧ (infiniteDown w).[row] = infiniteLower (row_activity prob row)
      ∧ (maxUp w).[row] = maximumUp (row_activity prob row)
      ∧ (maxDown w).[row] = maximumDown (row_activity prob row).

(** From [w] to [w'] the loop has emitted the messages [l], each for a row
    with its bounds, and raised bit 0 of the status exactly when there is
    one. *)
Definition reports `{Helpers} (prob : problem) (w w' : work)
  (l : list message) : Prop :=
  messages w' = messages w ++ l
  ∧ (∀ msg, msg ∈ l →
       ∃ row, msg = COIN_PRESOLVE_ROWINFEAS row (rlo_ prob).[row] (rup_ prob).[row])
  ∧ status w' = match l with [] => status w | _ => Z.lor (status w) 1 end.

(** The undo record the second loop writes for column [j] and [row] of
    [p], with the saved costs [costs]. *)
Definition saved_row `{Helpers} (p : problem) (j row : Z)
  (costs : option (list num)) : action := {|
  action_row := row;
  action_col := j;
  action_clo := (clo_ p).[j];
  action_cup := (cup_ p).[j];
  action_rlo := (rlo_ p).[row];
  action_rup := (rup_ p).[row];
  action_ninrow := (hinrow_ p).[row];
  action_rowels :=
    (λ k, (rowels_ p).[k]) <$> range (mrstrt_ p).[row] (hinrow_ p).[row];
  action_rowcols :=
    (λ k, (hcol_ p).[k]) <$> range (mrstrt_ p).[row] (hinrow_ p).[row];
  action_costs := costs
|}.

(** The columns of [row] in the row-major view of [p]. *)
Definition row_columns `{Helpers} (p : problem) (row : Z) : list Z :=
  (λ k, (hcol_ p).[k]) <$> range (mrstrt_ p).[row] (hinrow_ p).[row].

(** What holds of a state [s] of the second loop started on [p] with the
    marks [marks] for the columns [look]: the row-major view and the column
    bounds are those of [p]; a row is recorded in an action or has its
    bounds and length as in [p]; a recorded row is empty with zero bounds;
    an action is the undo record of [p] for a marked column of [look]; a
    mark left is a mark of [marks]; no row of the problem is recorded
    twice. *)
Definition records_sound `{Helpers} (p : problem) (marks look : list Z)
  (s : elim_state) : Prop :=
  (rowels_ (e_prob s) = rowels_ p ∧ hcol_ (e_prob s) = hcol_ p
   ∧ mrstrt_ (e_prob s) = mrstrt_ p ∧ clo_ (e_prob s) = clo_ p
   ∧ cup_ (e_prob s) = cup_ p)
  ∧ (length (rlo_ (e_prob s)) = length (rlo_ p)
     ∧ length (rup_ (e_prob s)) = length (rup_ p)
     ∧ length (hinrow_ (e_prob s)) = length (hinrow_ p))
  ∧ (∀ row,
       row ∈ action_row <$> e_actions s
       ∨ ((rlo_ (e_prob s)).[row] = (rlo_ p).[row]
          ∧ (rup_ (e_prob s)).[row] = (rup_ p).[row]
          ∧ (hinrow_ (e_prob s)).[row] = (hinrow_ p).[row]))
  ∧ (∀ a, a ∈ e_actions s →
       0 ≤ action_row a < Z.of_nat (length (hinrow_ p)) →
       (hinrow_ (e_prob s)).[action_row a] = 0
       ∧ (rlo_ (e_prob s)).[action_row a] = lit_0
       ∧ (rup_ (e_prob s)).[action_row a] = lit_0)
  ∧ (∀ a, a ∈ e_actions s →
       a = saved_row p (action_col a) (action_row a) (action_costs a)
       ∧ action_col a ∈ look ∧ 0 ≤ marks.[action_col a])
  ∧ (∀ j, 0 ≤ (e_implied_free s).[j] → 0 ≤ marks.[j])
  ∧ ((∀ a, a ∈ e_actions s →
        0 ≤ action_row a < Z.of_nat (length (hinrow_ p))) →
     NoDup (action_row <$> e_actions s)).

(** The arrays of the postsolve matrix [m] that the problem [p] has too
    hold the same values: costs, row bounds and column bounds. *)
Definition same_data `{Helpers} `{PostsolveHelpers} (m : Post.matrix)
  (p : problem) : Prop :=
  Post.cost_ m = cost_ p
  ∧ Post.rlo_ m = rlo_ p ∧ Post.rup_ m = rup_ p
  ∧ Post.clo_ m = clo_ p ∧ Post.cup_ m = cup_ p.

(** The saved row of an undo record holds each column once, holds the
    column of the record, and holds columns below [ncost] only. *)
Definition record_row_sound `{Num} (ncost : nat) (a : action) : Prop :=
  NoDup (action_rowcols a)
  ∧ action_col a ∈ action_rowcols a
  ∧ ∀ c, c ∈ action_rowcols a → 0 ≤ c < Z.of_nat ncost.

(** The activity of the saved row of [f] at the values [sol], summed as
    line 692 sums the other columns. *)
Definition saved_row_value `{Num} (f : action) (sol : list num) : num :=
  foldl (λ acc k,
    (acc + (action_rowels f).[k] * sol.[(action_rowcols f).[k]])%num)
    lit_0 (range 0 (action_ninrow f)).

(** The columns the saved row of [f] names, entry by entry. *)
Definition saved_columns `{Num} (f : action) : list Z :=
  (λ k, (action_rowcols f).[k]) <$> range 0 (action_ninrow f).

(** The entries a thread of [n] entries visits from entry [k] on, as lines
    810-816 walk a column. *)
Fixpoint thread (link : list Z) (k : Z) (n : nat) : list Z :=
  match n with
  | O => []
  | S n' => k :: thread link link.[k] n'
  end.

(** The entries of column [j] of the postsolve matrix, and their rows and
    coefficients. *)
Definition column_thread `{Num} `{PostsolveHelpers} (m : Post.matrix) (j : Z)
  : list Z :=
  thread (Post.link_ m) (Post.mcstrt_ m).[j] (Z.to_nat (Post.hincol_ m).[j]).

Definition column_entries `{Num} `{PostsolveHelpers} (m : Post.matrix) (j : Z)
  : list (Z * num) :=
  (λ k, ((Post.hrow_ m).[k], (Post.colels_ m).[k])) <$> column_thread m j.

(** The first [n] entries of the free list. *)
Definition free_thread `{Num} `{PostsolveHelpers} (m : Post.matrix) (n : nat)
  : list Z :=
  thread (Post.link_ m) (Post.free_list_ m) n.

(** An entry within the three arrays of the threaded columns. *)
Definition entry_in_range `{Num} `{PostsolveHelpers} (m : Post.matrix) (k : Z)
  : Prop :=
  0 ≤ k < Z.of_nat (length (Post.link_ m))
  ∧ 0 ≤ k < Z.of_nat (length (Post.hrow_ m))
  ∧ 0 ≤ k < Z.of_nat (length (Post.colels_ m)).
(** What replaying the record [f] leaves alone from [m] to [m']: the
    values and bounds of the other columns, the activities, duals and
    bounds of the other rows, and the costs, reduced costs, lengths and
    starts of the columns outside the saved row. *)
Definition replay_frame `{Num} `{PostsolveHelpers} (f : action)
  (m m' : Post.matrix) : Prop :=
  (∀ c, c ≠ action_col f →
     (Post.sol_ m').[c] = (Post.sol_ m).[c]
     ∧ (Post.clo_ m').[c] = (Post.clo_ m).[c]
     ∧ (Post.cup_ m').[c] = (Post.cup_ m).[c])
  ∧ (∀ r, r ≠ action_row f →
       (Post.acts_ m').[r] = (Post.acts_ m).[r]
       ∧ (Post.rowduals_ m').[r] = (Post.rowduals_ m).[r]
       ∧ (Post.rlo_ m').[r] = (Post.rlo_ m).[r]
       ∧ (Post.rup_ m').[r] = (Post.rup_ m).[r])
  ∧ (∀ c, c ≠ action_col f → c ∉ saved_columns f →
       (Post.rcosts_ m').[c] = (Post.rcosts_ m).[c]
       ∧ (Post.cost_ m').[c] = (Post.cost_ m).[c]
       ∧ (Post.hincol_ m').[c] = (Post.hincol_ m).[c]
       ∧ (Post.mcstrt_ m').[c] = (Post.mcstrt_ m).[c]).

(** A point [x], which gives each column its value, is within the bounds of
    the columns of the entries [l] when each of them lies between its
    declared bounds. *)
Definition within_bounds {Hh : @Helpers Qc_num} (p : @problem Qc_num Hh)
  (x : Z → Qc) (l : list Z) : Prop :=
  ∀ kk, kk ∈ l →
    ((clo_ p).[(hcol_ p).[kk]] <= x (hcol_ p).[kk])%Qc
    ∧ (x (hcol_ p).[kk] <= (cup_ p).[(hcol_ p).[kk]])%Qc.

(** The entries of [row] other than the entry [k0], and the figures of two
    parts of a row taken together. *)
Definition other_entries {Hh : @Helpers Qc_num} (p : @problem Qc_num Hh)
  (row k0 : Z) : list Z :=
  range (mrstrt_ p).[row] (k0 - (mrstrt_ p).[row])
  ++ range (k0 + 1) ((mrstrt_ p).[row] + (hinrow_ p).[row] - (k0 + 1)).

Definition act_add (a b : @activity Qc_num) : @activity Qc_num := {|
  infiniteUpper := infiniteUpper a + infiniteUpper b;
  infiniteLower := infiniteLower a + infiniteLower b;
  maximumUp := (maximumUp a + maximumUp b)%num;
  maximumDown := (maximumDown a + maximumDown b)%num
|}.

Definition no_activity : @activity Qc_num :=
  {| infiniteUpper := 0; infiniteLower := 0;
     maximumUp := lit_0; maximumDown := lit_0 |}.

(** What the figures of the block of lines 224-363 say about the value [D]
    of the other entries of the row, for a column with coefficient [a]:
    without an unbounded contribution the sum less the share of the column
    bounds [D]; with one, which is the column's own, the sum bounds [D].
    The share of the column is [a] times its upper bound in the largest
    activity and times its lower bound in the smallest when [a] is
    positive, and the other way round when it is negative. *)
Definition up_inv (pos : bool) (a D : Qc) (t : @tighten_state Qc_num)
  : Prop :=
  (infiniteUpper (act t) = 0 →
     (D <= maximumUp (act t)
           - a * (if pos then nowUpper t else nowLower t))%Qc)
  ∧ (infiniteUpper (act t) = 1 →
       (if pos then (@lit_1e20 Qc_num < nowUpper t)%Qc
        else (nowLower t < - @lit_1e20 Qc_num)%Qc) →
       (D <= maximumUp (act t))%Qc).

Definition down_inv (pos : bool) (a D : Qc) (t : @tighten_state Qc_num)
  : Prop :=
  (infiniteLower (act t) = 0 →
     (maximumDown (act t)
      - a * (if pos then nowLower t else nowUpper t) <= D)%Qc)
  ∧ (infiniteLower (act t) = 1 →
       (if pos then (nowLower t < - @lit_1e20 Qc_num)%Qc
        else (@lit_1e20 Qc_num < nowUpper t)%Qc) →
       (maximumDown (act t) <= D)%Qc).

(** What the point [x] has to satisfy at the entry [k] of column [j] for
    the row of the entry to say something about the column: the row is a
    row of the problem and holds at [x]; the row-major copy has the entry,
    with the same coefficient; the other columns of the row are within
    their declared bounds; and the row has at most one contribution to its
    smallest activity that is counted as unbounded, or the declared bounds
    of the column are within [1e20] in magnitude. *)
Definition row_supports {Hh : @Helpers Qc_num} (p : @problem Qc_num Hh)
  (x : Z → Qc) (j k : Z) : Prop :=
  let row := (hrow_ p).[k] in
  0 ≤ row < nrows_ p
  ∧ ((rlo_ p).[row] <= row_value p row x)%Qc
  ∧ (row_value p row x <= (rup_ p).[row])%Qc
  ∧ (infiniteLower (row_activity p row) ≤ 1
     ∨ ((- @lit_1e20 Qc_num <= (clo_ p).[j])%Qc
        ∧ ((cup_ p).[j] <= @lit_1e20 Qc_num)%Qc))
  ∧ ∃ k0, k0 ∈ range (mrstrt_ p).[row] (hinrow_ p).[row]
          ∧ (hcol_ p).[k0] = j
          ∧ (rowels_ p).[k0] = (colels_ p).[k]
          ∧ within_bounds p x (other_entries p row k0).

(** ** Sample data of the replay and points of a problem *)

(** Statuses for the examples: the three statuses the pass names are the
    numbers 1, 2 and 3, and the two status arrays are lists. *)
Definition sample_postsolve_helpers : PostsolveHelpers := {|
  Status := Z;
  Status_eq_dec := Z.eq_dec;
  basic := 1;
  atUpperBound := 2;
  atLowerBound := 3;
  statuses := list Z * list Z;
  getColumnStatus := λ s j, s.1.[j];
  setColumnStatus := λ j st s, (s.1.[j <- st], s.2);
  setRowStatus := λ i st s, (s.1, s.2.[i <- st]);
  IMPLIED_FREE := 9
|}.

(** [singleton_problem] after the second loop has eliminated its column 0,
    the only marked one, with row 0, and the undo record of that
    elimination. *)
Definition singleton_eliminated : elim_state :=
  @eliminate_singletons Qc_num Qc_helpers [0; 1; 2] singleton_problem [0; -1; -1].

Definition singleton_record : @action Qc_num :=
  @saved_row Qc_num Qc_helpers singleton_problem 0 0 (Some [q 2; q 1]).

(** The problem [singleton_eliminated] leaves, solved: minimise [-x1]
    subject to [x1 + x2 <= 3], with [x1 = 3] basic, [x2 = 0] at its lower
    bound and the row at its upper bound with dual [-1].  Column 1 is the
    entry 0 of the threaded columns, column 2 the entry 1, and the entries
    2 to 5 are free. *)
Definition singleton_solved : @Post.matrix Qc_num sample_postsolve_helpers := {|
  Post.colels_ := [q 1; q 1; q 0; q 0; q 0; q 0];
  Post.hrow_ := [1; 1; 0; 0; 0; 0];
  Post.mcstrt_ := [0; 0; 1];
  Post.hincol_ := [0; 1; 1];
  Post.link_ := [-1; -1; 3; 4; 5; -1];
  Post.clo_ := clo_ (e_prob singleton_eliminated);
  Post.cup_ := cup_ (e_prob singleton_eliminated);
  Post.rlo_ := rlo_ (e_prob singleton_eliminated);
  Post.rup_ := rup_ (e_prob singleton_eliminated);
  Post.sol_ := [q 0; q 3; q 0];
  Post.rcosts_ := [q 0; q 0; q 1];
  Post.cost_ := cost_ (e_prob singleton_eliminated);
  Post.acts_ := [q 0; q 3];
  Post.rowduals_ := [q 0; q (-1)];
  Post.maxmin_ := q 1;
  Post.cdone_ := [0; 0; 0];
  Post.rdone_ := [0; 0];
  Post.free_list_ := 2;
  Post.ztolzb_ := Qc_tol;
  Post.ztoldj_ := Qc_tol;
  Post.status_arrays_ :=
    (([0; 1; 3], [0; 2]) : @statuses sample_postsolve_helpers);
  Post.stdout_ := []
|}.

(** Two points for the examples of the first loop: [x0 = 3], [x1 = 2] and
    every other column at [4]; and every column at [1]. *)
Definition sample_point (c : Z) : Qc :=
  if c =? 0 then q 3 else if c =? 1 then q 2 else q 4.
Definition unit_point (c : Z) : Qc := q 1.

(** ** Tactics *)

(** Closes an equation between closed terms by evaluating both sides. *)
Ltac vm_refl :=
  lazymatch goal with
  | |- @eq ?T ?a ?b => vm_cast_no_check (@eq_refl T a)
  end.

(** Equations of exact arithmetic between [double] expressions. *)
Ltac qc_ops :=
  cbn [nadd nsub nmul ndiv nopp lit_0 num Qc_num]; unfold Qc_of_ratio;
  change (Q2Qc (0 # 1)) with 0%Qc.
Ltac qc_ring := qc_ops; ring.
Ltac qc_field := qc_ops; field.

(** Splits a membership in a list given by its elements into its cases. *)
Ltac elem_cases H :=
  repeat (apply elem_of_cons in H as [->|H]);
  [..|by apply elem_of_nil in H].

(** Closes [NoDup] of a list of numbers given by its elements. *)
Ltac nodup_literal :=
  repeat (apply NoDup_cons; split;
          [let Hin := fresh in
           intros Hin;
           repeat (apply elem_of_cons in Hin as [Hin|Hin]; [discriminate Hin|]);
           by apply elem_of_nil in Hin|]);
  apply NoDup_nil_2.

(** Equations of exact arithmetic whose sides are [double] expressions of the
    embedding: the terms of type [num] become variables over [Qc]. *)
Ltac qc_atoms :=
  repeat match goal with
  | |- context [?t] =>
      lazymatch type of t with
      | @num Qc_num => let e := fresh "e" in generalize (t : Qc); intros e
      end
  end.
Ltac qc_eq :=
  lazymatch goal with
  | |- @eq _ ?a ?b => change (@eq Qc a b); qc_ops; qc_atoms; ring
  end.

(** Splits on the first test of the goal. *)
Ltac case_if H :=
  match goal with
  | |- context [if ?c then _ else _] => destruct c eqn:H
  end.

(** * Properties *)

(** ** Arrays and loops *)

Lemma aget_aset_eq {A} `{Inhabited A} (l : list A) (i : Z) (v : A) :
  0 ≤ i < Z.of_nat (length l) → (l.[i <- v]).[i] = v.
Proof.
  intros [Hi Hl]. unfold aget, aset.
  destruct (Z.ltb_spec i 0) as [?|_]; [lia|].
  apply list_lookup_total_insert_eq. lia.
Qed.

Lemma aget_aset_ne {A} `{Inhabited A} (l : list A) (i j : Z) (v : A) :
  i ≠ j → (l.[i <- v]).[j] = l.[j].
Proof.
  intros Hij. unfold aget, aset.
  destruct (Z.ltb_spec j 0) as [?|Hj]; [done|].
  destruct (Z.ltb_spec i 0) as [?|Hi]; [done|].
  apply list_lookup_total_insert_ne. lia.
Qed.

Lemma length_aset {A} (l : list A) (i : Z) (v : A) :
  length (l.[i <- v]) = length l.
Proof. unfold aset. destruct (i <? 0); [done|]. apply length_insert. Qed.

(** A written entry reads as the written value or, outside the array, as
    before. *)
Lemma aget_aset_cases {A} `{Inhabited A} (l : list A) (i j : Z) (v : A) :
  (l.[i <- v]).[j] = v ∨ (l.[i <- v]).[j] = l.[j].
Proof.
  destruct (decide (i = j)) as [->|Hne]; [|right; by apply aget_aset_ne].
  unfold aget, aset. destruct (Z.ltb_spec j 0); [by right|].
  destruct (decide (Z.to_nat j < length l)%nat) as [Hlt|Hge].
  - left. by apply list_lookup_total_insert_eq.
  - right. rewrite list_insert_ge by lia. done.
Qed.

Lemma for_break_app {S E X} (body : S → X → S * option E) s l1 l2 :
  for_break body s (l1 ++ l2) =
  match for_break body s l1 with
  | (s', None) => for_break body s' l2
  | (s', Some e) => (s', Some e)
  end.
Proof.
  revert s. induction l1 as [|x l1 IH]; intros s; simpl; [done|].
  destruct (body s x) as [s' [e|]]; [done|]. apply IH.
Qed.

(** Once the body breaks, the rest of the list is not visited. *)
Lemma for_break_stop {S E X} (body : S → X → S * option E) s l1 x l2 s1 s2 e :
  for_break body s l1 = (s1, None) →
  body s1 x = (s2, Some e) →
  for_break body s (l1 ++ x :: l2) = (s2, Some e).
Proof.
  intros H1 H2. rewrite for_break_app, H1. simpl. by rewrite H2.
Qed.

(** An invariant of the body is an invariant of the loop. *)
Lemma for_break_invariant {S E X} (P : S → Prop) (body : S → X → S * option E) :
  (∀ s x, P s → P (fst (body s x))) →
  ∀ l s, P s → P (fst (for_break body s l)).
Proof.
  intros Hbody l. induction l as [|x l IH]; intros s Hs; simpl; [done|].
  specialize (Hbody s x Hs). destruct (body s x) as [s' [e|]]; simpl in *;
    [done|by apply IH].
Qed.

Lemma foldl_invariant {S X} (P : S → Prop) (body : S → X → S) :
  (∀ s x, P s → P (body s x)) →
  ∀ l s, P s → P (foldl body s l).
Proof.
  intros Hbody l. induction l as [|x l IH]; intros s Hs; simpl; [done|].
  apply IH, Hbody, Hs.
Qed.

(** ** The first loop *)

Section ScanFacts.
Context `{Helpers}.
Variable prob : problem.

Local Abbreviation tol := (feasibilityTolerance_ prob).












Lemma scan_column_multi w j :
  1 < (hincol_ prob).[j] ≤ 3 → (integerType_ prob).[j] = false →
  scan_column prob w j = (scan_multi prob j w, None).
Proof.
  intros [Hlo Hhi] Hi. unfold scan_column. rewrite Hi.
  destruct (Z.leb_spec (hincol_ prob).[j] 3); [|lia].
  destruct (Z.ltb_spec 1 (hincol_ prob).[j]); [done|lia].
Qed.

End ScanFacts.

(** ** The second loop *)

Section EliminateFacts.
Context `{Helpers}.

Lemma untouched_refl p : untouched p p.
Proof. by repeat split. Qed.

Lemma untouched_trans p1 p2 p3 :
  untouched p1 p2 → untouched p2 p3 → untouched p1 p3.
Proof.
  intros (?&?&?&?) (?&?&?&?). repeat split; congruence.
Qed.

Lemma untouched_eliminate s j : untouched (e_prob s) (e_prob (eliminate s j)).
Proof.
  unfold eliminate.
  destruct (nonzero_cost _ _ _).
  - destruct (move_cost _ _ _ _) as [cost save_costs].
    destruct (foldl _ _ _) as [[[colChanged hincol] hrow] colels].
    by repeat split.
  - destruct (foldl _ _ _) as [[[colChanged hincol] hrow] colels].
    by repeat split.
Qed.

Lemma untouched_eliminate_column s j :
  untouched (e_prob s) (e_prob (eliminate_column s j).1).
Proof.
  unfold eliminate_column.
  destruct (_ && _); [|apply untouched_refl].
  destruct (isolated _ _); simpl; [apply untouched_refl|].
  apply untouched_eliminate.
Qed.

Lemma untouched_eliminate_loop look s :
  untouched (e_prob s) (e_prob (for_break eliminate_column s look).1).
Proof.
  apply (for_break_invariant (λ s', untouched (e_prob s) (e_prob s')));
    [|apply untouched_refl].
  intros s' x Hs'. eapply untouched_trans; [exact Hs'|].
  apply untouched_eliminate_column.
Qed.

(** The loop sets [isolated_row] once, when it breaks. *)
Lemma eliminate_column_break s j s' row :
  eliminate_column s j = (s', Some row) →
  (hincol_ (e_prob s)).[j] = 1 ∧ 0 ≤ (e_implied_free s).[j]
  ∧ row = (hrow_ (e_prob s)).[(mcstrt_ (e_prob s)).[j]]
  ∧ isolated (e_prob s) row = true
  ∧ s' = {| e_prob := e_prob s; e_implied_free := e_implied_free s;
            e_actions := e_actions s; e_isolated_row := row |}.
Proof.
  unfold eliminate_column.
  destruct (Z.eqb_spec (hincol_ (e_prob s)).[j] 1) as [Hn|]; [|done].
  destruct (Z.leb_spec 0 (e_implied_free s).[j]) as [Hm|]; [|done]. simpl.
  destruct (isolated _ _) eqn:Hiso; [|done].
  intros [= <- <-]. done.
Qed.

Lemma eliminate_column_isolated s j :
  (hincol_ (e_prob s)).[j] = 1 → 0 ≤ (e_implied_free s).[j] →
  isolated (e_prob s) (hrow_ (e_prob s)).[(mcstrt_ (e_prob s)).[j]] = true →
  eliminate_column s j
  = ({| e_prob := e_prob s; e_implied_free := e_implied_free s;
        e_actions := e_actions s;
        e_isolated_row := (hrow_ (e_prob s)).[(mcstrt_ (e_prob s)).[j]] |},
     Some (hrow_ (e_prob s)).[(mcstrt_ (e_prob s)).[j]]).
Proof.
  intros Hn Hm Hiso. unfold eliminate_column. rewrite Hn, Hiso.
  destruct (Z.leb_spec 0 (e_implied_free s).[j]); [done|lia].
Qed.

Lemma eliminate_column_continue s j s' :
  eliminate_column s j = (s', None) → e_isolated_row s' = e_isolated_row s.
Proof.
  unfold eliminate_column.
  destruct (_ && _); [|by intros [= <-]].
  destruct (isolated _ _); [done|]. intros [= <-].
  unfold eliminate.
  destruct (nonzero_cost _ _ _).
  - destruct (move_cost _ _ _ _) as [cost save_costs].
    by destruct (foldl _ _ _) as [[[colChanged hincol] hrow] colels].
  - by destruct (foldl _ _ _) as [[[colChanged hincol] hrow] colels].
Qed.

End EliminateFacts.

(** ** Infeasible rows *)





(** The same row in IEEE binary64. *)
Lemma redundancy_masks_infeasible_row_binary64 :
  let P := masked_row_problem_binary64 in
  let a := row_activity P 0 in
  let w := (scan P (look_list P (-1)) (work_init P)).1 in
  infiniteUpper a = 0
  ∧ (maxUpx a <? (rlo_ P).[0] - feasibilityTolerance_ P)%num = true
  ∧ classify P 0 a = Redundant
  ∧ status w = 0
  ∧ messages w = []
  ∧ (infiniteUp w).[0] = -3.
Proof. intros P a w. repeat split; vm_refl. Qed.

Lemma for_break_Some {S E X} (body : S → X → S * option E) l s s' e :
  for_break body s l = (s', Some e) →
  ∃ l1 x l2 s1,
    l = l1 ++ x :: l2
    ∧ for_break body s l1 = (s1, None)
    ∧ body s1 x = (s', Some e).
Proof.
  revert s. induction l as [|x l IH]; intros s; simpl; [done|].
  destruct (body s x) as [s1 [e1|]] eqn:Hb.
  - intros [= <- <-]. by exists [], x, l, s.
  - intros Hl. destruct (IH _ Hl) as (l1 & y & l2 & s2 & -> & Hl1 & Hy).
    exists (x :: l1), y, l2, s2. simpl. by rewrite Hb.
Qed.

Lemma eliminate_loop_continue `{Helpers} look s s' :
  for_break eliminate_column s look = (s', None) →
  e_isolated_row s' = e_isolated_row s.
Proof.
  revert s. induction look as [|j look IH]; intros s; simpl.
  - by intros [= <-].
  - destruct (eliminate_column s j) as [s1 [row|]] eqn:Hj; [done|].
    intros Hl. rewrite (IH _ Hl). by apply (eliminate_column_continue s j).
Qed.

(** ** The pass as a whole *)

Section PassFacts.
Context `{Collaborators}.

(** The calls of a run, read off the definition of [presolve]. *)
Lemma presolve_calls prob next fill_level :
  let look := look_list prob fill_level in
  let w := (scan prob look (work_init prob)).1 in
  let e := eliminate_singletons look (with_status prob w) (implied_free w) in
  rows_handed (r_calls (presolve prob next fill_level))
  = if e_isolated_row e =? -1 then [] else [e_isolated_row e].
Proof.
  intros look w e. unfold presolve, hand_isolated_row. fold look. fold w. fold e.
  destruct (e_isolated_row e =? -1); simpl.
  - destruct (negb (fill_level =? 0)); [|done].
    by destruct (subst_constraint_action_presolve _ _ _ _) as [[p3 n3] f3].
  - destruct (isolated_constraint_action_presolve _ _ _) as [p' nextX].
    destruct (negb (fill_level =? 0)); [|done].
    by destruct (subst_constraint_action_presolve _ _ _ _) as [[p3 n3] f3].
Qed.

(** C10.  A run hands at most one row to the isolated-constraint handler.
    The row it hands is the row of a marked singleton column [j] of the
    worklist, isolated when the second loop reaches [j]: the nonzeros of
    its columns number as many as its own.  The loop stops there: its
    final problem, classification and actions are those it had on reaching
    [j], so neither [j] nor any column after it in the worklist is
    eliminated by the loop. *)
Theorem isolated_row_stops_elimination :
  (∀ prob next fill_level,
     (length (rows_handed (r_calls (presolve prob next fill_level))) ≤ 1)%nat)
  ∧ (∀ prob next fill_level row,
     row ∈ rows_handed (r_calls (presolve prob next fill_level)) →
     let look := look_list prob fill_level in
     let w := (scan prob look (work_init prob)).1 in
     let s0 := {| e_prob := with_status prob w;
                  e_implied_free := implied_free w;
                  e_actions := []; e_isolated_row := -1 |} in
     let e := eliminate_singletons look (with_status prob w) (implied_free w) in
     ∃ l1 j l2 s1,
       look = l1 ++ j :: l2
       ∧ for_break eliminate_column s0 l1 = (s1, None)
       ∧ (hincol_ (e_prob s1)).[j] = 1
       ∧ 0 ≤ (e_implied_free s1).[j]
       ∧ row = (hrow_ (e_prob s1)).[(mcstrt_ (e_prob s1)).[j]]
       ∧ isolated (e_prob s1) row = true
       ∧ e_prob e = e_prob s1
       ∧ e_implied_free e = e_implied_free s1
       ∧ e_actions e = e_actions s1)
  ∧ (∀ (s : elim_state) l1 j l2 s1,
     for_break eliminate_column s l1 = (s1, None) →
     (hincol_ (e_prob s1)).[j] = 1 →
     0 ≤ (e_implied_free s1).[j] →
     isolated (e_prob s1) (hrow_ (e_prob s1)).[(mcstrt_ (e_prob s1)).[j]] = true →
     for_break eliminate_column s (l1 ++ j :: l2)
     = ({| e_prob := e_prob s1; e_implied_free := e_implied_free s1;
           e_actions := e_actions s1;
           e_isolated_row := (hrow_ (e_prob s1)).[(mcstrt_ (e_prob s1)).[j]] |},
        Some (hrow_ (e_prob s1)).[(mcstrt_ (e_prob s1)).[j]])).
Proof.
  split; [|split].
  - intros prob next fill_level. rewrite presolve_calls.
    destruct (_ =? -1); simpl; lia.
  - intros prob next fill_level row Hrow look w s0 e.
    rewrite presolve_calls in Hrow. fold look w e in Hrow.
    destruct (Z.eqb_spec (e_isolated_row e) (-1)) as [|Hne];
      [by apply elem_of_nil in Hrow|].
    apply list_elem_of_singleton in Hrow. subst row.
    unfold e, eliminate_singletons in *. fold s0 in Hne |- *.
    destruct (for_break eliminate_column s0 look) as [s' [r|]] eqn:Hloop.
    + destruct (for_break_Some _ _ _ _ _ Hloop)
        as (l1 & j & l2 & s1 & Hl & Hl1 & Hj).
      destruct (eliminate_column_break _ _ _ _ Hj) as (Hn & Hm & Hr & Hiso & ->).
      exists l1, j, l2, s1. simpl. subst r. by repeat split.
    + apply eliminate_loop_continue in Hloop. simpl in Hne. by rewrite Hloop in Hne.
  - intros s l1 j l2 s1 Hl1 Hn Hm Hiso.
    eapply for_break_stop; [exact Hl1|].
    by apply eliminate_column_isolated.
Qed.

(** C9.  The pass does not write the declared column bounds: the problem
    the two loops leave, on which the collaborators are invoked, has the
    arrays [clo_] and [cup_] of the problem on entry; so has the problem the
    pass returns, provided the two collaborators, which this file does not
    implement, leave them alone. *)
Theorem presolve_keeps_column_bounds (prob : problem)
  (next : list presolve_action) (fill_level : Z) :
  (let look := look_list prob fill_level in
   let w := (scan prob look (work_init prob)).1 in
   let e := eliminate_singletons look (with_status prob w) (implied_free w) in
   clo_ (e_prob e) = clo_ prob ∧ cup_ (e_prob e) = cup_ prob)
  ∧ ((∀ p row n,
        clo_ (isolated_constraint_action_presolve p row n).1 = clo_ p
        ∧ cup_ (isolated_constraint_action_presolve p row n).1 = cup_ p) →
     (∀ p marks n f,
        clo_ (subst_constraint_action_presolve p marks n f).1.1 = clo_ p
        ∧ cup_ (subst_constraint_action_presolve p marks n f).1.1 = cup_ p) →
     clo_ (r_prob (presolve prob next fill_level)) = clo_ prob
     ∧ cup_ (r_prob (presolve prob next fill_level)) = cup_ prob).
Proof.
  assert (∀ look w marks,
    clo_ (e_prob (eliminate_singletons look (with_status prob w) marks))
      = clo_ prob
    ∧ cup_ (e_prob (eliminate_singletons look (with_status prob w) marks))
      = cup_ prob) as Hloops.
  { intros look w marks.
    destruct (untouched_eliminate_loop look
      {| e_prob := with_status prob w; e_implied_free := marks;
         e_actions := []; e_isolated_row := -1 |}) as (Hlo & Hup & _).
    by split. }
  split; [apply Hloops|].
  intros Hiso Hsubst. unfold presolve.
  set (look := look_list prob fill_level).
  set (w := (scan prob look (work_init prob)).1).
  set (e := eliminate_singletons look (with_status prob w) (implied_free w)).
  destruct (Hloops look w (implied_free w)) as [Hlo Hup]. fold e in Hlo, Hup.
  set (next1 := if negb (Z.of_nat (length (e_actions e)) =? 0)
                then implied_free_action (Z.of_nat (length (e_actions e)))
                       (e_actions e) :: next
                else next).
  assert (clo_ (hand_isolated_row e next1).1.1 = clo_ prob
          ∧ cup_ (hand_isolated_row e next1).1.1 = cup_ prob) as [Hlo2 Hup2].
  { unfold hand_isolated_row.
    destruct (negb (e_isolated_row e =? -1)); simpl; [|by split].
    specialize (Hiso (e_prob e) (e_isolated_row e) next1).
    destruct (isolated_constraint_action_presolve _ _ _) as [p' nextX].
    simpl in *. destruct Hiso. split; congruence. }
  destruct (hand_isolated_row e next1) as [[prob2 next2] calls2].
  simpl in Hlo2, Hup2.
  destruct (negb (fill_level =? 0)); simpl; [|done].
  specialize (Hsubst prob2 (e_implied_free e) next2 fill_level).
  destruct (subst_constraint_action_presolve _ _ _ _) as [[p3 n3] f3].
  simpl in *. destruct Hsubst. split; congruence.
Qed.

End PassFacts.

Lemma isolated_row_stops_elimination_witness :
  let P := isolated_row_problem in
  let w := (scan P (look_list P (-1)) (work_init P)).1 in
  let s0 := {| e_prob := with_status P w; e_implied_free := implied_free w;
               e_actions := []; e_isolated_row := -1 |} in
  (implied_free w).[0] = 0 ∧ (implied_free w).[2] = 1
  ∧ (∃ l1 j l2 s1,
       look_list P (-1) = l1 ++ j :: l2
       ∧ for_break eliminate_column s0 l1 = (s1, None)
       ∧ (hincol_ (e_prob s1)).[j] = 1
       ∧ 0 ≤ (e_implied_free s1).[j]
       ∧ 0 = (hrow_ (e_prob s1)).[(mcstrt_ (e_prob s1)).[j]]
       ∧ isolated (e_prob s1) 0 = true
       ∧ e_prob (eliminate_singletons (look_list P (-1)) (with_status P w)
                   (implied_free w)) = e_prob s1
       ∧ e_implied_free (eliminate_singletons (look_list P (-1))
                   (with_status P w) (implied_free w)) = e_implied_free s1
       ∧ e_actions (eliminate_singletons (look_list P (-1)) (with_status P w)
                   (implied_free w)) = e_actions s1)
  ∧ for_break eliminate_column s0 ([] ++ 0 :: [1; 2; 3; 4])
    = ({| e_prob := e_prob s0; e_implied_free := e_implied_free s0;
          e_actions := e_actions s0;
          e_isolated_row := (hrow_ (e_prob s0)).[(mcstrt_ (e_prob s0)).[0]] |},
       Some (hrow_ (e_prob s0)).[(mcstrt_ (e_prob s0)).[0]]).
Proof.
  intros P w s0. split; [vm_refl|]. split; [vm_refl|]. split.
  - apply (proj1 (proj2 (@isolated_row_stops_elimination
                           Qc_num Qc_helpers Qc_collaborators)) P [] (-1) 0).
    assert (rows_handed (r_calls (@presolve _ _ Qc_collaborators P [] (-1)))
            = [0]) as -> by vm_refl.
    constructor.
  - apply (proj2 (proj2 (@isolated_row_stops_elimination
                           Qc_num Qc_helpers Qc_collaborators))).
    + reflexivity.
    + vm_refl.
    + vm_compute. discriminate.
    + vm_refl.
Defined.

Lemma presolve_keeps_column_bounds_witness :
  clo_ (r_prob (@presolve _ _ Qc_collaborators singleton_problem [] 1))
  = clo_ singleton_problem
  ∧ cup_ (r_prob (@presolve _ _ Qc_collaborators singleton_problem [] 1))
  = cup_ singleton_problem.
Proof.
  apply (proj2 (@presolve_keeps_column_bounds
                  Qc_num Qc_helpers Qc_collaborators singleton_problem [] 1)).
  - intros p row n. split; reflexivity.
  - intros p marks n f. split; reflexivity.
Defined.

(** ** Marks and give-up tags in the first loop *)

Section MarkFacts.
Context `{Helpers}.
Variable prob : problem.

(** Computing a row writes no mark, and changes the tag of no row but that
    one. *)
Lemma compute_row_marks w row :
  implied_free (compute_row prob w row).1 = implied_free w.
Proof.
  unfold compute_row. by destruct (classify prob row (row_activity prob row)).
Qed.

Lemma compute_row_other_tag w row row' :
  row ≠ row' →
  (infiniteUp (compute_row prob w row).1).[row'] = (infiniteUp w).[row'].
Proof.
  intros Hne. unfold compute_row.
  destruct (classify prob row (row_activity prob row)); simpl;
    by apply aget_aset_ne.
Qed.

Lemma walk_step_marks j s k :
  implied_free (walk_step prob j s k).1.1.1 = implied_free s.1.1.
Proof.
  destruct s as [[w low0] high0]; simpl.
  destruct (nabs _ >? ZTOLDP)%num; [|done].
  destruct (Z.eqb_spec (infiniteUp w).[(hrow_ prob).[k]] (-1)) as [Hu|Hu].
  - pose proof (compute_row_marks w (hrow_ prob).[k]) as Hm.
    destruct (compute_row prob w (hrow_ prob).[k]) as [w1 broke]; simpl in Hm.
    destruct broke; [done|].
    destruct (0 <=? _); [done|]. by destruct (_ =? -3).
  - destruct (0 <=? _); [done|]. by destruct (_ =? -3).
Qed.

Lemma walk_marks j w : implied_free (walk prob j w).1.1.1 = implied_free w.
Proof.
  unfold walk.
  apply (for_break_invariant (λ s, implied_free s.1.1 = implied_free w));
    [|done].
  intros s k Hs. by rewrite walk_step_marks.
Qed.

(** A row tagged [-3] stays tagged [-3] through the walk. *)
Lemma walk_step_given_up j s k row :
  (infiniteUp s.1.1).[row] = -3 →
  (infiniteUp (walk_step prob j s k).1.1.1).[row] = -3.
Proof.
  destruct s as [[w low0] high0]; simpl. intros Hrow.
  destruct (nabs _ >? ZTOLDP)%num; [|done].
  destruct (Z.eqb_spec (infiniteUp w).[(hrow_ prob).[k]] (-1)) as [Hu|Hu].
  - assert ((hrow_ prob).[k] ≠ row) as Hne
      by (intros Heq; rewrite Heq in Hu; lia).
    pose proof (compute_row_other_tag w _ _ Hne) as Hm. rewrite Hrow in Hm.
    destruct (compute_row prob w (hrow_ prob).[k]) as [w1 broke]; simpl in Hm.
    destruct broke; [done|].
    destruct (0 <=? _); [done|]. by destruct (_ =? -3).
  - destruct (0 <=? _); [done|]. by destruct (_ =? -3).
Qed.

(** An entry with a significant coefficient in a row tagged [-3] ends the
    walk with the range reset. *)
Lemma walk_step_give_up j w low0 high0 k :
  (nabs (colels_ prob).[k] >? ZTOLDP)%num = true →
  (infiniteUp w).[(hrow_ prob).[k]] = -3 →
  walk_step prob j (w, low0, high0) k
  = (w, (- COIN_DBL_MAX)%num, COIN_DBL_MAX, Some (GiveUp (hrow_ prob).[k])).
Proof.
  intros Hc Hu. unfold walk_step. rewrite Hc, Hu. simpl. by rewrite Hu.
Qed.

Lemma walk_reaches_given_up_row j l s k :
  k ∈ l →
  (nabs (colels_ prob).[k] >? ZTOLDP)%num = true →
  (infiniteUp s.1.1).[(hrow_ prob).[k]] = -3 →
  (for_break (walk_step prob j) s l).2 ≠ None.
Proof.
  intros Hk Hc. revert s. induction l as [|x l IH]; intros s Hu.
  - by apply elem_of_nil in Hk.
  - simpl. destruct (walk_step prob j s x) as [s1 [e|]] eqn:Hx; [done|].
    apply elem_of_cons in Hk as [->|Hk].
    + destruct s as [[w low0] high0].
      rewrite (walk_step_give_up j w low0 high0 x Hc Hu) in Hx. done.
    + apply (IH Hk).
      pose proof (walk_step_given_up j s x _ Hu) as Hs. by rewrite Hx in Hs.
Qed.

(** What a give-up exit leaves: the range reset, the row tagged. *)
Lemma walk_step_exit_give_up j s k s' row :
  walk_step prob j s k = (s', Some (GiveUp row)) →
  s'.1.2 = (- COIN_DBL_MAX)%num ∧ s'.2 = COIN_DBL_MAX
  ∧ (infiniteUp s'.1.1).[row] = -3.
Proof.
  destruct s as [[w low0] high0]; unfold walk_step.
  destruct (nabs _ >? ZTOLDP)%num; [|done].
  destruct (if (infiniteUp w).[(hrow_ prob).[k]] =? -1
            then compute_row prob w (hrow_ prob).[k] else (w, false))
    as [w1 broke].
  destruct broke; [done|].
  destruct (0 <=? _); [done|].
  destruct (Z.eqb_spec (infiniteUp w1).[(hrow_ prob).[k]] (-3)) as [Hu|]; [|done].
  by intros [= <- <-].
Qed.

Lemma walk_exit_give_up j w row :
  (walk prob j w).2 = Some (GiveUp row) →
  (walk prob j w).1.1.2 = (- COIN_DBL_MAX)%num
  ∧ (walk prob j w).1.2 = COIN_DBL_MAX
  ∧ (infiniteUp (walk prob j w).1.1.1).[row] = -3.
Proof.
  unfold walk. intros He.
  destruct (for_break _ _ _) as [s' e] eqn:Hw. simpl in He. subst e.
  destruct (for_break_Some _ _ _ _ _ Hw) as (l1 & x & l2 & s1 & _ & _ & Hx).
  by apply walk_step_exit_give_up in Hx.
Qed.

End MarkFacts.

(** ** Acceptance of a column in two or three rows *)

Section AcceptFacts.
Context `{Helpers}.
Variable prob : problem.

(** [scan_multi] with its intermediate results named. *)
Lemma scan_multi_eq j w :
  scan_multi prob j w
  = if (column_rows prob j).1.1 && negb (column_rows prob j).1.2 then
      if ((clo_ prob).[j] <=? (walk prob j w).1.1.2)%num
         && ((walk prob j w).1.2 <=? (cup_ prob).[j])%num
      then
        if 0 <=? select_row prob j ((column_rows prob j).2 * lit_0_1)%num
        then mark_implied_free (walk prob j w).1.1.1 j
               (select_row prob j ((column_rows prob j).2 * lit_0_1)%num)
        else (walk prob j w).1.1.1
      else (walk prob j w).1.1.1
    else w.
Proof.
  unfold scan_multi.
  destruct (column_rows prob j) as [[possible singleton] largest]; simpl.
  destruct (possible && negb singleton); [|done].
  by destruct (walk prob j w) as [[[w1 low1] high1] e].
Qed.

(** The mark a column of two or three entries receives is the row the
    search of lines 376-389 returns, and it receives one only when none of
    its rows is a singleton row. *)
Lemma marked_row_is_selected j w :
  0 ≤ j < Z.of_nat (length (implied_free w)) →
  (implied_free w).[j] = -1 →
  0 ≤ (implied_free (scan_multi prob j w)).[j] →
  (column_rows prob j).1.2 = false
  ∧ (implied_free (scan_multi prob j w)).[j]
    = select_row prob j ((column_rows prob j).2 * lit_0_1)%num.
Proof.
  intros Hj Hm. rewrite scan_multi_eq.
  pose proof (walk_marks prob j w) as Hw.
  destruct ((column_rows prob j).1.1 && negb (column_rows prob j).1.2) eqn:Hpre;
    [|rewrite Hm; lia].
  apply andb_true_iff in Hpre as [_ Hsing]. apply negb_true_iff in Hsing.
  destruct (_ && _); [|rewrite Hw, Hm; lia].
  destruct (0 <=? _); [|rewrite Hw, Hm; lia].
  intros _. split; [done|].
  unfold mark_implied_free; simpl. rewrite Hw. by apply aget_aset_eq.
Qed.

(** C1, as amended.  For a column in two or three rows: an entry with a
    significant coefficient in a row already tagged [-3] ends the walk
    early, on a give-up or on an infeasible row.  When the walk ends on a
    give-up row, that row is tagged [-3], the implied range is reset to
    [[-COIN_DBL_MAX, COIN_DBL_MAX]], and the column is marked in that step
    only if its declared bounds span that range:
    [clo[j] <= -COIN_DBL_MAX] and [COIN_DBL_MAX <= cup[j]].  A singleton
    column whose row is tagged [-3] is passed over, and one whose row is
    found infeasible is not marked. *)
Theorem give_up_marks_only_free_column :
  (∀ j w k,
     k ∈ range (mcstrt_ prob).[j] (hincol_ prob).[j] →
     (nabs (colels_ prob).[k] >? ZTOLDP)%num = true →
     (infiniteUp w).[(hrow_ prob).[k]] = -3 →
     (∃ row, (walk prob j w).2 = Some (GiveUp row))
     ∨ (∃ row, (walk prob j w).2 = Some (RowInfeasible row)))
  ∧ (∀ j w row,
     (walk prob j w).2 = Some (GiveUp row) →
     (infiniteUp (walk prob j w).1.1.1).[row] = -3
     ∧ (walk prob j w).1.1.2 = (- COIN_DBL_MAX)%num
     ∧ (walk prob j w).1.2 = COIN_DBL_MAX
     ∧ (((clo_ prob).[j] <=? - COIN_DBL_MAX)%num
        && (COIN_DBL_MAX <=? (cup_ prob).[j])%num = false →
        implied_free (scan_multi prob j w) = implied_free w))
  ∧ (∀ j w,
     (infiniteUp w).[(hrow_ prob).[(mcstrt_ prob).[j]]] = -3 →
     scan_singleton prob j w = (w, None))
  ∧ (∀ j w w' row,
     scan_singleton prob j w = (w', Some row) →
     implied_free w' = implied_free w).
Proof.
  split; [|split; [|split]].
  - intros j w k Hk Hc Hu.
    pose proof (walk_reaches_given_up_row prob j _
                  (w, (- COIN_DBL_MAX)%num, COIN_DBL_MAX) k Hk Hc Hu) as Hne.
    fold (walk prob j w) in Hne.
    destruct (walk prob j w).2 as [[row|row]|]; [right|left|done]; by exists row.
  - intros j w row He.
    destruct (walk_exit_give_up prob j w row He) as (Hlow & Hhigh & Hu).
    split; [exact Hu|]. split; [exact Hlow|]. split; [exact Hhigh|].
    intros Hfree. rewrite scan_multi_eq, Hlow, Hhigh, Hfree.
    destruct ((column_rows prob j).1.1 && negb (column_rows prob j).1.2);
      [apply walk_marks|done].
  - intros j w Hu. unfold scan_singleton, singleton_candidate.
    rewrite Hu. simpl. by rewrite andb_false_r.
  - intros j w w' row. unfold scan_singleton.
    destruct (singleton_candidate prob j w); [|done].
    destruct (singleton_bounds prob j) as [[[maxup maxdown] ilow] iup].
    destruct (_ && _); [by intros [= <- _]|].
    destruct (_ && _); [by intros [= <- _]|].
    by destruct (_ && _).
Qed.

(** C3, as amended.  A column in two or three rows that is not integer and
    passes the preconditions of line 142 (an equality row holds it with a
    coefficient above [ZTOLDP], none of its rows is a singleton row) is
    marked implied free if and only if [clo[j] <= low] and [high <= cup[j]],
    the range the rows imply lying within the declared bounds, and the
    search of lines 376-389 finds a defining row; the mark is that row. *)
Theorem accepted_iff_implied_within_declared j w :
  1 < (hincol_ prob).[j] ≤ 3 →
  (integerType_ prob).[j] = false →
  (column_rows prob j).1.1 = true →
  (column_rows prob j).1.2 = false →
  0 ≤ j < Z.of_nat (length (implied_free w)) →
  (implied_free w).[j] = -1 →
  (0 ≤ (implied_free (scan_column prob w j).1).[j]
   ↔ ((clo_ prob).[j] <=? (walk prob j w).1.1.2)%num = true
     ∧ ((walk prob j w).1.2 <=? (cup_ prob).[j])%num = true
     ∧ 0 ≤ select_row prob j ((column_rows prob j).2 * lit_0_1)%num)
  ∧ (0 ≤ (implied_free (scan_column prob w j).1).[j] →
     (implied_free (scan_column prob w j).1).[j]
     = select_row prob j ((column_rows prob j).2 * lit_0_1)%num).
Proof.
  intros Hn Hi Hp Hs Hj Hm.
  rewrite (scan_column_multi prob w j Hn Hi). simpl.
  rewrite scan_multi_eq, Hp, Hs. simpl.
  pose proof (walk_marks prob j w) as Hw.
  set (krow := select_row prob j ((column_rows prob j).2 * lit_0_1)%num).
  assert ((implied_free (mark_implied_free (walk prob j w).1.1.1 j krow)).[j]
          = krow) as Hmark.
  { unfold mark_implied_free; simpl. rewrite Hw. by apply aget_aset_eq. }
  destruct ((clo_ prob).[j] <=? (walk prob j w).1.1.2)%num; simpl;
    [|rewrite Hw, Hm; split; [split; [lia|by intros [? _]]|lia]].
  destruct ((walk prob j w).1.2 <=? (cup_ prob).[j])%num; simpl;
    [|rewrite Hw, Hm; split; [split; [lia|by intros (_ & ? & _)]|lia]].
  destruct (Z.leb_spec 0 krow) as [Hk|Hk].
  - rewrite Hmark. split; [split; [done|by intros _]|done].
  - rewrite Hw, Hm. split; [split; [lia|intros (_ & _ & ?); lia]|lia].
Qed.

End AcceptFacts.

(** C1 as stated fails.  In [free_column_problem] the walk over the rows of
    the free column 0 gives up on row 1, which the redundancy test tags
    [-3]; the column, unmarked before, is marked with row 0 all the same:
    its declared bounds are already [-COIN_DBL_MAX] and [COIN_DBL_MAX]. *)
Lemma give_up_row_column_marked :
  let P := free_column_problem in
  (walk P 0 (work_init P)).2 = Some (GiveUp 1)
  ∧ (infiniteUp (walk P 0 (work_init P)).1.1.1).[1] = -3
  ∧ (implied_free (work_init P)).[0] = -1
  ∧ (implied_free (scan P (look_list P (-1)) (work_init P)).1).[0] = 0.
Proof. intros P. repeat split; vm_refl. Qed.

(** An infeasible row, unlike a give-up row, ends the walk without
    resetting the range (lines 205 and 216): in
    [unreachable_after_implied_problem] row 0 has implied [2 <= x0 <= 5]
    when row 1 is found unreachable, the flag is raised, and column 0 is
    marked with row 0. *)
Lemma infeasible_row_column_marked :
  let P := unreachable_after_implied_problem in
  (walk P 0 (work_init P)).2 = Some (RowInfeasible 1)
  ∧ this (walk P 0 (work_init P)).1.1.2 = 2%Q
  ∧ this (walk P 0 (work_init P)).1.2 = 5%Q
  ∧ status (scan_multi P 0 (work_init P)) = 1
  ∧ (implied_free (scan_multi P 0 (work_init P))).[0] = 0.
Proof. intros P. repeat split; vm_refl. Qed.

Lemma give_up_marks_only_free_column_witness :
  let S := shared_row_problem in
  let wS := (scan S [0] (work_init S)).1 in
  let B := bounded_column_problem in
  ((∃ row, (walk S 1 wS).2 = Some (GiveUp row))
   ∨ (∃ row, (walk S 1 wS).2 = Some (RowInfeasible row)))
  ∧ (infiniteUp (walk B 0 (work_init B)).1.1.1).[1] = -3
  ∧ implied_free (scan_multi B 0 (work_init B)) = implied_free (work_init B)
  ∧ scan_singleton S 2 (mark_implied_free wS 1 1) = (mark_implied_free wS 1 1, None).
Proof.
  intros S wS B. split; [|split; [|split]].
  - apply (proj1 (give_up_marks_only_free_column S) 1 wS 2); [|vm_refl..].
    assert (range (mcstrt_ S).[1] (hincol_ S).[1] = [2; 3]) as -> by vm_refl.
    constructor.
  - apply (proj1 (proj2 (give_up_marks_only_free_column B)) 0 (work_init B) 1).
    vm_refl.
  - apply (proj1 (proj2 (give_up_marks_only_free_column B)) 0 (work_init B) 1);
      vm_refl.
  - apply (proj1 (proj2 (proj2 (give_up_marks_only_free_column S)))). vm_refl.
Defined.

(** C3 as stated fails.  In [tightened_column_problem] the rows of column 0
    imply [low = 2] and [high = 4]; its declared bounds are 0 and 10.  The
    column is marked implied free, although neither [clo >= low] nor
    [cup <= high] holds. *)
Lemma accepted_with_declared_bounds_outside :
  let P := tightened_column_problem in
  this (walk P 0 (work_init P)).1.1.2 = 2%Q
  ∧ this (walk P 0 (work_init P)).1.2 = 4%Q
  ∧ this (clo_ P).[0] = 0%Q
  ∧ this (cup_ P).[0] = 10%Q
  ∧ (implied_free (work_init P)).[0] = -1
  ∧ (implied_free (scan_column P (work_init P) 0).1).[0] = 0
  ∧ ((walk P 0 (work_init P)).1.1.2 <=? (clo_ P).[0])%num = false
  ∧ ((cup_ P).[0] <=? (walk P 0 (work_init P)).1.2)%num = false.
Proof. intros P. repeat split; vm_refl. Qed.

Lemma accepted_iff_implied_within_declared_witness :
  let P := tightened_column_problem in
  let w := work_init P in
  (0 ≤ (implied_free (scan_column P w 0).1).[0]
   ↔ ((clo_ P).[0] <=? (walk P 0 w).1.1.2)%num = true
     ∧ ((walk P 0 w).1.2 <=? (cup_ P).[0])%num = true
     ∧ 0 ≤ select_row P 0 ((column_rows P 0).2 * lit_0_1)%num)
  ∧ (0 ≤ (implied_free (scan_column P w 0).1).[0] →
     (implied_free (scan_column P w 0).1).[0]
     = select_row P 0 ((column_rows P 0).2 * lit_0_1)%num).
Proof.
  intros P w. apply (accepted_iff_implied_within_declared P 0 w).
  - split; vm_compute; [reflexivity|discriminate].
  - vm_refl.
  - vm_refl.
  - vm_refl.
  - split; vm_compute; [discriminate|reflexivity].
  - vm_refl.
Defined.

(** C6 fails on the code.  In [shared_row_problem] column 0 takes row 0 as
    its defining row and tags it [-3]; column 1, visited next, is free, so
    the reset range still passes the acceptance test, and the search of
    lines 376-389, which does not look at the tag, takes row 0 again. *)
Lemma consumed_row_selected_again :
  let P := shared_row_problem in
  let w1 := (scan P [0] (work_init P)).1 in
  (implied_free w1).[0] = 0
  ∧ (infiniteUp w1).[0] = -3
  ∧ (implied_free w1).[1] = -1
  ∧ (walk P 1 w1).2 = Some (GiveUp 0)
  ∧ (implied_free (scan P [0; 1] (work_init P)).1).[1] = 0.
Proof. intros P w1. repeat split; vm_refl. Qed.

(** The same problem in IEEE binary64: after columns 0 and 1 both are marked
    with row 0. *)
Lemma consumed_row_selected_again_binary64 :
  let P := shared_row_problem_binary64 in
  implied_free (scan P [0; 1] (work_init P)).1 = [0; 0; -1].
Proof. intros P. vm_refl. Qed.

(** ** Exact arithmetic *)

Lemma Qcleb_le (a b : Qc) : Qcleb a b = true ↔ (a <= b)%Qc.
Proof. unfold Qcleb, Qcle. apply Qle_bool_iff. Qed.

Lemma Qcltb_lt (a b : Qc) : Qcltb a b = true ↔ (a < b)%Qc.
Proof.
  unfold Qcltb, Qclt. rewrite negb_true_iff. split.
  - intros Hb. apply Qnot_le_lt. intros Hle.
    apply Qle_bool_iff in Hle. congruence.
  - intros Hlt. destruct (Qle_bool (this b) (this a)) eqn:Hb; [|done].
    apply Qle_bool_iff in Hb. by apply Qlt_not_le in Hlt.
Qed.

Lemma Qcltb_ge (a b : Qc) : Qcltb a b = false ↔ (b <= a)%Qc.
Proof.
  unfold Qcltb. rewrite negb_false_iff. apply Qcleb_le.
Qed.

Lemma Qcleb_gt (a b : Qc) : Qcleb a b = false ↔ (b < a)%Qc.
Proof.
  rewrite <- Qcltb_lt. unfold Qcltb. by rewrite negb_true_iff.
Qed.

Lemma Qcabs_nonneg (a : Qc) : (0 <= Qcabs a)%Qc.
Proof.
  unfold Qcabs. destruct (Qcleb 0%Qc a) eqn:Ha.
  - by apply Qcleb_le.
  - apply Qcleb_gt, Qclt_le_weak, Qcopp_le_compat in Ha.
    by replace (- 0)%Qc with 0%Qc in Ha by ring.
Qed.

(** [max] in exact arithmetic is the larger of the two. *)
Lemma nmax_Qc (a b : @num Qc_num) :
  (a <= nmax a b)%Qc ∧ (b <= nmax a b)%Qc ∧ (nmax a b = a ∨ nmax a b = b).
Proof.
  unfold nmax. simpl. destruct (Qcltb a b) eqn:Hab.
  - apply Qcltb_lt in Hab. split; [by apply Qclt_le_weak|].
    split; [apply Qcle_refl|by right].
  - apply Qcltb_ge in Hab. split; [apply Qcle_refl|]. split; [done|by left].
Qed.

(** A [foldl] keeps an invariant that speaks of the elements seen so far. *)
Lemma foldl_seen {S X} (I : S → list X → Prop) (body : S → X → S) s0 :
  I s0 [] →
  (∀ s seen x, I s seen → I (body s x) (seen ++ [x])) →
  ∀ l, I (foldl body s0 l) l.
Proof.
  intros H0 Hstep l. induction l as [|x l IH] using rev_ind; [done|].
  rewrite foldl_app. simpl. by apply Hstep.
Qed.

(** ** The defining row *)

Section SelectFacts.
Context `{Helpers}.
Variable prob : problem.

(** The search keeps the first row of least [hinrow] among the entries that
    pass both conditions, or [-1] and [ncols + 1] while it has none below
    [ncols + 1]. *)
Lemma select_row_spec threshold l :
  let r := foldl (select_step prob threshold) (-1, ncols_ prob + 1) l in
  (∀ k, k ∈ l → equality_entry prob k = true → significant_entry prob threshold k = true →
        r.2 ≤ (hinrow_ prob).[(hrow_ prob).[k]])
  ∧ (r = (-1, ncols_ prob + 1)
     ∨ ∃ k, k ∈ l ∧ equality_entry prob k = true
            ∧ significant_entry prob threshold k = true
            ∧ r.1 = (hrow_ prob).[k]
            ∧ r.2 = (hinrow_ prob).[(hrow_ prob).[k]]).
Proof.
  apply (foldl_seen (λ r seen,
    (∀ k, k ∈ seen → equality_entry prob k = true →
          significant_entry prob threshold k = true →
          r.2 ≤ (hinrow_ prob).[(hrow_ prob).[k]])
    ∧ (r = (-1, ncols_ prob + 1)
       ∨ ∃ k, k ∈ seen ∧ equality_entry prob k = true
              ∧ significant_entry prob threshold k = true
              ∧ r.1 = (hrow_ prob).[k]
              ∧ r.2 = (hinrow_ prob).[(hrow_ prob).[k]]))).
  { split; [intros k Hk; by apply elem_of_nil in Hk|by left]. }
  intros [krow ninrow] seen x [Hmin Hsel]. unfold select_step.
  fold (equality_entry prob x). fold (significant_entry prob threshold x).
  assert (∀ r' : Z * Z,
    (r'.2 ≤ ninrow) →
    (equality_entry prob x = true → significant_entry prob threshold x = true →
     r'.2 ≤ (hinrow_ prob).[(hrow_ prob).[x]]) →
    ∀ k, k ∈ seen ++ [x] → equality_entry prob k = true →
         significant_entry prob threshold k = true →
         r'.2 ≤ (hinrow_ prob).[(hrow_ prob).[k]]) as Hnew.
  { intros r' Hle Hx k Hk He Hs.
    apply elem_of_app in Hk as [Hk|Hk].
    - specialize (Hmin k Hk He Hs). simpl in Hmin. lia.
    - apply list_elem_of_singleton in Hk. subst k. by apply Hx. }
  assert (∀ k, k ∈ seen → k ∈ seen ++ [x]) as Hin
    by (intros k Hk; apply elem_of_app; by left).
  assert (x ∈ seen ++ [x]) as Hx
    by (apply elem_of_app; right; by apply list_elem_of_singleton).
  destruct (equality_entry prob x) eqn:He; simpl;
    [destruct (significant_entry prob threshold x) eqn:Hs; simpl|].
  - destruct (Z.ltb_spec (hinrow_ prob).[(hrow_ prob).[x]] ninrow) as [Hlt|Hge].
    + split.
      * apply (Hnew ((hrow_ prob).[x], (hinrow_ prob).[(hrow_ prob).[x]]));
          simpl; [lia|done].
      * right. by exists x.
    + split.
      * apply (Hnew (krow, ninrow)); simpl; [lia|done].
      * destruct Hsel as [Hsel|(k & Hk & Hsel)]; [by left|].
        right. exists k. split; [by apply Hin|exact Hsel].
  - split.
    + apply (Hnew (krow, ninrow)); simpl; [lia|done].
    + destruct Hsel as [Hsel|(k & Hk & Hsel)]; [by left|].
      right. exists k. split; [by apply Hin|exact Hsel].
  - split.
    + apply (Hnew (krow, ninrow)); simpl; [lia|done].
    + destruct Hsel as [Hsel|(k & Hk & Hsel)]; [by left|].
      right. exists k. split; [by apply Hin|exact Hsel].
Qed.

Lemma select_row_min j threshold :
  select_row prob j threshold = -1
  ∨ ∃ k, k ∈ range (mcstrt_ prob).[j] (hincol_ prob).[j]
      ∧ equality_entry prob k = true
      ∧ significant_entry prob threshold k = true
      ∧ select_row prob j threshold = (hrow_ prob).[k]
      ∧ ∀ k', k' ∈ range (mcstrt_ prob).[j] (hincol_ prob).[j] →
          equality_entry prob k' = true → significant_entry prob threshold k' = true →
          (hinrow_ prob).[(hrow_ prob).[k]] ≤ (hinrow_ prob).[(hrow_ prob).[k']].
Proof.
  unfold select_row.
  destruct (select_row_spec threshold (range (mcstrt_ prob).[j] (hincol_ prob).[j]))
    as [Hmin [Hsel|(k & Hk & He & Hs & Hr1 & Hr2)]].
  - left. by rewrite Hsel.
  - right. exists k. repeat split; try done.
    intros k' Hk' He' Hs'. rewrite <- Hr2. by apply Hmin.
Qed.

End SelectFacts.

Section DefiningRow.
Context `{Helpers}.
Variable prob : problem.

Lemma ordered_subseteq (S S' : list num) :
  S' ⊆ S → ordered S → ordered S'.
Proof.
  intros Hsub (Hr & Ht & Htr & Hz).
  split; [|split; [|split]].
  - intros a Ha. apply Hr. by apply Hsub.
  - intros a b Ha Hb. apply Ht; by apply Hsub.
  - intros a b c Ha Hb Hc. apply Htr; by apply Hsub.
  - intros a Ha. apply Hz. by apply Hsub.
Qed.

(** While no row of the column is a singleton row, [largestElement] is 0 or
    the magnitude of a coefficient seen, and no magnitude seen is above
    it. *)
Lemma column_rows_largest l :
  ordered (lit_0 :: magnitudes prob l) →
  let r := foldl (column_rows_step prob) (false, false, lit_0) l in
  r.1.2 = false →
  r.2 ∈ lit_0 :: magnitudes prob l
  ∧ ∀ k, k ∈ l → (nabs (colels_ prob).[k] <=? r.2)%num = true.
Proof.
  induction l as [|x l IH] using rev_ind; intros Hord.
  - intros r _. split; [by left|]. intros k Hk. by apply elem_of_nil in Hk.
  - rewrite foldl_snoc. unfold magnitudes in *. rewrite fmap_app in Hord.
    cbn [fmap list_fmap] in Hord.
    assert (ordered (lit_0 :: ((λ k, nabs (colels_ prob).[k]) <$> l)))
      as Hord'.
    { apply (ordered_subseteq
               (lit_0 :: ((λ k, nabs (colels_ prob).[k]) <$> l)
                ++ [nabs (colels_ prob).[x]])); [|done].
      intros a Ha. apply elem_of_cons in Ha as [->|Ha]; [by left|].
      right. apply elem_of_app. by left. }
    specialize (IH Hord').
    destruct (foldl (column_rows_step prob) (false, false, lit_0) l)
      as [[possible singleton] largest] eqn:Hf.
    cbn [fst snd] in IH. unfold column_rows_step.
    destruct (1 <? _); [|done]. cbn [fst snd]. intros Hs.
    destruct (IH Hs) as [Hin Hall].
    destruct Hord as (Hr & Ht & Htr & _).
    set (m := nabs (colels_ prob).[x]) in *.
    assert (m ∈ lit_0 :: ((λ k, nabs (colels_ prob).[k]) <$> l) ++ [m]) as Hm.
    { right. apply elem_of_app. right. by left. }
    assert (largest ∈ lit_0 :: ((λ k, nabs (colels_ prob).[k]) <$> l) ++ [m])
      as Hl.
    { apply elem_of_cons in Hin as [->|Hin]; [by left|].
      right. apply elem_of_app. by left. }
    rewrite fmap_app. cbn [fmap list_fmap]. fold m.
    unfold nmax. destruct (largest <? m)%num eqn:Hlt.
    + split; [done|]. intros k Hk. apply elem_of_app in Hk as [Hk|Hk].
      * apply (Htr _ largest); [|done|done|by apply Hall|done].
        right. apply elem_of_app. left. apply list_elem_of_fmap. by exists k.
      * apply list_elem_of_singleton in Hk as ->. by apply Hr.
    + split; [done|]. intros k Hk. apply elem_of_app in Hk as [Hk|Hk].
      * by apply Hall.
      * apply list_elem_of_singleton in Hk as ->. by apply Ht.
Qed.

Lemma column_largest j :
  magnitudes_ordered prob j →
  0 < (hincol_ prob).[j] →
  (column_rows prob j).1.2 = false →
  (∀ k, k ∈ range (mcstrt_ prob).[j] (hincol_ prob).[j] →
        (nabs (colels_ prob).[k] <=? (column_rows prob j).2)%num = true)
  ∧ ∃ k, k ∈ range (mcstrt_ prob).[j] (hincol_ prob).[j]
       ∧ (column_rows prob j).2 = nabs (colels_ prob).[k].
Proof.
  intros Hord Hn Hs.
  destruct (column_rows_largest _ Hord Hs) as [Hin Hall].
  split; [done|].
  apply elem_of_cons in Hin as [Hz|Hin].
  - exists (mcstrt_ prob).[j].
    assert ((mcstrt_ prob).[j] ∈ range (mcstrt_ prob).[j] (hincol_ prob).[j])
      as Hk by (apply elem_of_seqZ; lia).
    split; [done|]. destruct Hord as (_ & _ & _ & Hzero).
    fold (column_rows prob j) in Hz. rewrite Hz. symmetry. apply Hzero.
    + right. apply list_elem_of_fmap. by eexists.
    + rewrite <- Hz. by apply Hall.
  - apply list_elem_of_fmap in Hin as (k & Hk1 & Hk2). by exists k.
Qed.

(** C5.  When a column of two or three entries is marked implied free, the
    row it is marked with is the row of an entry of the column in an
    equality row ([|rlo - rup| < tol]) whose coefficient magnitude exceeds
    [L * 0.1], the product line 376 computes in [double] from [L], the
    largest coefficient magnitude of the column; and no entry of the
    column with these two properties lies in a row with fewer nonzeros.
    A coefficient whose magnitude equals the product is not above it.  The
    magnitudes of the column are ordered as numbers are, which excludes
    NaN. *)
Theorem defining_row_is_smallest j w :
  1 < (hincol_ prob).[j] ≤ 3 →
  (integerType_ prob).[j] = false →
  0 ≤ j < Z.of_nat (length (implied_free w)) →
  (implied_free w).[j] = -1 →
  magnitudes_ordered prob j →
  0 ≤ (implied_free (scan_column prob w j).1).[j] →
  let krow := (implied_free (scan_column prob w j).1).[j] in
  let entries := range (mcstrt_ prob).[j] (hincol_ prob).[j] in
  ∃ L : num,
    (∀ k, k ∈ entries → (nabs (colels_ prob).[k] <=? L)%num = true)
    ∧ (∃ k, k ∈ entries ∧ L = nabs (colels_ prob).[k])
    ∧ (∃ k, k ∈ entries ∧ (hrow_ prob).[k] = krow
            ∧ (nabs ((rlo_ prob).[krow] - (rup_ prob).[krow])
               <? feasibilityTolerance_ prob)%num = true
            ∧ (nabs (colels_ prob).[k] >? L * lit_0_1)%num = true)
    ∧ (∀ k, k ∈ entries →
         (nabs ((rlo_ prob).[(hrow_ prob).[k]] - (rup_ prob).[(hrow_ prob).[k]])
          <? feasibilityTolerance_ prob)%num = true →
         (nabs (colels_ prob).[k] >? L * lit_0_1)%num = true →
         (hinrow_ prob).[krow] ≤ (hinrow_ prob).[(hrow_ prob).[k]]).
Proof.
  intros Hn Hi Hj Hm Hord Hacc krow entries.
  assert (Hacc' := Hacc).
  rewrite (scan_column_multi prob w j Hn Hi) in Hacc'. simpl in Hacc'.
  destruct (marked_row_is_selected prob j w Hj Hm Hacc') as [Hsing Hval].
  set (L := (column_rows prob j).2) in *.
  assert (krow = select_row prob j (L * lit_0_1)%num ∧ 0 ≤ krow) as [Hkrow Hk0].
  { split; [|done]. unfold krow.
    by rewrite (scan_column_multi prob w j Hn Hi). }
  destruct (column_largest j Hord ltac:(lia) Hsing) as (Hall & Hex).
  fold L in Hall, Hex. fold entries in Hall, Hex.
  exists L. split; [done|]. split; [done|].
  destruct (select_row_min prob j (L * lit_0_1)%num)
    as [Hsel|(k & Hk & He & Hs & Hr1 & Hmin)]; [lia|].
  rewrite <- Hkrow in Hr1. split.
  - exists k. split; [done|]. split; [done|].
    unfold equality_entry in He. rewrite <- Hr1 in He. by split.
  - intros k' Hk' He' Hs'. rewrite Hr1. by apply Hmin.
Qed.

End DefiningRow.

(** In exact arithmetic the magnitudes of every column are ordered. *)
Lemma magnitudes_ordered_exact (Hh : @Helpers Qc_num)
  (prob : @problem Qc_num Hh) (j : Z) : magnitudes_ordered prob j.
Proof.
  split; [|split; [|split]].
  - intros a _. apply Qcleb_le, Qcle_refl.
  - intros a b _ _ Hab. apply Qcleb_le. by apply Qcltb_ge.
  - intros a b c _ _ _ Hab Hbc. apply Qcleb_le in Hab. apply Qcltb_lt in Hbc.
    apply Qcleb_le, Qclt_le_weak. by eapply Qcle_lt_trans.
  - intros a Ha Hle. apply Qcleb_le in Hle.
    apply elem_of_cons in Ha as [->|Ha]; [done|].
    apply list_elem_of_fmap in Ha as (k & -> & _).
    apply Qcle_antisym; [done|apply Qcabs_nonneg].
Qed.

(** ** The tags of the rows through the first loop *)

Section TagFacts.
Context `{Helpers}.
Variable prob : problem.

Lemma activity_counts_nonneg row :
  0 ≤ infiniteUpper (row_activity prob row)
  ∧ 0 ≤ infiniteLower (row_activity prob row).
Proof.
  unfold row_activity.
  apply (foldl_invariant (λ a, 0 ≤ infiniteUpper a ∧ 0 ≤ infiniteLower a));
    [|by simpl].
  intros a kk [Hu Hl]. unfold activity_step.
  repeat (match goal with |- context [if ?c then _ else _] => destruct c end;
          simpl); lia.
Qed.

Lemma tags_sound_init : tags_sound prob (work_init prob).
Proof.
  intros row. unfold work_init; simpl. unfold aget at 1.
  destruct (row <? 0) eqn:Hneg; [done|].
  rewrite list_lookup_total_alt, list_lookup_fmap.
  destruct (range 0 (nrows_ prob) !! Z.to_nat row) as [x|] eqn:Hx; simpl; [|done].
  apply lookup_seqZ in Hx as [-> _].
  replace (0 + Z.of_nat (Z.to_nat row)) with row by lia.
  destruct (Z.ltb_spec 1 (hinrow_ prob).[row]); [done|lia].
Qed.

Lemma tags_sound_set w row v :
  v ≠ -2 → tags_sound prob w → tags_sound prob (set_infiniteUp w row v).
Proof.
  intros Hv Hw row'. unfold set_infiniteUp; simpl.
  destruct (aget_aset_cases (infiniteUp w) row row' v) as [-> | ->];
    [done|apply Hw].
Qed.

Lemma tags_sound_compute_row w row :
  tags_sound prob w → tags_sound prob (compute_row prob w row).1.
Proof.
  intros Hw. unfold compute_row.
  destruct (classify prob row (row_activity prob row)); simpl.
  - by apply tags_sound_set.
  - by apply tags_sound_set.
  - by apply tags_sound_set.
  - intros row'. unfold store_activity; simpl.
    destruct (aget_aset_cases (infiniteUp w) row row'
                (infiniteUpper (row_activity prob row))) as [-> | ->];
      [|apply Hw].
    pose proof (activity_counts_nonneg row). lia.
Qed.

Lemma tags_sound_walk_step j s k :
  tags_sound prob s.1.1 → tags_sound prob (walk_step prob j s k).1.1.1.
Proof.
  destruct s as [[w low0] high0]; simpl. intros Hw.
  destruct (nabs _ >? ZTOLDP)%num; [|done].
  assert (tags_sound prob
    (if (infiniteUp w).[(hrow_ prob).[k]] =? -1
     then compute_row prob w (hrow_ prob).[k] else (w, false)).1) as Hc.
  { destruct (_ =? -1); [by apply tags_sound_compute_row|done]. }
  destruct (if (infiniteUp w).[(hrow_ prob).[k]] =? -1
            then compute_row prob w (hrow_ prob).[k] else (w, false))
    as [w1 broke]; simpl in Hc.
  destruct broke; [done|].
  destruct (0 <=? _); [done|]. by destruct (_ =? -3).
Qed.

Lemma tags_sound_mark w j krow :
  tags_sound prob w → tags_sound prob (mark_implied_free w j krow).
Proof.
  intros Hw row'. unfold mark_implied_free; simpl.
  destruct (aget_aset_cases (infiniteUp w) krow row' (-3)) as [-> | ->];
    [done|apply Hw].
Qed.

Lemma tags_sound_scan_column w j :
  tags_sound prob w → tags_sound prob (scan_column prob w j).1.
Proof.
  intros Hw. unfold scan_column.
  destruct (_ && _); [|done].
  destruct (1 <? _).
  - simpl. rewrite scan_multi_eq.
    assert (tags_sound prob (walk prob j w).1.1.1) as Hk.
    { unfold walk.
      apply (for_break_invariant (λ s, tags_sound prob s.1.1)); [|done].
      intros s k. apply tags_sound_walk_step. }
    destruct (_ && _); [|done]. destruct (_ && _); [|done].
    destruct (0 <=? _); [|done]. by apply tags_sound_mark.
  - destruct (negb _); [|done]. unfold scan_singleton.
    destruct (singleton_candidate prob j w); [|done].
    destruct (singleton_bounds prob j) as [[[maxup maxdown] ilow] iup].
    destruct (_ && _); [done|]. destruct (_ && _); [done|].
    destruct (_ && _); [|done]. by apply tags_sound_mark.
Qed.

Lemma tags_sound_scan look w : tags_sound prob w → tags_sound prob (scan prob look w).1.
Proof.
  unfold scan. apply for_break_invariant.
  intros s x. apply tags_sound_scan_column.
Qed.

End TagFacts.

(** C8.  In exact arithmetic with a tolerance that is not negative: when
    the first loop, having scanned a part of the worklist, does anything at
    a singleton column (marks it, flags its row, or stops), then the
    column's cost is zero or its row is an equality row (its two bounds are
    equal, hence coincide within the tolerance), the row has more than one
    entry, the coefficient's magnitude exceeds [ZTOLDP], and the row is
    tagged neither [-3] nor [-2]; the column is not integer. *)
Theorem singleton_considered_only_if (Hh : @Helpers Qc_num)
  (prob : @problem Qc_num Hh) (look1 : list Z) (w : work) (j : Z) :
  (0 <= feasibilityTolerance_ prob)%Qc →
  scan prob look1 (work_init prob) = (w, None) →
  (hincol_ prob).[j] = 1 →
  scan_column prob w j ≠ (w, None) →
  let row := (hrow_ prob).[(mcstrt_ prob).[j]] in
  ((cost_ prob).[j] = 0%Qc
   ∨ ((rlo_ prob).[row] = (rup_ prob).[row]
      ∧ (nabs ((rlo_ prob).[row] - (rup_ prob).[row])%num
         <= feasibilityTolerance_ prob)%Qc))
  ∧ 1 < (hinrow_ prob).[row]
  ∧ (ZTOLDP < nabs (colels_ prob).[(mcstrt_ prob).[j]])%Qc
  ∧ (infiniteUp w).[row] ≠ -3
  ∧ (infiniteUp w).[row] ≠ -2
  ∧ (integerType_ prob).[j] = false.
Proof.
  intros Htol Hscan Hn Hdo row.
  assert (tags_sound prob w) as Htags.
  { pose proof (tags_sound_scan prob look1 _ (tags_sound_init prob)) as Ht.
    by rewrite Hscan in Ht. }
  unfold scan_column in Hdo. rewrite Hn in Hdo. simpl in Hdo.
  destruct (integerType_ prob).[j] eqn:Hi; [done|]. simpl in Hdo.
  unfold scan_singleton in Hdo.
  destruct (singleton_candidate prob j w) eqn:Hc; [|done]. clear Hdo.
  unfold singleton_candidate in Hc. fold row in Hc.
  apply andb_true_iff in Hc as [Hc Htag].
  apply andb_true_iff in Hc as [Hc Hcoef].
  apply andb_true_iff in Hc as [Hc Hhin].
  apply Z.ltb_lt in Hhin. apply negb_true_iff, Z.eqb_neq in Htag.
  split; [|split; [done|split; [by apply Qcltb_lt|split; [done|split; [|done]]]]].
  - apply orb_true_iff in Hc as [Hc|Hc].
    + left. by apply Qc_eq_bool_correct in Hc.
    + right. apply Qc_eq_bool_correct in Hc. split; [done|].
      rewrite Hc.
      assert (((rup_ prob).[row] - (rup_ prob).[row])%num = 0%Qc) as ->
        by (simpl; ring).
      exact Htol.
  - intros Hbad. apply Htags in Hbad. lia.
Qed.

Lemma singleton_considered_only_if_witness :
  let P := singleton_problem in
  let w := work_init P in
  ((cost_ P).[0] = 0%Qc
   ∨ ((rlo_ P).[0] = (rup_ P).[0]
      ∧ (nabs ((rlo_ P).[0] - (rup_ P).[0])%num <= feasibilityTolerance_ P)%Qc))
  ∧ 1 < (hinrow_ P).[0]
  ∧ (@ZTOLDP Qc_num Qc_helpers < nabs (colels_ P).[0])%Qc
  ∧ (infiniteUp w).[0] ≠ -3
  ∧ (infiniteUp w).[0] ≠ -2
  ∧ (integerType_ P).[0] = false.
Proof.
  intros P w.
  apply (singleton_considered_only_if Qc_helpers P [] w 0).
  - by apply Qcleb_le.
  - reflexivity.
  - vm_refl.
  - intros Heq. apply (f_equal (λ r, (implied_free r.1).[0])) in Heq.
    vm_compute in Heq. discriminate.
Defined.

(** The same data in the two arithmetics: the product [1 * 0.1] is the
    [double] nearest to 0.1, which the coefficient of row 1 equals and so
    does not exceed, and the column is marked with row 0; the exact product
    is [1/10], which the value of that [double] exceeds, and the column is
    marked with row 1. *)
Lemma rounded_product_decides :
  (implied_free
     (scan_column rounded_threshold_problem_binary64
        (work_init rounded_threshold_problem_binary64) 0).1).[0] = 0
  ∧ (implied_free
       (scan_column rounded_threshold_problem
          (work_init rounded_threshold_problem) 0).1).[0] = 1.
Proof. split; vm_refl. Qed.

Lemma defining_row_is_smallest_witness :
  let P := rounded_threshold_problem_binary64 in
  let krow := (implied_free (scan_column P (work_init P) 0).1).[0] in
  let entries := range (mcstrt_ P).[0] (hincol_ P).[0] in
  krow = 0
  ∧ ∃ L : @num float_num,
      (∀ k, k ∈ entries → (nabs (colels_ P).[k] <=? L)%num = true)
      ∧ (∃ k, k ∈ entries ∧ L = nabs (colels_ P).[k])
      ∧ (∃ k, k ∈ entries ∧ (hrow_ P).[k] = krow
              ∧ (nabs ((rlo_ P).[krow] - (rup_ P).[krow])
                 <? feasibilityTolerance_ P)%num = true
              ∧ (nabs (colels_ P).[k] >? L * lit_0_1)%num = true)
      ∧ (∀ k, k ∈ entries →
           (nabs ((rlo_ P).[(hrow_ P).[k]] - (rup_ P).[(hrow_ P).[k]])
            <? feasibilityTolerance_ P)%num = true →
           (nabs (colels_ P).[k] >? L * lit_0_1)%num = true →
           (hinrow_ P).[krow] ≤ (hinrow_ P).[(hrow_ P).[k]]).
Proof.
  intros P krow entries. split; [vm_refl|].
  apply (@defining_row_is_smallest float_num float_helpers P 0 (work_init P)).
  - split; vm_compute; [reflexivity|discriminate].
  - vm_refl.
  - split; vm_compute; [discriminate|reflexivity].
  - vm_refl.
  - assert (∀ a : @num float_num,
              a ∈ lit_0 :: magnitudes P (range (mcstrt_ P).[0] (hincol_ P).[0]) →
              a = 0%float ∨ a = 1%float ∨ a = 0x1.999999999999ap-4%float)
      as Hcases.
    { intros a Ha.
      change (a ∈ [0%float; 1%float; 0x1.999999999999ap-4%float]) in Ha.
      elem_cases Ha; auto. }
    split; [|split; [|split]].
    + intros a Ha. destruct (Hcases a Ha) as [->|[->| ->]]; vm_refl.
    + intros a b Ha Hb.
      destruct (Hcases a Ha) as [->|[->| ->]];
        destruct (Hcases b Hb) as [->|[->| ->]];
        intros Hab; first [vm_compute in Hab; discriminate Hab|vm_refl].
    + intros a b c Ha Hb Hc.
      destruct (Hcases a Ha) as [->|[->| ->]];
        destruct (Hcases b Hb) as [->|[->| ->]];
        destruct (Hcases c Hc) as [->|[->| ->]];
        intros Hab Hbc;
        first [vm_compute in Hab; discriminate Hab
              |vm_compute in Hbc; discriminate Hbc|vm_refl].
    + intros a Ha.
      destruct (Hcases a Ha) as [->|[->| ->]]; intros Hle;
        first [vm_compute in Hle; discriminate Hle|reflexivity].
  - vm_compute. discriminate.
Defined.

(** ** The magnitude 1e31 in the classification of a row *)

Section Magnitude.
Context (Hh : @Helpers Qc_num).
Variable prob : @problem Qc_num Hh.

Lemma of_int_ge_1 (n : Z) : 1 ≤ n → (1 <= @of_int Qc_num n)%Qc.
Proof.
  intros Hn. unfold Qcle. simpl. rewrite !Qred_correct.
  unfold Qle. simpl. lia.
Qed.

Lemma lit_1e31_nonneg : (0 <= @lit_1e31 Qc_num)%Qc.
Proof. by apply Qcleb_le. Qed.

Lemma scaled_magnitude (n : Z) :
  1 ≤ n → (@lit_1e31 Qc_num <= @of_int Qc_num n * @lit_1e31 Qc_num)%Qc.
Proof.
  intros Hn.
  replace (@lit_1e31 Qc_num) with (1 * @lit_1e31 Qc_num)%Qc at 1 by ring.
  apply Qcmult_le_compat_r; [by apply of_int_ge_1|apply lit_1e31_nonneg].
Qed.

(** Without an unbounded contribution the magnitude drops out; with one,
    the largest activity is at least the finite sum plus 1e31. *)
Lemma maxUpx_cases (a : @activity Qc_num) :
  0 ≤ infiniteUpper a →
  (infiniteUpper a =? 0) = true ∧ maxUpx a = maximumUp a
  ∨ (infiniteUpper a =? 0) = false
    ∧ (maximumUp a + @lit_1e31 Qc_num <= maxUpx a)%Qc.
Proof.
  intros Hn. unfold maxUpx.
  destruct (Z.eqb_spec (infiniteUpper a) 0) as [->|Hne]; [left|right].
  - split; [done|].
    change (maximumUp a + 0 * @lit_1e31 Qc_num = maximumUp a)%Qc.
    generalize (@lit_1e31 Qc_num : Qc). intros B. ring.
  - split; [done|].
    change (maximumUp a + @lit_1e31 Qc_num
            <= maximumUp a + @of_int Qc_num (infiniteUpper a) * @lit_1e31 Qc_num)%Qc.
    apply Qcplus_le_compat; [apply Qcle_refl|].
    apply scaled_magnitude. lia.
Qed.

Lemma maxDownx_cases (a : @activity Qc_num) :
  0 ≤ infiniteLower a →
  (infiniteLower a =? 0) = true ∧ maxDownx a = maximumDown a
  ∨ (infiniteLower a =? 0) = false
    ∧ (maxDownx a <= maximumDown a - @lit_1e31 Qc_num)%Qc.
Proof.
  intros Hn. unfold maxDownx.
  destruct (Z.eqb_spec (infiniteLower a) 0) as [->|Hne]; [left|right].
  - split; [done|].
    change (maximumDown a - 0 * @lit_1e31 Qc_num = maximumDown a)%Qc.
    generalize (@lit_1e31 Qc_num : Qc). intros B. ring.
  - split; [done|].
    change (maximumDown a + - (@of_int Qc_num (infiniteLower a) * @lit_1e31 Qc_num)
            <= maximumDown a + - @lit_1e31 Qc_num)%Qc.
    apply Qcplus_le_compat; [apply Qcle_refl|].
    apply Qcopp_le_compat, scaled_magnitude. lia.
Qed.


End Magnitude.


(** The same row in IEEE binary64: the sum [-1e32 + 1e31] is below the
    row's lower bound, and the first loop flags the problem. *)
Lemma synthetic_magnitude_decides_binary64 :
  let P := large_coefficient_problem_binary64 in
  let a := row_activity P 0 in
  infiniteUpper a = 1
  ∧ classify P 0 a = UpperUnreachable
  ∧ classify_by_counts P 0 a = Summary
  ∧ status (scan P [0] (work_init P)).1 = 1.
Proof. intros P a. repeat split; vm_refl. Qed.


(** ** Moving the cost of an eliminated column *)

Section CostFacts.
Context (Hh : @Helpers Qc_num).
Variable p : @problem Qc_num Hh.
Variables (j : Z) (costj coeffj : @num Qc_num).

Lemma move_cost_fold_fst krs l cost save_costs :
  (foldl (move_cost_step p j krs costj coeffj) (cost, save_costs) l).1
  = foldl (cost_step p j costj coeffj) cost l.
Proof.
  revert cost save_costs. induction l as [|k l IH]; intros cost save_costs;
    simpl; [done|].
  unfold cost_step at 2. destruct (negb _); apply IH.
Qed.

Lemma length_cost_step cost k :
  length (cost_step p j costj coeffj cost k) = length cost.
Proof. unfold cost_step. destruct (negb _); [apply length_aset|done]. Qed.

Lemma length_cost_fold l cost :
  length (foldl (cost_step p j costj coeffj) cost l) = length cost.
Proof.
  revert cost. induction l as [|k l IH]; intros cost; simpl; [done|].
  by rewrite IH, length_cost_step.
Qed.

(** A column that is [j], or in none of the entries, keeps its cost. *)
Lemma cost_fold_other l cost i :
  (∀ k, k ∈ l → (hcol_ p).[k] = j ∨ (hcol_ p).[k] ≠ i) →
  (foldl (cost_step p j costj coeffj) cost l).[i] = cost.[i].
Proof.
  revert cost. induction l as [|k l IH]; intros cost Hl; simpl; [done|].
  rewrite IH by (intros k' Hk'; apply Hl; by right).
  unfold cost_step.
  destruct (Z.eqb_spec (hcol_ p).[k] j) as [Hj|Hj]; simpl; [done|].
  destruct (Hl k) as [?|Hne]; [by left|done|].
  by apply aget_aset_ne.
Qed.

(** A column of the row other than [j] receives its share once. *)
Lemma cost_fold_entry l cost k :
  NoDup ((λ k, (hcol_ p).[k]) <$> l) →
  k ∈ l →
  (hcol_ p).[k] ≠ j →
  0 ≤ (hcol_ p).[k] < Z.of_nat (length cost) →
  (foldl (cost_step p j costj coeffj) cost l).[(hcol_ p).[k]]
  = (cost.[(hcol_ p).[k]] + costj * (- (rowels_ p).[k] / coeffj))%num.
Proof.
  revert cost. induction l as [|k0 l IH]; intros cost Hnd Hk Hj Hr; simpl.
  - by apply elem_of_nil in Hk.
  - rewrite fmap_cons in Hnd. apply NoDup_cons in Hnd as [Hk0 Hnd].
    apply elem_of_cons in Hk as [->|Hk].
    + rewrite cost_fold_other.
      * unfold cost_step.
        destruct (Z.eqb_spec (hcol_ p).[k0] j); [done|]. simpl.
        by apply aget_aset_eq.
      * intros k' Hk'. right. intros Heq. apply Hk0.
        rewrite <- Heq. apply list_elem_of_fmap. by exists k'.
    + rewrite IH; [|done..|by rewrite length_cost_step].
      f_equal. unfold cost_step.
      destruct (Z.eqb_spec (hcol_ p).[k0] j); simpl; [done|].
      apply aget_aset_ne. intros Heq. apply Hk0.
      rewrite Heq. apply list_elem_of_fmap. by exists k.
Qed.

End CostFacts.

Section Conservation.
Context (Hh : @Helpers Qc_num).
Variable p : @problem Qc_num Hh.
Variables (j : Z) (costj coeffj : @num Qc_num).
Variable x : Z → @num Qc_num.

Lemma objective_from_insert (c : list (@num Qc_num)) i0 n v :
  (n < length c)%nat →
  objective_from i0 (<[n:=v]> c) x
  = (objective_from i0 c x + (v - c !!! n) * x (i0 + Z.of_nat n)%Z)%num.
Proof.
  revert i0 n. induction c as [|c0 c IH]; intros i0 n Hn; simpl in Hn; [lia|].
  destruct n as [|n]; simpl.
  - replace (i0 + Z.of_nat 0) with i0 by lia. qc_ring.
  - rewrite IH by (apply Nat.succ_lt_mono; exact Hn).
    replace (i0 + 1 + Z.of_nat n) with (i0 + Z.of_nat (S n)) by lia. qc_ring.
Qed.

Lemma objective_aset (c : list (@num Qc_num)) i v :
  0 ≤ i < Z.of_nat (length c) →
  objective (c.[i <- v]) x = (objective c x + (v - c.[i]) * x i)%num.
Proof.
  intros [Hi Hl]. unfold objective, aset, aget.
  destruct (Z.ltb_spec i 0); [lia|].
  rewrite objective_from_insert by lia.
  by replace (0 + Z.of_nat (Z.to_nat i)) with i by lia.
Qed.

Lemma objective_cost_fold l (c : list (@num Qc_num)) :
  (∀ k, k ∈ l → 0 ≤ (hcol_ p).[k] < Z.of_nat (length c)) →
  objective (foldl (cost_step p j costj coeffj) c l) x
  = (objective c x + moved p j costj coeffj x l)%num.
Proof.
  revert c. induction l as [|k l IH]; intros c Hr; simpl;
    [symmetry; apply Qcplus_0_r|].
  rewrite IH.
  - unfold cost_step.
    destruct (Z.eqb_spec (hcol_ p).[k] j) as [Hj|Hj]; simpl; [qc_ring|].
    rewrite objective_aset by (apply Hr; by left). qc_ring.
  - intros k' Hk'. rewrite length_cost_step. apply Hr. by right.
Qed.

Lemma moved_eq l :
  coeffj ≠ 0%Qc →
  moved p j costj coeffj x l = (- (costj / coeffj) * (entries_value p x l - own_value p j x l))%num.
Proof.
  intros Ha. induction l as [|k l IH]; simpl.
  - qc_field. exact Ha.
  - rewrite IH. destruct (Z.eqb_spec (hcol_ p).[k] j) as [->|Hj].
    + qc_field. exact Ha.
    + qc_field. exact Ha.
Qed.

Lemma own_value_none l :
  (∀ k, k ∈ l → (hcol_ p).[k] ≠ j) → own_value p j x l = lit_0.
Proof.
  induction l as [|k l IH]; intros Hl; simpl; [done|].
  rewrite IH by (intros k' Hk'; apply Hl; by right).
  destruct (Z.eqb_spec (hcol_ p).[k] j) as [Hj|Hj]; [|qc_ring].
  by destruct (Hl k); [left|].
Qed.

Lemma own_value_cons k l :
  own_value p j x (k :: l)
  = ((if ((hcol_ p).[k] =? j)%Z then (rowels_ p).[k] * x j else lit_0)
     + own_value p j x l)%num.
Proof. reflexivity. Qed.

Lemma own_value_single l :
  NoDup ((λ k, (hcol_ p).[k]) <$> l) →
  (∃ k, k ∈ l ∧ (hcol_ p).[k] = j) →
  (∀ k, k ∈ l → (hcol_ p).[k] = j → (rowels_ p).[k] = coeffj) →
  own_value p j x l = (coeffj * x j)%num.
Proof.
  induction l as [|k l IH]; intros Hnd (k0 & Hk0 & Hj0) Hco.
  - by apply elem_of_nil in Hk0.
  - rewrite fmap_cons in Hnd. apply NoDup_cons in Hnd as [Hk Hnd].
    rewrite own_value_cons.
    destruct (Z.eqb_spec (hcol_ p).[k] j) as [Hj|Hj].
    + rewrite own_value_none.
      * rewrite (Hco k) by (by left || done). qc_ring.
      * intros k' Hk' Hj'. apply Hk. rewrite Hj, <- Hj'.
        apply list_elem_of_fmap. by exists k'.
    + rewrite IH; [qc_ring|done| |].
      * apply elem_of_cons in Hk0 as [->|Hk0]; [done|]. by exists k0.
      * intros k' Hk'. apply Hco. by right.
Qed.

End Conservation.

Lemma eliminate_cost (Hh : @Helpers Qc_num) (s : elim_state) (j : Z) :
  let p := e_prob s in
  let row := (hrow_ p).[(mcstrt_ p).[j]] in
  let a := (colels_ p).[(mcstrt_ p).[j]] in
  nonzero_cost p j row = true →
  cost_ (e_prob (eliminate s j))
  = (foldl (cost_step p j (cost_ p).[j] a) (cost_ p)
       (range (mrstrt_ p).[row] (hinrow_ p).[row])).[j <- lit_0]
  ∧ dobias_ (e_prob (eliminate s j))
    = (dobias_ p + (cost_ p).[j] * (rlo_ p).[row] / a)%num.
Proof.
  intros p row a Hnz.
  assert ((move_cost p j row a).1
          = (foldl (cost_step p j (cost_ p).[j] a) (cost_ p)
               (range (mrstrt_ p).[row] (hinrow_ p).[row])).[j <- lit_0]) as Hmc.
  { unfold move_cost.
    rewrite <- (move_cost_fold_fst Hh p j (cost_ p).[j] a (mrstrt_ p).[row] _ _
                  (replicate (Z.to_nat (hinrow_ p).[row]) lit_0)).
    by destruct (foldl _ _ _) as [c sv]. }
  unfold eliminate. fold p. fold row. fold a. rewrite Hnz.
  destruct (move_cost p j row a) as [cost save_costs]. simpl in Hmc. subst cost.
  by destruct (foldl (remove_row_step p row) _ _) as [[[colChanged hincol] hrow] colels].
Qed.

(** C4.  In exact arithmetic: when the second loop eliminates the marked
    singleton column [j] through its row with nonzero cost (the cost of [j]
    is not zero and the row is an equality row, line 484), [a] being the
    coefficient of [j] and [c] the row's right-hand side [rlo[row]], in a
    row that holds each of its columns once and [j] with the coefficient
    [a]: every other column [k] of the row gets the cost
    [cost[k] + costj * (-coeff_k / a)], the cost of [j] becomes zero, the
    bias grows by [costj * c / a], and at every assignment [x] at which the
    row's activity is [c] the new objective plus the new bias equals the
    old objective plus the old bias. *)
Theorem cost_moved_onto_row (Hh : @Helpers Qc_num) (s : elim_state) (j : Z)
  (x : Z → @num Qc_num) :
  let p := e_prob s in
  let row := (hrow_ p).[(mcstrt_ p).[j]] in
  let a := (colels_ p).[(mcstrt_ p).[j]] in
  let c := (rlo_ p).[row] in
  let costj := (cost_ p).[j] in
  let entries := range (mrstrt_ p).[row] (hinrow_ p).[row] in
  let p' := e_prob (eliminate_column s j).1 in
  (hincol_ p).[j] = 1 →
  0 ≤ (e_implied_free s).[j] →
  isolated p row = false →
  nonzero_cost p j row = true →
  a ≠ lit_0 →
  NoDup ((λ k, (hcol_ p).[k]) <$> entries) →
  (∀ k, k ∈ entries → 0 ≤ (hcol_ p).[k] < Z.of_nat (length (cost_ p))) →
  (∃ k, k ∈ entries ∧ (hcol_ p).[k] = j) →
  (∀ k, k ∈ entries → (hcol_ p).[k] = j → (rowels_ p).[k] = a) →
  (∀ k, k ∈ entries → (hcol_ p).[k] ≠ j →
     (cost_ p').[(hcol_ p).[k]]
     = ((cost_ p).[(hcol_ p).[k]] + costj * (- (rowels_ p).[k] / a))%num)
  ∧ (cost_ p').[j] = lit_0
  ∧ dobias_ p' = (dobias_ p + costj * c / a)%num
  ∧ (row_value p row x = c →
     (objective (cost_ p') x + dobias_ p')%num
     = (objective (cost_ p) x + dobias_ p)%num).
Proof.
  intros p row a c costj entries p' Hn Hm Hiso Hnz Ha Hnd Hr Hj Hco.
  assert (p' = e_prob (eliminate s j)) as Hp'.
  { unfold p', eliminate_column. fold p. fold row. rewrite Hn, Hiso.
    by destruct (Z.leb_spec 0 (e_implied_free s).[j]); [|lia]. }
  destruct (eliminate_cost Hh s j Hnz) as [Hcost Hbias].
  fold p row a entries costj in Hcost, Hbias. rewrite <- Hp' in Hcost, Hbias.
  assert (0 ≤ j < Z.of_nat (length (cost_ p))) as Hjr.
  { destruct Hj as (k & Hk & <-). by apply Hr. }
  set (folded := foldl (cost_step p j costj a) (cost_ p) entries) in *.
  assert (length folded = length (cost_ p)) as Hlen by apply length_cost_fold.
  assert (folded.[j] = costj) as Hfj.
  { unfold folded. rewrite cost_fold_other; [done|]. intros k _.
    destruct (decide ((hcol_ p).[k] = j)); [by left|by right]. }
  split; [|split; [|split]].
  - intros k Hk Hkj. rewrite Hcost, aget_aset_ne by done.
    unfold folded. apply cost_fold_entry; [done..|by apply Hr].
  - rewrite Hcost. apply aget_aset_eq. by rewrite Hlen.
  - exact Hbias.
  - intros Hrow. rewrite Hcost, Hbias.
    rewrite objective_aset by (by rewrite Hlen).
    unfold folded. rewrite objective_cost_fold by done.
    fold folded. rewrite Hfj.
    rewrite (moved_eq Hh p j costj a x entries Ha).
    change (entries_value p x entries) with (row_value p row x).
    rewrite Hrow.
    rewrite (own_value_single Hh p j a x entries Hnd Hj Hco).
    fold c. qc_field. exact Ha.
Qed.

Lemma cost_moved_onto_row_witness :
  let P := singleton_problem in
  let s := {| e_prob := P; e_implied_free := [0; -1; -1];
              e_actions := []; e_isolated_row := -1 |} in
  let p' := e_prob (eliminate_column s 0).1 in
  (∀ k, k ∈ range (mrstrt_ P).[0] (hinrow_ P).[0] → (hcol_ P).[k] ≠ 0 →
     (cost_ p').[(hcol_ P).[k]]
     = ((cost_ P).[(hcol_ P).[k]]
        + (cost_ P).[0] * (- (rowels_ P).[k] / (colels_ P).[0]))%num)
  ∧ (cost_ p').[0] = lit_0
  ∧ dobias_ p' = (dobias_ P + (cost_ P).[0] * (rlo_ P).[0] / (colels_ P).[0])%num
  ∧ (objective (cost_ p') singleton_point + dobias_ p')%num
    = (objective (cost_ P) singleton_point + dobias_ P)%num.
Proof.
  intros P s p'.
  assert (range (mrstrt_ P).[0] (hinrow_ P).[0] = [0; 1]) as Hentries by vm_refl.
  destruct (cost_moved_onto_row Qc_helpers s 0 singleton_point)
    as (Hother & Hzero & Hbias & Hobj).
  - vm_refl.
  - vm_compute. discriminate.
  - vm_refl.
  - vm_refl.
  - intros Heq. apply (f_equal this) in Heq. vm_compute in Heq. discriminate.
  - match goal with |- NoDup ?l => assert (l = [0; 1]) as -> by vm_refl end.
    apply NoDup_cons. split; [|apply NoDup_singleton].
    intros Hin. apply list_elem_of_singleton in Hin. discriminate.
  - intros k Hk. change (k ∈ range (mrstrt_ P).[0] (hinrow_ P).[0]) in Hk.
    rewrite Hentries in Hk.
    elem_cases Hk; vm_compute; (split; [discriminate|reflexivity]).
  - exists 0. split; [|vm_refl].
    change (0 ∈ range (mrstrt_ P).[0] (hinrow_ P).[0]).
    rewrite Hentries. constructor.
  - intros k Hk. change (k ∈ range (mrstrt_ P).[0] (hinrow_ P).[0]) in Hk.
    rewrite Hentries in Hk. elem_cases Hk; [intros _; vm_refl|].
    intros Heq. vm_compute in Heq. discriminate.
  - split; [exact Hother|]. split; [exact Hzero|]. split; [exact Hbias|].
    apply Hobj. apply Qc_is_canon. vm_compute. reflexivity.
Defined.

(** ** What the first loop marks *)

Section MarkedColumns.
Context `{Helpers}.
Variable prob : problem.

(** The three ways the body of the first loop ends for a column in two or
    three rows, and for a singleton column. *)
Lemma scan_multi_cases j w :
  scan_multi prob j w = w
  ∨ scan_multi prob j w = (walk prob j w).1.1.1
  ∨ ∃ krow, 0 ≤ krow
      ∧ krow = select_row prob j ((column_rows prob j).2 * lit_0_1)%num
      ∧ scan_multi prob j w = mark_implied_free (walk prob j w).1.1.1 j krow.
Proof.
  rewrite scan_multi_eq.
  destruct (_ && negb _); [|by left].
  destruct (_ && _); [|by right; left].
  destruct (Z.leb_spec 0 (select_row prob j ((column_rows prob j).2 * lit_0_1)%num));
    [|by right; left].
  right; right. by eexists.
Qed.

Lemma scan_singleton_cases j w :
  scan_singleton prob j w = (w, None)
  ∨ (∃ row, scan_singleton prob j w = (flag_infeasible prob w row, Some row))
  ∨ (singleton_candidate prob j w = true
     ∧ scan_singleton prob j w
       = (mark_implied_free w j (hrow_ prob).[(mcstrt_ prob).[j]], None)).
Proof.
  unfold scan_singleton.
  destruct (singleton_candidate prob j w); [|by left].
  destruct (singleton_bounds prob j) as [[[maxup maxdown] ilow] iup].
  destruct (_ && _); [right; left; by eexists|].
  destruct (_ && _); [right; left; by eexists|].
  destruct (_ && _); [by right; right|by left].
Qed.

(** The body of the first loop writes at most the mark of its own column,
    only for a column that is not integer and has one to three entries, and
    the mark is the row of one of the entries of the column. *)
Lemma scan_column_marks w j :
  implied_free (scan_column prob w j).1 = implied_free w
  ∨ ((hincol_ prob).[j] ≤ 3 ∧ (hincol_ prob).[j] ≠ 0
     ∧ (integerType_ prob).[j] = false
     ∧ ∃ krow, implied_free (scan_column prob w j).1
               = (implied_free w).[j <- krow]
         ∧ (0 ≤ (hincol_ prob).[j] →
            ∃ k, k ∈ range (mcstrt_ prob).[j] (hincol_ prob).[j]
                 ∧ (hrow_ prob).[k] = krow)).
Proof.
  unfold scan_column.
  destruct (Z.leb_spec (hincol_ prob).[j] 3) as [H3|]; [|by left].
  destruct (integerType_ prob).[j] eqn:Hint; [by left|]. simpl.
  destruct (Z.ltb_spec 1 (hincol_ prob).[j]) as [H1|H1].
  - simpl. destruct (scan_multi_cases j w) as [->|[->|(krow & Hk & Hsel & ->)]].
    + by left.
    + left. apply walk_marks.
    + right. repeat (split; [done || lia|]). exists krow.
      simpl. rewrite walk_marks. split; [done|]. intros _.
      destruct (select_row_min prob j ((column_rows prob j).2 * lit_0_1)%num)
        as [Hm|(k & Hin & _ & _ & Hrow & _)]; [lia|].
      exists k. split; [done|]. by rewrite Hsel.
  - destruct (Z.eqb_spec (hincol_ prob).[j] 0) as [Hz|Hz]; [by left|]. simpl.
    destruct (scan_singleton_cases j w) as [->|[[row ->]|[_ ->]]];
      [by left|by left|].
    right. repeat (split; [done|]). eexists. split; [done|]. intros Hn.
    exists (mcstrt_ prob).[j]. split; [|done].
    apply elem_of_seqZ. lia.
Qed.

Lemma scan_column_marks_other w j j' :
  j ≠ j' →
  (implied_free (scan_column prob w j).1).[j'] = (implied_free w).[j'].
Proof.
  intros Hne. destruct (scan_column_marks w j) as [->|(_ & _ & _ & krow & -> & _)];
    [done|]. by apply aget_aset_ne.
Qed.

Lemma scan_column_ineligible w j :
  (integerType_ prob).[j] = true ∨ 3 < (hincol_ prob).[j] ∨ (hincol_ prob).[j] = 0 →
  (implied_free (scan_column prob w j).1).[j] = (implied_free w).[j].
Proof.
  intros Hj. destruct (scan_column_marks w j) as [->|(H3 & Hz & Hint & _)]; [done|].
  destruct Hj as [Hj|[Hj|Hj]]; [congruence|lia|lia].
Qed.

(** X1.  The first loop leaves alone the mark of every column that is
    integer, has more than three entries or none, or is not in the list of
    columns to look at. *)
Theorem scan_marks_only_eligible look w j :
  j ∉ look ∨ (integerType_ prob).[j] = true
  ∨ 3 < (hincol_ prob).[j] ∨ (hincol_ prob).[j] = 0 →
  (implied_free (scan prob look w).1).[j] = (implied_free w).[j].
Proof.
  intros Hj. unfold scan. revert w.
  induction look as [|x look IH]; intros w; simpl; [done|].
  assert ((implied_free (scan_column prob w x).1).[j] = (implied_free w).[j])
    as Hx.
  { destruct (decide (x = j)) as [->|Hne]; [|by apply scan_column_marks_other].
    apply scan_column_ineligible.
    destruct Hj as [Hj|Hj]; [|done]. exfalso. apply Hj. by left. }
  destruct (scan_column prob w x) as [w1 [row|]]; simpl in *; [done|].
  rewrite IH; [done|].
  destruct Hj as [Hj|Hj]; [|by right]. left. intros Hin. apply Hj. by right.
Qed.

Lemma aget_replicate {A} `{Inhabited A} (n : nat) (v : A) (i : Z) :
  0 ≤ i < Z.of_nat n → (replicate n v).[i] = v.
Proof.
  intros Hi. unfold aget. destruct (Z.ltb_spec i 0); [lia|].
  rewrite list_lookup_total_alt, lookup_replicate_2; [done|lia].
Qed.

(** X2.  After the first loop a column of the problem is unmarked, or its
    mark is the row of one of its entries. *)
Theorem marked_row_holds_column look j :
  0 ≤ j < ncols_ prob →
  0 ≤ (hincol_ prob).[j] →
  let mark := (implied_free (scan prob look (work_init prob)).1).[j] in
  mark = -1
  ∨ ∃ k, k ∈ range (mcstrt_ prob).[j] (hincol_ prob).[j]
         ∧ (hrow_ prob).[k] = mark.
Proof.
  intros Hj Hn. simpl. unfold scan.
  apply (for_break_invariant
           (λ w, (implied_free w).[j] = -1
                 ∨ ∃ k, k ∈ range (mcstrt_ prob).[j] (hincol_ prob).[j]
                        ∧ (hrow_ prob).[k] = (implied_free w).[j])).
  - intros w x Hw.
    destruct (decide (x = j)) as [->|Hne];
      [|by rewrite scan_column_marks_other].
    destruct (scan_column_marks w j) as [->|(_ & _ & _ & krow & -> & Hrow)];
      [done|].
    destruct (aget_aset_cases (implied_free w) j j krow) as [->| ->]; [|done].
    right. by apply Hrow.
  - left. simpl. apply aget_replicate. lia.
Qed.

End MarkedColumns.

(** ** Rows given up *)

Section GivenUp.
Context `{Helpers}.
Variable prob : problem.

Lemma tags_continue_refl w : tags_continue w w.
Proof. by split. Qed.

Lemma tags_continue_trans w1 w2 w3 :
  tags_continue w1 w2 → tags_continue w2 w3 → tags_continue w1 w3.
Proof.
  intros [Hl1 Ht1] [Hl2 Ht2]. split; [congruence|].
  intros row Hrow. by apply Ht2, Ht1.
Qed.

Lemma tags_continue_set_3 w row : tags_continue w (set_infiniteUp w row (-3)).
Proof.
  split; simpl; [apply length_aset|]. intros row' Hrow'.
  destruct (aget_aset_cases (infiniteUp w) row row' (-3)) as [->| ->]; done.
Qed.

Lemma tags_continue_mark w j krow : tags_continue w (mark_implied_free w j krow).
Proof.
  split; simpl; [apply length_aset|]. intros row' Hrow'.
  destruct (aget_aset_cases (infiniteUp w) krow row' (-3)) as [->| ->]; done.
Qed.

Lemma tags_continue_compute_row w row :
  (infiniteUp w).[row] = -1 →
  tags_continue w (compute_row prob w row).1.
Proof.
  intros Hrow. unfold compute_row.
  destruct (classify prob row (row_activity prob row)); simpl.
  - apply tags_continue_set_3.
  - apply (tags_continue_set_3 (flag_infeasible prob w row)).
  - apply (tags_continue_set_3 (flag_infeasible prob w row)).
  - split; simpl; [apply length_aset|]. intros row' Hrow'.
    rewrite aget_aset_ne; [done|]. intros ->. lia.
Qed.

Lemma tags_continue_walk_step j s k :
  tags_continue s.1.1 (walk_step prob j s k).1.1.1.
Proof.
  destruct s as [[w low0] high0]; simpl.
  destruct (nabs _ >? ZTOLDP)%num; [|apply tags_continue_refl].
  destruct (Z.eqb_spec (infiniteUp w).[(hrow_ prob).[k]] (-1)) as [Hu|Hu].
  - pose proof (tags_continue_compute_row w _ Hu) as Hc.
    destruct (compute_row prob w (hrow_ prob).[k]) as [w1 broke]; simpl in Hc.
    destruct broke; [done|].
    destruct (0 <=? _); [done|]. by destruct (_ =? -3).
  - destruct (0 <=? _); [apply tags_continue_refl|].
    destruct (_ =? -3); apply tags_continue_refl.
Qed.

Lemma tags_continue_walk j w : tags_continue w (walk prob j w).1.1.1.
Proof.
  unfold walk.
  apply (for_break_invariant (λ s, tags_continue w s.1.1));
    [|apply tags_continue_refl].
  intros s k Hs. eapply tags_continue_trans; [exact Hs|].
  apply tags_continue_walk_step.
Qed.

Lemma tags_continue_scan_column w j :
  tags_continue w (scan_column prob w j).1.
Proof.
  unfold scan_column.
  destruct (_ && _); [|apply tags_continue_refl].
  destruct (1 <? _); simpl.
  - destruct (scan_multi_cases prob j w) as [->|[->|(krow & _ & _ & ->)]].
    + apply tags_continue_refl.
    + apply tags_continue_walk.
    + eapply tags_continue_trans; [apply tags_continue_walk|].
      apply tags_continue_mark.
  - destruct (negb _); [|apply tags_continue_refl].
    destruct (scan_singleton_cases prob j w) as [->|[[row ->]|[_ ->]]]; simpl.
    + apply tags_continue_refl.
    + by split.
    + apply tags_continue_mark.
Qed.

Lemma tags_continue_scan look w : tags_continue w (scan prob look w).1.
Proof.
  unfold scan.
  apply (for_break_invariant (λ w', tags_continue w w'));
    [|apply tags_continue_refl].
  intros w' x Hw'. eapply tags_continue_trans; [exact Hw'|].
  apply tags_continue_scan_column.
Qed.

(** X3.  A row the first loop has given up, tagged [-3], is given up for
    the rest of the loop: its tag is not overwritten by a count, and it is
    not reset. *)
Theorem given_up_row_stays_given_up look w row :
  (infiniteUp w).[row] = -3 →
  (infiniteUp (scan prob look w).1).[row] = -3.
Proof. apply tags_continue_scan. Qed.

(** What the body of the first loop does to the marks and the tags: nothing
    to the marks; a mark for a column of two or three entries; or, for a
    singleton column, the mark and the tag of its row, which was not given
    up before. *)
Lemma scan_column_summary w x :
  (implied_free (scan_column prob w x).1 = implied_free w
   ∧ tags_continue w (scan_column prob w x).1)
  ∨ (1 < (hincol_ prob).[x]
     ∧ (∃ krow, implied_free (scan_column prob w x).1
                = (implied_free w).[x <- krow])
     ∧ tags_continue w (scan_column prob w x).1)
  ∨ ((hincol_ prob).[x] ≤ 1
     ∧ (infiniteUp w).[(hrow_ prob).[(mcstrt_ prob).[x]]] ≠ -3
     ∧ (scan_column prob w x).1
       = mark_implied_free w x (hrow_ prob).[(mcstrt_ prob).[x]]).
Proof.
  pose proof (tags_continue_scan_column w x) as Ht. revert Ht.
  unfold scan_column.
  destruct (_ && _); [|by left].
  destruct (Z.ltb_spec 1 (hincol_ prob).[x]) as [H1|H1]; simpl.
  - intros Ht.
    destruct (scan_multi_cases prob x w) as [Hs|[Hs|(krow & _ & _ & Hs)]];
      rewrite Hs in Ht |- *.
    + by left.
    + left. split; [apply walk_marks|done].
    + right; left. split; [done|]. split; [|done].
      exists krow. simpl. by rewrite walk_marks.
  - destruct (negb _); [|by left].
    destruct (scan_singleton_cases prob x w) as [->|[[row ->]|[Hc ->]]]; simpl.
    + by left.
    + by left.
    + intros _. right; right. split; [done|]. split; [|done].
      unfold singleton_candidate in Hc.
      apply andb_true_iff in Hc as [_ Hc]. apply negb_true_iff in Hc.
      by apply Z.eqb_neq in Hc.
Qed.

End GivenUp.

(** ** The rows of the marked singleton columns *)

Section SingletonRows.
Context `{Helpers}.
Variable prob : problem.

Local Abbreviation row_of j := ((hrow_ prob).[(mcstrt_ prob).[j]]).
Local Abbreviation is_singleton j :=
  (0 ≤ j < ncols_ prob ∧ (hincol_ prob).[j] = 1).

Hypothesis rows_in_range :
  ∀ j, is_singleton j → 0 ≤ row_of j < nrows_ prob.

Lemma singleton_rows_invariant look :
  let w := (scan prob look (work_init prob)).1 in
  (length (implied_free w) = Z.to_nat (ncols_ prob)
   ∧ length (infiniteUp w) = Z.to_nat (nrows_ prob))
  ∧ (∀ j, is_singleton j → 0 ≤ (implied_free w).[j] →
       (implied_free w).[j] = row_of j ∧ (infiniteUp w).[row_of j] = -3)
  ∧ (∀ j1 j2, is_singleton j1 → is_singleton j2 → j1 ≠ j2 →
       0 ≤ (implied_free w).[j1] → 0 ≤ (implied_free w).[j2] →
       row_of j1 ≠ row_of j2).
Proof using rows_in_range.
  simpl. unfold scan. apply for_break_invariant.
  - intros w x ((Hlm & Hlt) & Hone & Htwo).
    destruct (scan_column_summary prob w x)
      as [(Hm & Hl & Ht)|[(H1 & (krow & Hm) & Hl & Ht)|(H1 & Hx & Hw)]].
    + rewrite Hm. split; [by rewrite Hl|]. split; [|done].
      intros j Hj Hmark. destruct (Hone j Hj Hmark) as [? ?]. by split; [|apply Ht].
    + assert (∀ j, is_singleton j →
                (implied_free (scan_column prob w x).1).[j] = (implied_free w).[j])
        as Hsame.
      { intros j [_ Hj]. rewrite Hm. apply aget_aset_ne. intros ->. lia. }
      split; [by rewrite Hm, length_aset, Hl|]. split.
      * intros j Hj. rewrite (Hsame j Hj). intros Hmark.
        destruct (Hone j Hj Hmark) as [? ?]. by split; [|apply Ht].
      * intros j1 j2 Hj1 Hj2. rewrite (Hsame j1 Hj1), (Hsame j2 Hj2).
        by apply Htwo.
    + rewrite Hw. simpl. split; [by rewrite !length_aset|].
      assert (∀ j, is_singleton j → j ≠ x → 0 ≤ ((implied_free w).[x <- row_of x]).[j] →
                (implied_free w).[j] = row_of j ∧ (infiniteUp w).[row_of j] = -3
                ∧ row_of j ≠ row_of x) as Hold.
      { intros j Hj Hne. rewrite aget_aset_ne by done. intros Hmark.
        destruct (Hone j Hj Hmark) as [? Htag]. repeat split; [done..|].
        intros Heq. by rewrite Heq in Htag. }
      assert (is_singleton x →
              ((implied_free w).[x <- row_of x]).[x] = row_of x
              ∧ ((infiniteUp w).[row_of x <- -3]).[row_of x] = -3) as Hnew.
      { intros Hx1. split; apply aget_aset_eq; [lia|].
        specialize (rows_in_range x Hx1). lia. }
      split.
      * intros j Hj Hmark. destruct (decide (j = x)) as [->|Hne]; [by apply Hnew|].
        destruct (Hold j Hj Hne Hmark) as (Hmj & Htag & Hrow).
        rewrite !aget_aset_ne by done. done.
      * intros j1 j2 Hj1 Hj2 Hne Hm1 Hm2.
        destruct (decide (j1 = x)) as [->|Hne1].
        { destruct (Hold j2 Hj2 (not_eq_sym Hne) Hm2) as (_ & _ & Hrow). congruence. }
        destruct (decide (j2 = x)) as [->|Hne2].
        { by destruct (Hold j1 Hj1 Hne1 Hm1) as (_ & _ & Hrow). }
        rewrite aget_aset_ne in Hm1, Hm2 by done. by apply Htwo.
  - simpl. split; [by rewrite length_replicate, length_fmap, length_seqZ|].
    split.
    + intros j [Hj _]. rewrite aget_replicate by lia. lia.
    + intros j1 j2 [Hj1 _] _ _. rewrite aget_replicate by lia. lia.
Qed.

End SingletonRows.

(** X4.  When every singleton column has its row among the rows of the
    problem, two singleton columns the first loop marks are marked with
    different rows: a row a singleton column has taken is not taken by a
    later one. *)
Theorem singleton_columns_take_distinct_rows `{Helpers} (prob : problem)
  (look : list Z) (j1 j2 : Z) :
  (∀ j, 0 ≤ j < ncols_ prob ∧ (hincol_ prob).[j] = 1 →
        0 ≤ (hrow_ prob).[(mcstrt_ prob).[j]] < nrows_ prob) →
  0 ≤ j1 < ncols_ prob → (hincol_ prob).[j1] = 1 →
  0 ≤ j2 < ncols_ prob → (hincol_ prob).[j2] = 1 →
  j1 ≠ j2 →
  let marks := implied_free (scan prob look (work_init prob)).1 in
  0 ≤ marks.[j1] → 0 ≤ marks.[j2] →
  marks.[j1] ≠ marks.[j2]
  ∧ marks.[j1] = (hrow_ prob).[(mcstrt_ prob).[j1]]
  ∧ marks.[j2] = (hrow_ prob).[(mcstrt_ prob).[j2]].
Proof.
  intros Hrows Hj1 Hs1 Hj2 Hs2 Hne marks Hm1 Hm2.
  destruct (singleton_rows_invariant prob Hrows look) as (_ & Hone & Htwo).
  destruct (Hone j1 (conj Hj1 Hs1) Hm1) as [Hr1 _].
  destruct (Hone j2 (conj Hj2 Hs2) Hm2) as [Hr2 _].
  split; [|done]. unfold marks. rewrite Hr1, Hr2.
  by apply (Htwo j1 j2).
Qed.


(** ** The cache of row figures *)

Section RowCache.
Context `{Helpers}.
Variable prob : problem.

Lemma aget_fmap_range {A} `{Inhabited A} (f : Z → A) (n i : Z) :
  0 ≤ i < n → (f <$> range 0 n).[i] = f i.
Proof.
  intros Hi. unfold aget, range. destruct (Z.ltb_spec i 0); [lia|].
  rewrite list_lookup_total_alt, list_lookup_fmap, lookup_seqZ_lt by lia.
  simpl. f_equal. lia.
Qed.

Lemma cache_sound_init : cache_sound prob (work_init prob).
Proof.
  split; simpl.
  - by rewrite !length_replicate, length_fmap, length_seqZ.
  - intros row Hrow. rewrite aget_fmap_range by done.
    destruct (1 <? _); lia.
Qed.

Lemma cache_sound_set_3 w row :
  cache_sound prob w → cache_sound prob (set_infiniteUp w row (-3)).
Proof.
  intros [(Hl1 & Hl) Hc]. split; simpl; [by rewrite length_aset|].
  intros row' Hrow'.
  destruct (aget_aset_cases (infiniteUp w) row row' (-3)) as [->| ->]; [lia|].
  by apply Hc.
Qed.

Lemma cache_sound_flag w row :
  cache_sound prob w → cache_sound prob (flag_infeasible prob w row).
Proof. done. Qed.

Lemma cache_sound_mark w j krow :
  cache_sound prob w → cache_sound prob (mark_implied_free w j krow).
Proof.
  intros [(Hl1 & Hl) Hc]. split; simpl; [by rewrite length_aset|].
  intros row' Hrow'.
  destruct (aget_aset_cases (infiniteUp w) krow row' (-3)) as [->| ->]; [lia|].
  by apply Hc.
Qed.

Lemma cache_sound_store w row :
  cache_sound prob w → cache_sound prob (store_activity w row (row_activity prob row)).
Proof.
  intros [(Hl1 & Hl2 & Hl3 & Hl4) Hc]. split; simpl; [by rewrite !length_aset|].
  intros row' Hrow'. destruct (decide (row = row')) as [->|Hne].
  - intros _. rewrite !aget_aset_eq by lia. done.
  - rewrite !aget_aset_ne by done. by apply Hc.
Qed.

Lemma cache_sound_compute_row w row :
  cache_sound prob w → cache_sound prob (compute_row prob w row).1.
Proof.
  intros Hc. unfold compute_row.
  destruct (classify prob row (row_activity prob row)); simpl.
  - by apply cache_sound_set_3.
  - by apply cache_sound_set_3, cache_sound_flag.
  - by apply cache_sound_set_3, cache_sound_flag.
  - by apply cache_sound_store.
Qed.

Lemma cache_sound_walk_step j s k :
  cache_sound prob s.1.1 → cache_sound prob (walk_step prob j s k).1.1.1.
Proof.
  destruct s as [[w low0] high0]; simpl. intros Hc.
  destruct (nabs _ >? ZTOLDP)%num; [|done].
  destruct (Z.eqb_spec (infiniteUp w).[(hrow_ prob).[k]] (-1)) as [Hu|Hu].
  - pose proof (cache_sound_compute_row w (hrow_ prob).[k] Hc) as Hc1.
    destruct (compute_row prob w (hrow_ prob).[k]) as [w1 broke]; simpl in Hc1.
    destruct broke; [done|].
    destruct (0 <=? _); [done|]. by destruct (_ =? -3).
  - destruct (0 <=? _); [done|]. by destruct (_ =? -3).
Qed.

Lemma cache_sound_walk j w : cache_sound prob w → cache_sound prob (walk prob j w).1.1.1.
Proof.
  unfold walk. intros Hc.
  apply (for_break_invariant (λ s, cache_sound prob s.1.1)); [|done].
  intros s k. apply cache_sound_walk_step.
Qed.

Lemma cache_sound_scan_column w j :
  cache_sound prob w → cache_sound prob (scan_column prob w j).1.
Proof.
  intros Hc. unfold scan_column.
  destruct (_ && _); [|done].
  destruct (1 <? _); simpl.
  - destruct (scan_multi_cases prob j w) as [->|[->|(krow & _ & _ & ->)]];
      [done|by apply cache_sound_walk|by apply cache_sound_mark, cache_sound_walk].
  - destruct (negb _); [|done].
    destruct (scan_singleton_cases prob j w) as [->|[[row ->]|[_ ->]]]; simpl;
      [done|done|by apply cache_sound_mark].
Qed.

(** X5.  The figures the first loop has cached for a row, tagged with a
    count, are the activity figures of that row: the numbers of unbounded
    contributions and the two finite sums that lines 152-186 compute, at
    every point of the loop. *)
Theorem cached_figures_are_row_activity look row :
  0 ≤ row < nrows_ prob →
  let w := (scan prob look (work_init prob)).1 in
  0 ≤ (infiniteUp w).[row] →
  (infiniteUp w).[row] = infiniteUpper (row_activity prob row)
  ∧ (infiniteDown w).[row] = infiniteLower (row_activity prob row)
  ∧ (maxUp w).[row] = maximumUp (row_activity prob row)
  ∧ (maxDown w).[row] = maximumDown (row_activity prob row).
Proof.
  intros Hrow w.
  assert (cache_sound prob w) as [_ Hc]; [|by apply Hc].
  unfold w, scan. apply for_break_invariant; [|apply cache_sound_init].
  intros w' x. apply cache_sound_scan_column.
Qed.

End RowCache.

(** ** The infeasibility flag and the messages *)

Section Reports.
Context `{Helpers}.
Variable prob : problem.

Lemma reports_refl w : reports prob w w [].
Proof.
  split; [by rewrite app_nil_r|]. split; [|done].
  intros msg Hin. by apply elem_of_nil in Hin.
Qed.

Lemma reports_trans w1 w2 w3 l1 l2 :
  reports prob w1 w2 l1 → reports prob w2 w3 l2 → reports prob w1 w3 (l1 ++ l2).
Proof.
  intros (Hm1 & Hr1 & Hs1) (Hm2 & Hr2 & Hs2). split; [|split].
  - by rewrite Hm2, Hm1, app_assoc.
  - intros msg Hin. apply elem_of_app in Hin as [Hin|Hin]; auto.
  - rewrite Hs2, Hs1. destruct l1, l2; simpl; try done.
    by rewrite <- Z.lor_assoc, Z.lor_diag.
Qed.

Lemma reports_flag w row :
  reports prob w (flag_infeasible prob w row)
    [COIN_PRESOLVE_ROWINFEAS row (rlo_ prob).[row] (rup_ prob).[row]].
Proof.
  split; [done|]. split; [|done].
  intros msg Hin. apply list_elem_of_singleton in Hin as ->. by exists row.
Qed.

Lemma reports_same w w' :
  messages w' = messages w → status w' = status w → reports prob w w' [].
Proof.
  intros Hm Hs. split; [by rewrite app_nil_r|]. split; [|done].
  intros msg Hin. by apply elem_of_nil in Hin.
Qed.

Lemma reports_compute_row w row :
  ∃ l, reports prob w (compute_row prob w row).1 l.
Proof.
  unfold compute_row.
  destruct (classify prob row (row_activity prob row)); simpl.
  - exists []. by apply reports_same.
  - eexists. apply (reports_flag w row).
  - eexists. apply (reports_flag w row).
  - exists []. by apply reports_same.
Qed.

Lemma reports_walk_step j s k :
  ∃ l, reports prob s.1.1 (walk_step prob j s k).1.1.1 l.
Proof.
  destruct s as [[w low0] high0]; simpl.
  destruct (nabs _ >? ZTOLDP)%num; [|exists []; apply reports_refl].
  destruct (Z.eqb_spec (infiniteUp w).[(hrow_ prob).[k]] (-1)) as [Hu|Hu].
  - destruct (reports_compute_row w (hrow_ prob).[k]) as [l Hl]. exists l.
    destruct (compute_row prob w (hrow_ prob).[k]) as [w1 broke]; simpl in Hl.
    destruct broke; [done|].
    destruct (0 <=? _); [done|]. by destruct (_ =? -3).
  - exists []. destruct (0 <=? _); [apply reports_refl|].
    destruct (_ =? -3); apply reports_refl.
Qed.

Lemma reports_walk j w : ∃ l, reports prob w (walk prob j w).1.1.1 l.
Proof.
  unfold walk.
  apply (for_break_invariant (λ s, ∃ l, reports prob w s.1.1 l));
    [|exists []; apply reports_refl].
  intros s k [l1 Hl1]. destruct (reports_walk_step j s k) as [l2 Hl2].
  exists (l1 ++ l2). by eapply reports_trans.
Qed.

Lemma reports_scan_column w j : ∃ l, reports prob w (scan_column prob w j).1 l.
Proof.
  unfold scan_column.
  destruct (_ && _); [|exists []; apply reports_refl].
  destruct (1 <? _); simpl.
  - destruct (reports_walk j w) as [l Hl].
    destruct (scan_multi_cases prob j w) as [->|[->|(krow & _ & _ & ->)]].
    + exists []. apply reports_refl.
    + by exists l.
    + by exists l.
  - destruct (negb _); [|exists []; apply reports_refl].
    destruct (scan_singleton_cases prob j w) as [->|[[row ->]|[_ ->]]]; simpl.
    + exists []. apply reports_refl.
    + eexists. apply reports_flag.
    + exists []. by apply reports_same.
Qed.

Lemma reports_scan look w : ∃ l, reports prob w (scan prob look w).1 l.
Proof.
  unfold scan.
  apply (for_break_invariant (λ w', ∃ l, reports prob w w' l));
    [|exists []; apply reports_refl].
  intros w' x [l1 Hl1]. destruct (reports_scan_column w' x) as [l2 Hl2].
  exists (l1 ++ l2). by eapply reports_trans.
Qed.

End Reports.

(** X6.  The two loops of the pass only add to the messages, each message
    naming a row with its bounds, and they change the status exactly when
    they emit a message, by setting bit 0; no other bit of the status is
    written and none is cleared. *)
Theorem flag_raised_with_message `{Helpers} (prob : problem) (look : list Z)
  (marks : list Z) :
  let w := (scan prob look (work_init prob)).1 in
  let p := e_prob (eliminate_singletons look (with_status prob w) marks) in
  ∃ l,
    messages_ p = messages_ prob ++ l
    ∧ (∀ msg, msg ∈ l →
         ∃ row, msg = COIN_PRESOLVE_ROWINFEAS row
                        (rlo_ prob).[row] (rup_ prob).[row])
    ∧ status_ p = match l with
                  | [] => status_ prob
                  | _ => Z.lor (status_ prob) 1
                  end.
Proof.
  intros w p.
  destruct (reports_scan prob look (work_init prob)) as (l & Hm & Hr & Hs).
  exists l. unfold p, eliminate_singletons.
  destruct (untouched_eliminate_loop look
              {| e_prob := with_status prob w; e_implied_free := marks;
                 e_actions := []; e_isolated_row := -1 |})
    as (_ & _ & Hst & Hmsg).
  simpl in Hst, Hmsg. rewrite Hst, Hmsg. done.
Qed.

(** ** More on arrays *)

Lemma aset_outside {A} (l : list A) (i : Z) (v : A) :
  ¬ (0 ≤ i < Z.of_nat (length l)) → l.[i <- v] = l.
Proof.
  intros Hi. unfold aset. destruct (Z.ltb_spec i 0); [done|].
  apply list_insert_ge. lia.
Qed.

Lemma aset_same {A} `{Inhabited A} (l : list A) (i : Z) : l.[i <- l.[i]] = l.
Proof.
  unfold aset, aget. destruct (Z.ltb_spec i 0); [done|].
  destruct (decide (Z.to_nat i < length l)%nat) as [Hlt|Hge].
  - apply list_insert_id. by apply list_lookup_lookup_total_lt.
  - apply list_insert_ge. lia.
Qed.

Lemma aset_aset {A} (l : list A) (i : Z) (v v' : A) :
  l.[i <- v].[i <- v'] = l.[i <- v'].
Proof.
  unfold aset. destruct (i <? 0); [done|]. apply list_insert_insert_eq.
Qed.

Lemma list_eq_aget {A} `{Inhabited A} (l1 l2 : list A) :
  length l1 = length l2 →
  (∀ i, 0 ≤ i < Z.of_nat (length l1) → l1.[i] = l2.[i]) →
  l1 = l2.
Proof.
  intros Hlen Hi. apply list_eq_same_length with (n := length l1); [done..|].
  intros n x y Hn Hx Hy. specialize (Hi (Z.of_nat n) ltac:(lia)).
  unfold aget in Hi. destruct (Z.ltb_spec (Z.of_nat n) 0); [lia|].
  rewrite Nat2Z.id in Hi.
  rewrite (list_lookup_total_correct _ _ _ Hx) in Hi.
  by rewrite (list_lookup_total_correct _ _ _ Hy) in Hi.
Qed.

Lemma for_break_invariant_in {S E X} (P : S → Prop)
  (body : S → X → S * option E) (l : list X) :
  (∀ s x, x ∈ l → P s → P (fst (body s x))) →
  ∀ s, P s → P (fst (for_break body s l)).
Proof.
  induction l as [|x l IH]; intros Hbody s Hs; simpl; [done|].
  pose proof (Hbody s x ltac:(by left) Hs) as Hx.
  destruct (body s x) as [s' [e|]]; simpl in *; [done|].
  apply IH; [|done]. intros s1 x1 Hin. apply Hbody. by right.
Qed.

(** ** The undo records of the second loop *)

Section Records.
Context `{Helpers}.

(** What eliminating a column writes. *)
Lemma eliminate_fields s j :
  let p := e_prob s in
  let row := (hrow_ p).[(mcstrt_ p).[j]] in
  let p' := e_prob (eliminate s j) in
  (rlo_ p' = (rlo_ p).[row <- lit_0] ∧ rup_ p' = (rup_ p).[row <- lit_0]
   ∧ hinrow_ p' = (hinrow_ p).[row <- 0])
  ∧ (rowels_ p' = rowels_ p ∧ hcol_ p' = hcol_ p ∧ mrstrt_ p' = mrstrt_ p
     ∧ mcstrt_ p' = mcstrt_ p ∧ clo_ p' = clo_ p ∧ cup_ p' = cup_ p)
  ∧ e_implied_free (eliminate s j) = (e_implied_free s).[j <- -1]
  ∧ e_isolated_row (eliminate s j) = e_isolated_row s
  ∧ ∃ costs, e_actions (eliminate s j) = e_actions s ++ [saved_row p j row costs]
      ∧ (if nonzero_cost p j row
         then (cost_ p', costs)
              = ((move_cost p j row (colels_ p).[(mcstrt_ p).[j]]).1,
                 Some (move_cost p j row (colels_ p).[(mcstrt_ p).[j]]).2)
         else cost_ p' = cost_ p ∧ costs = None).
Proof.
  intros p row p'. unfold p', eliminate. fold p. fold row.
  destruct (nonzero_cost p j row).
  - destruct (move_cost _ _ _ _) as [cost save_costs].
    destruct (foldl _ _ _) as [[[colChanged hincol] hrow] colels]. simpl.
    repeat (split; [done|]). by eexists.
  - destruct (foldl _ _ _) as [[[colChanged hincol] hrow] colels]. simpl.
    repeat (split; [done|]). by eexists.
Qed.

(** A row without entries counts as isolated. *)
Lemma isolated_empty p row : (hinrow_ p).[row] = 0 → isolated p row = true.
Proof. intros Hn. unfold isolated. by rewrite Hn. Qed.

(** The three ways the body of the second loop ends. *)
Lemma eliminate_column_cases s j :
  (eliminate_column s j).1 = s
  ∨ ((eliminate_column s j).1
     = {| e_prob := e_prob s; e_implied_free := e_implied_free s;
          e_actions := e_actions s;
          e_isolated_row := (hrow_ (e_prob s)).[(mcstrt_ (e_prob s)).[j]] |})
  ∨ ((hincol_ (e_prob s)).[j] = 1 ∧ 0 ≤ (e_implied_free s).[j]
     ∧ isolated (e_prob s) (hrow_ (e_prob s)).[(mcstrt_ (e_prob s)).[j]] = false
     ∧ (eliminate_column s j).1 = eliminate s j).
Proof.
  unfold eliminate_column.
  destruct (Z.eqb_spec (hincol_ (e_prob s)).[j] 1) as [Hn|]; [|by left].
  destruct (Z.leb_spec 0 (e_implied_free s).[j]) as [Hm|]; [|by left]. simpl.
  destruct (isolated _ _) eqn:Hiso; [by right; left|by right; right].
Qed.

End Records.
Lemma aget_outside {A} `{Inhabited A} (l : list A) (i : Z) :
  ¬ (0 ≤ i < Z.of_nat (length l)) → l.[i] = inhabitant.
Proof.
  intros Hi. unfold aget. destruct (Z.ltb_spec i 0); [done|].
  rewrite list_lookup_total_alt, lookup_ge_None_2 by lia. done.
Qed.

Section RecordsLoop.
Context `{Helpers}.
Variable p : problem.
Variables marks look : list Z.

Hypothesis rlo_length : length (rlo_ p) = length (hinrow_ p).
Hypothesis rup_length : length (rup_ p) = length (hinrow_ p).

Lemma records_sound_init :
  records_sound p marks look
    {| e_prob := p; e_implied_free := marks; e_actions := [];
       e_isolated_row := -1 |}.
Proof.
  split; [done|]. split; [done|]. split; [by right|]. simpl.
  split; [intros a Ha; by apply elem_of_nil in Ha|].
  split; [intros a Ha; by apply elem_of_nil in Ha|].
  split; [done|]. intros _. constructor.
Qed.

Lemma records_sound_eliminate s j :
  j ∈ look →
  0 ≤ (e_implied_free s).[j] →
  isolated (e_prob s) (hrow_ (e_prob s)).[(mcstrt_ (e_prob s)).[j]] = false →
  records_sound p marks look s →
  records_sound p marks look (eliminate s j).
Proof using rlo_length rup_length.
  intros Hlook Hmark Hiso
    ((Hre & Hhc & Hmr & Hcl & Hcu) & (Hl1 & Hl2 & Hl3) & Hrows & Hzero
     & Hacts & Hmarks & Hnodup).
  set (row := (hrow_ (e_prob s)).[(mcstrt_ (e_prob s)).[j]]) in *.
  destruct (eliminate_fields s j)
    as ((Hrlo & Hrup & Hhin) & (Hre' & Hhc' & Hmr' & _ & Hcl' & Hcu') & Him & _
        & costs & Ha & _).
  fold row in Hrlo, Hrup, Hhin, Ha.
  assert ((hinrow_ (e_prob s)).[row] ≠ 0) as Hne.
  { intros Hz. by rewrite (isolated_empty _ _ Hz) in Hiso. }
  assert ((rlo_ (e_prob s)).[row] = (rlo_ p).[row]
          ∧ (rup_ (e_prob s)).[row] = (rup_ p).[row]
          ∧ (hinrow_ (e_prob s)).[row] = (hinrow_ p).[row]) as (Hr1 & Hr2 & Hr3).
  { destruct (decide (0 ≤ row < Z.of_nat (length (hinrow_ p)))) as [Hin|Hout].
    - destruct (Hrows row) as [Hrec|Hsame]; [|done].
      apply list_elem_of_fmap in Hrec as (a & -> & Ha').
      by destruct (Hzero a Ha' Hin) as (? & _).
    - rewrite !aget_outside by lia. done. }
  assert (row ∉ action_row <$> e_actions s
          ∨ ¬ (0 ≤ row < Z.of_nat (length (hinrow_ p)))) as Hfresh.
  { destruct (decide (0 ≤ row < Z.of_nat (length (hinrow_ p)))) as [Hin|Hout];
      [left|by right].
    intros Hrec. apply list_elem_of_fmap in Hrec as (a & Heq & Ha').
    rewrite Heq in Hin. destruct (Hzero a Ha' Hin) as (? & _). congruence. }
  assert (saved_row (e_prob s) j row costs = saved_row p j row costs) as Hsaved.
  { unfold saved_row. by rewrite Hre, Hhc, Hmr, Hcl, Hcu, Hr1, Hr2, Hr3. }
  rewrite Hsaved in Ha.
  split; [by rewrite Hre', Hhc', Hmr', Hcl', Hcu'|].
  split; [by rewrite Hrlo, Hrup, Hhin, !length_aset|].
  rewrite Ha, Hrlo, Hrup, Hhin, Him.
  split; [|split; [|split; [|split; [|]]]].
  - intros row'. rewrite fmap_app. simpl.
    destruct (decide (row = row')) as [<-|Hd];
      [left; apply elem_of_app; right; by left|].
    destruct (Hrows row') as [Hrec|Hsame];
      [left; apply elem_of_app; by left|right].
    by rewrite !aget_aset_ne.
  - intros a Hin Hrange. apply elem_of_app in Hin as [Hin|Hin].
    + destruct (Hzero a Hin Hrange) as (Hz1 & Hz2 & Hz3).
      destruct (aget_aset_cases (hinrow_ (e_prob s)) row (action_row a) 0)
        as [->| ->];
      destruct (aget_aset_cases (rlo_ (e_prob s)) row (action_row a) lit_0)
        as [->| ->];
      destruct (aget_aset_cases (rup_ (e_prob s)) row (action_row a) lit_0)
        as [->| ->]; done.
    + apply list_elem_of_singleton in Hin as ->. simpl in *.
      rewrite !aget_aset_eq by lia. done.
  - intros a Hin. apply elem_of_app in Hin as [Hin|Hin]; [by apply Hacts|].
    apply list_elem_of_singleton in Hin as ->. simpl.
    split; [done|]. split; [done|]. by apply Hmarks.
  - intros j'. destruct (aget_aset_cases (e_implied_free s) j j' (-1)) as [->| ->];
      [lia|apply Hmarks].
  - intros Hall. rewrite fmap_app. simpl. apply NoDup_app. split; [|split].
    + apply Hnodup. intros a Hin. apply Hall, elem_of_app. by left.
    + intros row' Hrec Hin. apply list_elem_of_singleton in Hin as ->.
      destruct Hfresh as [Hfresh|Hout]; [done|].
      apply Hout. apply (Hall (saved_row p j row costs)).
      apply elem_of_app. right. by left.
    + apply NoDup_singleton.
Qed.

Lemma records_sound_loop :
  records_sound p marks look (eliminate_singletons look p marks).
Proof using rlo_length rup_length.
  unfold eliminate_singletons.
  apply (for_break_invariant_in (records_sound p marks look));
    [|apply records_sound_init].
  intros s j Hlook Hs.
  destruct (eliminate_column_cases s j) as [->|[->|(_ & Hm & Hiso & ->)]];
    [done|exact Hs|by apply records_sound_eliminate].
Qed.

End RecordsLoop.

(** X7.  Every undo record the second loop writes holds the data of the
    problem as the loop found it: the bounds of the row and of the column,
    the length of the row and the copy of its coefficients and columns;
    and it is the record of a column of the list that the marks mark. *)
Theorem undo_records_hold_original_rows `{Helpers} (p : problem)
  (marks look : list Z) (a : action) :
  length (rlo_ p) = length (hinrow_ p) →
  length (rup_ p) = length (hinrow_ p) →
  a ∈ e_actions (eliminate_singletons look p marks) →
  (action_rlo a = (rlo_ p).[action_row a]
   ∧ action_rup a = (rup_ p).[action_row a]
   ∧ action_clo a = (clo_ p).[action_col a]
   ∧ action_cup a = (cup_ p).[action_col a])
  ∧ (action_ninrow a = (hinrow_ p).[action_row a]
     ∧ action_rowels a
       = (λ k, (rowels_ p).[k])
           <$> range (mrstrt_ p).[action_row a] (hinrow_ p).[action_row a]
     ∧ action_rowcols a
       = (λ k, (hcol_ p).[k])
           <$> range (mrstrt_ p).[action_row a] (hinrow_ p).[action_row a])
  ∧ action_col a ∈ look ∧ 0 ≤ marks.[action_col a].
Proof.
  intros Hl1 Hl2 Ha.
  destruct (records_sound_loop p marks look Hl1 Hl2)
    as (_ & _ & _ & _ & Hacts & _).
  destruct (Hacts a Ha) as (Heq & Hlook & Hmark).
  split; [|split; [|done]]; rewrite Heq; done.
Qed.

(** X8.  After the second loop a row recorded in an action is empty and
    has the bounds [0, 0]; every other row has the bounds and the length it
    had; and no row is recorded twice. *)
Theorem eliminated_rows_emptied `{Helpers} (p : problem) (marks look : list Z) :
  length (rlo_ p) = length (hinrow_ p) →
  length (rup_ p) = length (hinrow_ p) →
  let e := eliminate_singletons look p marks in
  (∀ a, a ∈ e_actions e → 0 ≤ action_row a < Z.of_nat (length (hinrow_ p))) →
  (∀ a, a ∈ e_actions e →
     (hinrow_ (e_prob e)).[action_row a] = 0
     ∧ (rlo_ (e_prob e)).[action_row a] = lit_0
     ∧ (rup_ (e_prob e)).[action_row a] = lit_0)
  ∧ (∀ row, row ∉ action_row <$> e_actions e →
       (hinrow_ (e_prob e)).[row] = (hinrow_ p).[row]
       ∧ (rlo_ (e_prob e)).[row] = (rlo_ p).[row]
       ∧ (rup_ (e_prob e)).[row] = (rup_ p).[row])
  ∧ NoDup (action_row <$> e_actions e).
Proof.
  intros Hl1 Hl2 e Hall.
  destruct (records_sound_loop p marks look Hl1 Hl2)
    as (_ & _ & Hrows & Hzero & _ & _ & Hnodup).
  split; [|split].
  - intros a Ha. by apply Hzero, Hall.
  - intros row Hrow. by destruct (Hrows row) as [?|(? & ? & ?)].
  - by apply Hnodup.
Qed.

(** ** The costs the second loop saves *)

Lemma aget_fmap_range_from {A} `{Inhabited A} (f : Z → A) (lo n i : Z) :
  0 ≤ i < n → (f <$> range lo n).[i] = f (lo + i).
Proof.
  intros Hi. unfold aget, range. destruct (Z.ltb_spec i 0); [lia|].
  rewrite list_lookup_total_alt, list_lookup_fmap, lookup_seqZ_lt by lia.
  simpl. f_equal. lia.
Qed.

Section SavedCosts.
Context `{Helpers}.
Variable p : problem.
Variables (j krs : Z) (costj coeffj : num).

Local Abbreviation step := (move_cost_step p j krs costj coeffj).

Lemma move_cost_step_eq cost save k :
  step (cost, save) k
  = (if negb ((hcol_ p).[k] =? j)
     then cost.[(hcol_ p).[k] <-
            (cost.[(hcol_ p).[k]] + costj * (- (rowels_ p).[k] / coeffj))%num]
     else cost,
     save.[k - krs <- cost.[(hcol_ p).[k]]]).
Proof. unfold move_cost_step. by destruct (negb _). Qed.

(** Through the loop of lines 512-529 over entries [l] in distinct
    columns: the arrays keep their lengths, the cost of [j] and of the
    columns outside the entries stay, and the entry of [save_costs] for an
    entry of [l] is the cost its column had before the loop. *)
Lemma move_cost_fold l cost0 save0 :
  NoDup ((λ k, (hcol_ p).[k]) <$> l) →
  (∀ k, k ∈ l → 0 ≤ k - krs < Z.of_nat (length save0)) →
  let r := foldl step (cost0, save0) l in
  (length r.1 = length cost0 ∧ length r.2 = length save0)
  ∧ (∀ c, c = j ∨ c ∉ (λ k, (hcol_ p).[k]) <$> l → r.1.[c] = cost0.[c])
  ∧ (∀ k, k ∈ l → r.2.[k - krs] = cost0.[(hcol_ p).[k]])
  ∧ (∀ i, (∀ k, k ∈ l → k - krs ≠ i) → r.2.[i] = save0.[i]).
Proof.
  revert cost0 save0. induction l as [|x l IH]; intros cost0 save0 Hnd Hin.
  - simpl. split; [done|]. split; [done|]. split; [|done].
    intros k Hk. by apply elem_of_nil in Hk.
  - rewrite fmap_cons in Hnd. apply NoDup_cons in Hnd as [Hx Hnd].
    cbn [foldl]. rewrite move_cost_step_eq.
    set (cost1 := if negb _ then _ else _).
    set (save1 := save0.[x - krs <- _]).
    assert (length cost1 = length cost0) as Hl1.
    { unfold cost1. destruct (negb _); [apply length_aset|done]. }
    assert (length save1 = length save0) as Hl2 by apply length_aset.
    assert (∀ c, c = j ∨ c ≠ (hcol_ p).[x] → cost1.[c] = cost0.[c]) as Hc1.
    { intros c Hc. unfold cost1.
      destruct (Z.eqb_spec (hcol_ p).[x] j) as [Hj|Hj]; simpl; [done|].
      apply aget_aset_ne. destruct Hc as [->|Hc]; [done|]. by apply not_eq_sym. }
    destruct (IH cost1 save1 Hnd) as ((Hlc & Hls) & Hcost & Hsave & Hrest).
    { intros k Hk. rewrite Hl2. apply Hin. by right. }
    split; [split; congruence|]. split; [|split].
    + intros c Hc. rewrite Hcost.
      * apply Hc1. destruct Hc as [Hc|Hc]; [by left|right].
        intros ->. apply Hc. rewrite fmap_cons. by left.
      * destruct Hc as [Hc|Hc]; [by left|right].
        intros Hc'. apply Hc. rewrite fmap_cons. by right.
    + intros k Hk. apply elem_of_cons in Hk as [->|Hk].
      * rewrite Hrest.
        { unfold save1. apply aget_aset_eq, Hin. by left. }
        intros k Hk Heq. apply Hx.
        replace x with k by lia. by apply (list_elem_of_fmap_2 (λ k, (hcol_ p).[k])).
      * rewrite (Hsave k Hk). apply Hc1. right. intros Heq. apply Hx.
        rewrite <- Heq. by apply (list_elem_of_fmap_2 (λ k, (hcol_ p).[k])).
    + intros i Hi. rewrite Hrest.
      * unfold save1. apply aget_aset_ne. apply Hi. by left.
      * intros k Hk. apply Hi. by right.
Qed.

End SavedCosts.

(** What [move_cost] returns for a row that holds each column once: the
    costs of the columns of the row before the loop, in the order of the
    row, and a cost array that differs from the old one only at [j] and at
    the columns of the row. *)
Lemma move_cost_spec `{Helpers} (p : problem) (j row : Z) (coeffj : num) :
  NoDup (row_columns p row) →
  (move_cost p j row coeffj).2
  = (λ k, (cost_ p).[(hcol_ p).[k]])
      <$> range (mrstrt_ p).[row] (hinrow_ p).[row]
  ∧ length (move_cost p j row coeffj).1 = length (cost_ p)
  ∧ ∀ c, c ≠ j → c ∉ row_columns p row →
      (move_cost p j row coeffj).1.[c] = (cost_ p).[c].
Proof.
  intros Hnd.
  set (krs := (mrstrt_ p).[row]).
  set (n := (hinrow_ p).[row]).
  pose proof (move_cost_fold p j krs (cost_ p).[j] coeffj (range krs n) (cost_ p)
                (replicate (Z.to_nat n) lit_0) Hnd) as Hfold.
  destruct Hfold as ((Hlc & Hls) & Hcs & Hsave & _).
  { intros k Hk. apply elem_of_seqZ in Hk. rewrite length_replicate. lia. }
  unfold move_cost. fold krs. fold n.
  destruct (foldl _ _ _) as [cost save]. simpl in *.
  split; [|split].
  - apply list_eq_aget.
    { by rewrite Hls, length_replicate, length_fmap, length_seqZ. }
    intros i Hi. rewrite Hls, length_replicate in Hi.
    rewrite aget_fmap_range_from by lia.
    replace i with ((krs + i) - krs) at 1 by lia.
    apply Hsave, elem_of_seqZ. lia.
  - by rewrite length_aset.
  - intros c Hj Hc. rewrite aget_aset_ne by done. apply Hcs. by right.
Qed.

(** X9.  When the second loop eliminates a column with nonzero cost through
    a row that holds each column once, the costs it saves in the undo
    record are the costs the columns of the row had before the
    elimination, in the order of the row, and the elimination changes the
    cost of no column outside the row. *)
Theorem saved_costs_are_costs_before `{Helpers} (s : elim_state) (j : Z) :
  let p := e_prob s in
  let row := (hrow_ p).[(mcstrt_ p).[j]] in
  nonzero_cost p j row = true →
  NoDup (row_columns p row) →
  ∃ save_costs,
    e_actions (eliminate s j)
    = e_actions s ++ [saved_row p j row (Some save_costs)]
    ∧ save_costs
      = (λ k, (cost_ p).[(hcol_ p).[k]])
          <$> range (mrstrt_ p).[row] (hinrow_ p).[row]
    ∧ length (cost_ (e_prob (eliminate s j))) = length (cost_ p)
    ∧ ∀ c, c ≠ j → c ∉ row_columns p row →
        (cost_ (e_prob (eliminate s j))).[c] = (cost_ p).[c].
Proof.
  intros p row Hnz Hnd.
  destruct (eliminate_fields s j) as (_ & _ & _ & _ & costs & Ha & Hc).
  fold p in Ha, Hc. fold row in Ha, Hc. rewrite Hnz in Hc.
  injection Hc as Hcost ->.
  destruct (move_cost_spec p j row (colels_ p).[(mcstrt_ p).[j]] Hnd)
    as (Hsave & Hlen & Hother).
  eexists. split; [exact Ha|]. rewrite Hcost. done.
Qed.

(** ** What replaying an undo record writes *)

Lemma fmap_aget_range {A} `{Inhabited A} (l : list A) :
  (λ k, l.[k]) <$> range 0 (Z.of_nat (length l)) = l.
Proof.
  apply list_eq_aget; [by rewrite length_fmap, length_seqZ, Nat2Z.id|].
  intros i Hi. rewrite length_fmap, length_seqZ, Nat2Z.id in Hi.
  by rewrite aget_fmap_range_from.
Qed.

(** An element of an array is the entry at one of its indices. *)
Lemma elem_of_aget {A} `{Inhabited A} (l : list A) (x : A) :
  x ∈ l → ∃ i, 0 ≤ i < Z.of_nat (length l) ∧ l.[i] = x.
Proof.
  intros Hx. apply list_elem_of_lookup in Hx as [n Hn].
  exists (Z.of_nat n). split.
  - apply lookup_lt_Some in Hn. lia.
  - unfold aget. destruct (Z.ltb_spec (Z.of_nat n) 0); [lia|].
    rewrite Nat2Z.id. by apply list_lookup_total_correct.
Qed.

Section Replay.
Context `{Helpers} `{PostsolveHelpers}.

Lemma restore_entry_cost f m k :
  Post.cost_ (restore_entry f m k)
  = match action_costs f with
    | Some save_costs =>
        (Post.cost_ m).[(action_rowcols f).[k] <- save_costs.[k]]
    | None => Post.cost_ m
    end.
Proof. unfold restore_entry. by destruct (action_costs f), (_ =? _). Qed.

Lemma restore_entry_bounds f m k :
  Post.rlo_ (restore_entry f m k) = Post.rlo_ m
  ∧ Post.rup_ (restore_entry f m k) = Post.rup_ m
  ∧ Post.clo_ (restore_entry f m k)
    = (if (action_rowcols f).[k] =? action_col f
       then (Post.clo_ m).[action_col f <- action_clo f] else Post.clo_ m)
  ∧ Post.cup_ (restore_entry f m k)
    = (if (action_rowcols f).[k] =? action_col f
       then (Post.cup_ m).[action_col f <- action_cup f] else Post.cup_ m).
Proof. unfold restore_entry. by destruct (action_costs f), (_ =? _). Qed.

(** The solution part of the replay writes none of the arrays the
    restoring part writes. *)
Lemma compute_solution_frame f m :
  (Post.cost_ (compute_solution f m) = Post.cost_ m
   ∧ Post.rlo_ (compute_solution f m) = Post.rlo_ m
   ∧ Post.rup_ (compute_solution f m) = Post.rup_ m
   ∧ Post.clo_ (compute_solution f m) = Post.clo_ m
   ∧ Post.cup_ (compute_solution f m) = Post.cup_ m)
  ∧ (Post.colels_ (compute_solution f m) = Post.colels_ m
     ∧ Post.hrow_ (compute_solution f m) = Post.hrow_ m
     ∧ Post.mcstrt_ (compute_solution f m) = Post.mcstrt_ m
     ∧ Post.hincol_ (compute_solution f m) = Post.hincol_ m
     ∧ Post.link_ (compute_solution f m) = Post.link_ m
     ∧ Post.free_list_ (compute_solution f m) = Post.free_list_ m)
  ∧ (Post.cdone_ (compute_solution f m) = Post.cdone_ m
     ∧ Post.rdone_ (compute_solution f m) = Post.rdone_ m).
Proof.
  unfold compute_solution.
  destruct (rest_of_row f (Post.sol_ m)) as [act coeff].
  destruct (where_to_put f m =? 0); [destruct (_ || _)|]; done.
Qed.

Lemma restore_row_bounds f m :
  Post.rlo_ (restore_row f m) = (Post.rlo_ m).[action_row f <- action_rlo f]
  ∧ Post.rup_ (restore_row f m) = (Post.rup_ m).[action_row f <- action_rup f]
  ∧ (action_clo f = (Post.clo_ m).[action_col f] →
     Post.clo_ (restore_row f m) = Post.clo_ m)
  ∧ (action_cup f = (Post.cup_ m).[action_col f] →
     Post.cup_ (restore_row f m) = Post.cup_ m).
Proof.
  unfold restore_row. simpl.
  split; [|split; [|split]].
  - f_equal. apply (foldl_invariant (λ m', Post.rlo_ m' = Post.rlo_ m)); [|done].
    intros m' k <-. apply restore_entry_bounds.
  - f_equal. apply (foldl_invariant (λ m', Post.rup_ m' = Post.rup_ m)); [|done].
    intros m' k <-. apply restore_entry_bounds.
  - intros Hclo.
    apply (foldl_invariant (λ m', Post.clo_ m' = Post.clo_ m)); [|done].
    intros m' k Hm'.
    destruct (restore_entry_bounds f m' k) as (_ & _ & -> & _).
    destruct (_ =? _); [|done]. rewrite Hm', Hclo. apply aset_same.
  - intros Hcup.
    apply (foldl_invariant (λ m', Post.cup_ m' = Post.cup_ m)); [|done].
    intros m' k Hm'.
    destruct (restore_entry_bounds f m' k) as (_ & _ & _ & ->).
    destruct (_ =? _); [|done]. rewrite Hm', Hcup. apply aset_same.
Qed.

(** The cost array through the loop that puts the row back. *)
Lemma restore_row_cost f m :
  Post.cost_ (restore_row f m)
  = match action_costs f with
    | Some save_costs =>
        foldl (λ c k, c.[(action_rowcols f).[k] <- save_costs.[k]])
          (Post.cost_ m) (range 0 (action_ninrow f))
    | None => Post.cost_ m
    end.
Proof.
  unfold restore_row. simpl. generalize (range 0 (action_ninrow f)) as l.
  intros l. revert m. induction l as [|k l IH]; intros m; simpl.
  - by destruct (action_costs f).
  - rewrite IH, restore_entry_cost. by destruct (action_costs f).
Qed.

End Replay.

Lemma restored_costs {A} `{Inhabited A} (cols : list Z) (save : list A)
  (l : list Z) (c0 : list A) :
  NoDup ((λ k, cols.[k]) <$> l) →
  let r := foldl (λ c k, c.[cols.[k] <- save.[k]]) c0 l in
  length r = length c0
  ∧ (∀ k, k ∈ l → 0 ≤ cols.[k] < Z.of_nat (length c0) → r.[cols.[k]] = save.[k])
  ∧ (∀ c, c ∉ (λ k, cols.[k]) <$> l → r.[c] = c0.[c]).
Proof.
  revert c0. induction l as [|x l IH]; intros c0 Hnd.
  - simpl. split; [done|]. split; [|done].
    intros k Hk. by apply elem_of_nil in Hk.
  - rewrite fmap_cons in Hnd. apply NoDup_cons in Hnd as [Hx Hnd].
    cbn [foldl]. destruct (IH (c0.[cols.[x] <- save.[x]]) Hnd) as (Hl & Hin & Hout).
    rewrite length_aset in Hl, Hin. split; [done|]. split.
    + intros k Hk Hrange. apply elem_of_cons in Hk as [->|Hk]; [|by apply Hin].
      rewrite Hout by done. by apply aget_aset_eq.
    + intros c Hc. rewrite Hout.
      * apply aget_aset_ne. intros Heq. apply Hc. rewrite fmap_cons, Heq. by left.
      * intros Hc'. apply Hc. rewrite fmap_cons. by right.
Qed.
(** ** Presolve, then postsolve *)

Section RoundTrip.
Context `{Helpers} `{PostsolveHelpers}.

(** Replaying the record of an elimination on a matrix that holds the data
    the elimination left gives back the data it found. *)
Lemma postsolve_action_undoes_eliminate (s : elim_state) (j : Z) (a : action)
  (m : Post.matrix) :
  e_actions (eliminate s j) = e_actions s ++ [a] →
  record_row_sound (length (cost_ (e_prob s))) a →
  same_data m (e_prob (eliminate s j)) →
  same_data (postsolve_action m a) (e_prob s).
Proof.
  intros Ha (Hnd & Hj & Hrange) (Hcost & Hrlo & Hrup & Hclo & Hcup).
  set (p := e_prob s) in *.
  set (row := (hrow_ p).[(mcstrt_ p).[j]]).
  destruct (eliminate_fields s j)
    as ((Hrlo' & Hrup' & _) & (_ & _ & _ & _ & Hclo' & Hcup') & _ & _
        & costs & Ha' & Hc).
  fold p in Hrlo', Hrup', Hclo', Hcup', Ha', Hc.
  fold row in Hrlo', Hrup', Ha', Hc.
  rewrite Ha' in Ha. apply app_inj_tail in Ha as [_ <-].
  unfold postsolve_action, same_data.
  destruct (compute_solution_frame (saved_row p j row costs)
              (restore_row (saved_row p j row costs) m))
    as ((-> & -> & -> & -> & ->) & _).
  rewrite restore_row_cost, Hcost.
  destruct (restore_row_bounds (saved_row p j row costs) m)
    as (-> & -> & Hc1 & Hc2).
  rewrite Hc1, Hc2 by (simpl; congruence).
  rewrite Hrlo, Hrup, Hclo, Hcup, Hrlo', Hrup', Hclo', Hcup'. simpl.
  rewrite !aset_aset, !aset_same.
  split; [|done].
  destruct (nonzero_cost p j row) eqn:Hnz; [|by destruct Hc as [-> ->]].
  injection Hc as -> ->. simpl in Hnd, Hj, Hrange.
  destruct (move_cost_spec p j row (colels_ p).[(mcstrt_ p).[j]] Hnd)
    as (Hsave & Hlen & Hother).
  set (cols := (λ k, (hcol_ p).[k]) <$> range (mrstrt_ p).[row] (hinrow_ p).[row])
    in *.
  assert ((λ k, cols.[k]) <$> range 0 (hinrow_ p).[row] = cols) as Hcols.
  { destruct (Z.le_gt_cases 0 (hinrow_ p).[row]) as [Hn|Hn].
    - transitivity ((λ k, cols.[k]) <$> range 0 (Z.of_nat (length cols)));
        [|apply fmap_aget_range].
      do 2 f_equal. unfold cols. rewrite length_fmap, length_seqZ. lia.
    - unfold cols, range. rewrite !seqZ_nil by lia. done. }
  pose proof (restored_costs cols (move_cost p j row (colels_ p).[(mcstrt_ p).[j]]).2
                (range 0 (hinrow_ p).[row])
                (move_cost p j row (colels_ p).[(mcstrt_ p).[j]]).1) as Hres.
  rewrite Hcols in Hres. destruct (Hres Hnd) as (Hl & Hin & Hout).
  apply list_eq_aget; [congruence|].
  intros i Hi. rewrite Hl, Hlen in Hi.
  destruct (decide (i ∈ cols)) as [Hic|Hic].
  - apply elem_of_aget in Hic as (k & Hk & <-).
    assert (0 ≤ k < (hinrow_ p).[row]) as Hk'.
    { unfold cols in Hk. rewrite length_fmap, length_seqZ in Hk. lia. }
    rewrite Hin; [|by apply elem_of_seqZ|by rewrite Hlen].
    rewrite Hsave, aget_fmap_range_from by done.
    unfold cols. by rewrite aget_fmap_range_from.
  - rewrite Hout by done. apply Hother; [|done]. by intros ->.
Qed.

(** The loop of lines 462-561 from [s], with the actions it adds: replaying
    them from the last to the first undoes what the loop did to the costs
    and the bounds. *)
Lemma postsolve_undoes_loop (look : list Z) (s : elim_state) :
  ∃ rest,
    e_actions (for_break eliminate_column s look).1 = e_actions s ++ rest
    ∧ length (cost_ (e_prob (for_break eliminate_column s look).1))
      = length (cost_ (e_prob s))
    ∧ ∀ m,
        (∀ a, a ∈ rest → record_row_sound (length (cost_ (e_prob s))) a) →
        same_data m (e_prob (for_break eliminate_column s look).1) →
        same_data (foldl postsolve_action m (reverse rest)) (e_prob s).
Proof.
  revert s. induction look as [|x look IH]; intros s.
  - exists []. simpl. split; [by rewrite app_nil_r|]. done.
  - simpl. unfold eliminate_column at 1 3 5.
    destruct (_ && _); [|apply IH].
    destruct (isolated _ _) eqn:Hiso.
    { exists []. simpl. split; [by rewrite app_nil_r|]. done. }
    destruct (IH (eliminate s x)) as (rest & Hacts & Hlen & Hundo).
    destruct (eliminate_fields s x) as (_ & _ & _ & _ & costs & Ha & Hc).
    assert (length (cost_ (e_prob (eliminate s x))) = length (cost_ (e_prob s)))
      as Hlen1.
    { destruct (nonzero_cost _ _ _); [|by destruct Hc as [-> _]].
      injection Hc as -> _. unfold move_cost.
      destruct (foldl _ _ _) as [cost save] eqn:Hf. simpl.
      rewrite length_aset.
      assert (length (foldl (move_cost_step (e_prob s) x
                               (mrstrt_ (e_prob s)).[(hrow_ (e_prob s)).[(mcstrt_ (e_prob s)).[x]]]
                               (cost_ (e_prob s)).[x]
                               (colels_ (e_prob s)).[(mcstrt_ (e_prob s)).[x]])
                        (cost_ (e_prob s),
                         replicate (Z.to_nat (hinrow_ (e_prob s)).[(hrow_ (e_prob s)).[(mcstrt_ (e_prob s)).[x]]]) lit_0)
                        (range (mrstrt_ (e_prob s)).[(hrow_ (e_prob s)).[(mcstrt_ (e_prob s)).[x]]]
                           (hinrow_ (e_prob s)).[(hrow_ (e_prob s)).[(mcstrt_ (e_prob s)).[x]]])).1
              = length (cost_ (e_prob s))) as Hlf.
      { apply (foldl_invariant (λ r, length r.1 = length (cost_ (e_prob s))));
          [|done].
        intros [c sv] k Hr. rewrite move_cost_step_eq. simpl.
        destruct (negb _); [by rewrite length_aset|done]. }
      by rewrite Hf in Hlf. }
    eexists (_ :: rest). rewrite Hacts, Ha, <- app_assoc. simpl.
    split; [done|]. split; [congruence|].
    intros m Hsound Hm. rewrite reverse_cons, foldl_app. simpl.
    apply (postsolve_action_undoes_eliminate s x); [done| |].
    + apply Hsound. by left.
    + apply Hundo; [|done]. intros a Hin. rewrite Hlen1. apply Hsound. by right.
Qed.

(** X10.  Presolve, then postsolve.  When every undo record of the second
    loop has a saved row that holds each column once, holds the column of
    the record and holds columns of the problem only, replaying the
    records on a matrix that holds the costs, the row bounds and the column
    bounds the loop left gives back the costs, the row bounds and the
    column bounds the loop found, entry for entry. *)
Theorem postsolve_restores_costs_and_bounds (p : problem)
  (marks look : list Z) (m : Post.matrix) :
  let e := eliminate_singletons look p marks in
  (∀ a, a ∈ e_actions e → record_row_sound (length (cost_ p)) a) →
  same_data m (e_prob e) →
  same_data (postsolve (Z.of_nat (length (e_actions e))) (e_actions e) m) p.
Proof.
  intros e Hsound Hm. unfold e, eliminate_singletons in *.
  set (s0 := {| e_prob := p; e_implied_free := marks; e_actions := [];
                e_isolated_row := -1 |}) in *.
  destruct (postsolve_undoes_loop look s0) as (rest & Hacts & _ & Hundo).
  simpl in Hacts. unfold postsolve.
  rewrite Nat2Z.id, firstn_all, Hacts.
  apply (Hundo m); [|done]. intros a Ha. apply Hsound. by rewrite Hacts.
Qed.

End RoundTrip.

(** ** The solution postsolve computes *)

Section SolutionCases.
Context `{Helpers} `{PostsolveHelpers}.

(** [where] is [0], or [-1] with a cost that is not negative, or [1] with
    a negative cost. *)
Lemma where_to_put_cases f m :
  let thisCost := (Post.maxmin_ m * (Post.cost_ m).[action_col f])%num in
  where_to_put f m = 0
  ∨ (where_to_put f m = -1 ∧ (thisCost >=? lit_0)%num = true)
  ∨ (where_to_put f m = 1 ∧ (thisCost <? lit_0)%num = true).
Proof.
  intros thisCost. unfold where_to_put. fold thisCost.
  destruct (rest_of_row f (Post.sol_ m)) as [act coeff].
  destruct (if (coeff >? of_int 0)%num then _ else _) as [loActivity upActivity].
  match goal with |- context [negb (?w =? 0)] => set (where_ := w) end.
  assert (where_ = 0
          ∨ (where_ = -1 ∧ (thisCost >=? lit_0)%num = true)
          ∨ (where_ = 1 ∧ (thisCost <? lit_0)%num = true)) as Hw.
  { unfold where_.
    destruct (_ <? _ + _)%num, (thisCost >=? lit_0)%num; simpl;
      try (by right; left);
      destruct (_ >? _ - _)%num, (thisCost <? lit_0)%num; simpl;
      (by left) || (by right; right). }
  destruct (negb (where_ =? 0)); [|exact Hw].
  destruct (worst_dj f m _ >? Post.ztoldj_ m)%num; [|exact Hw].
  destruct (worst_dj f m _ <? worst_dj f m _)%num; [by left|exact Hw].
Qed.

(** The four ways lines 762-801 end. *)
Lemma compute_solution_cases f m :
  let irow := action_row f in
  let icol := action_col f in
  let act := (rest_of_row f (Post.sol_ m)).1 in
  let coeff := (rest_of_row f (Post.sol_ m)).2 in
  let thisCost := (Post.maxmin_ m * (Post.cost_ m).[icol])%num in
  let possibleDual := (thisCost / coeff)%num in
  let m' := compute_solution f m in
  (∃ bound status,
     (status = atUpperBound ∧ bound = (Post.rup_ m).[irow]
      ∨ status = atLowerBound ∧ bound = (Post.rlo_ m).[irow])
     ∧ Post.sol_ m' = (Post.sol_ m).[icol <- ((bound - act) / coeff)%num]
     ∧ Post.rcosts_ m'
       = (spread_dual f possibleDual (Post.rcosts_ m)).[icol <- lit_0]
     ∧ Post.acts_ m' = (Post.acts_ m).[irow <- bound]
     ∧ Post.rowduals_ m' = (Post.rowduals_ m).[irow <- possibleDual]
     ∧ Post.status_arrays_ m'
       = setColumnStatus icol basic
           (setRowStatus irow status (Post.status_arrays_ m)))
  ∨ (∃ bound status,
       (status = atLowerBound ∧ bound = (Post.clo_ m).[icol]
        ∧ (thisCost >=? lit_0)%num = true
        ∨ status = atUpperBound ∧ bound = (Post.cup_ m).[icol]
          ∧ (thisCost <? lit_0)%num = true)
       ∧ Post.sol_ m' = (Post.sol_ m).[icol <- bound]
       ∧ Post.rcosts_ m' = (Post.rcosts_ m).[icol <- thisCost]
       ∧ Post.acts_ m'
         = (Post.acts_ m).[irow <-
             (act + ((Post.sol_ m).[icol <- bound]).[icol] * coeff)%num]
       ∧ Post.rowduals_ m' = (Post.rowduals_ m).[irow <- lit_0]
       ∧ Post.status_arrays_ m'
         = setColumnStatus icol status
             (setRowStatus irow basic (Post.status_arrays_ m))).
Proof.
  intros irow icol act coeff thisCost possibleDual m'.
  unfold m', compute_solution. fold irow icol thisCost.
  unfold possibleDual, act, coeff.
  destruct (rest_of_row f (Post.sol_ m)) as [act0 coeff0]. simpl.
  destruct (where_to_put_cases f m) as [Hw|[[Hw Hc]|[Hw Hc]]];
    rewrite Hw; simpl.
  - left. destruct (_ || _).
    + exists (Post.rup_ m).[irow], atUpperBound. split; [by left|done].
    + exists (Post.rlo_ m).[irow], atLowerBound. split; [by right|done].
  - right. exists (Post.clo_ m).[icol], atLowerBound. split; [by left|done].
  - right. exists (Post.cup_ m).[icol], atUpperBound. split; [by right|done].
Qed.

End SolutionCases.
Section ReplayFields.
Context `{Helpers} `{PostsolveHelpers}.

Lemma restore_entry_rest f m k :
  Post.sol_ (restore_entry f m k) = Post.sol_ m
  ∧ Post.acts_ (restore_entry f m k) = Post.acts_ m
  ∧ Post.rowduals_ (restore_entry f m k) = Post.rowduals_ m
  ∧ Post.status_arrays_ (restore_entry f m k) = Post.status_arrays_ m
  ∧ Post.maxmin_ (restore_entry f m k) = Post.maxmin_ m
  ∧ Post.stdout_ (restore_entry f m k) = Post.stdout_ m.
Proof. unfold restore_entry. by destruct (action_costs f), (_ =? _). Qed.

(** Putting the row back leaves the solution, the activities, the duals
    and the statuses alone. *)
Lemma restore_row_rest f m :
  Post.sol_ (restore_row f m) = Post.sol_ m
  ∧ Post.acts_ (restore_row f m) = Post.acts_ m
  ∧ Post.rowduals_ (restore_row f m) = Post.rowduals_ m
  ∧ Post.status_arrays_ (restore_row f m) = Post.status_arrays_ m
  ∧ Post.maxmin_ (restore_row f m) = Post.maxmin_ m
  ∧ Post.stdout_ (restore_row f m) = Post.stdout_ m.
Proof.
  unfold restore_row. simpl.
  apply (foldl_invariant
           (λ m', Post.sol_ m' = Post.sol_ m ∧ Post.acts_ m' = Post.acts_ m
                  ∧ Post.rowduals_ m' = Post.rowduals_ m
                  ∧ Post.status_arrays_ m' = Post.status_arrays_ m
                  ∧ Post.maxmin_ m' = Post.maxmin_ m
                  ∧ Post.stdout_ m' = Post.stdout_ m)); [|done].
  intros m' k (<- & <- & <- & <- & <- & <-). apply restore_entry_rest.
Qed.

Lemma restore_entry_rcosts f m k :
  Post.rcosts_ (restore_entry f m k)
  = match action_costs f with
    | Some save_costs =>
        (Post.rcosts_ m).[(action_rowcols f).[k] <-
          ((Post.rcosts_ m).[(action_rowcols f).[k]]
           + Post.maxmin_ m
             * (save_costs.[k] - (Post.cost_ m).[(action_rowcols f).[k]]))%num]
    | None => Post.rcosts_ m
    end.
Proof. unfold restore_entry. by destruct (action_costs f), (_ =? _). Qed.

(** The reduced costs and the costs through the loop that puts the row
    back, over entries [l] in distinct columns: a column of the entries
    takes the saved cost, and its reduced cost moves by [maxmin] times the
    change of its cost; the other columns keep both. *)
Lemma restore_costs_fold f l m save_costs :
  action_costs f = Some save_costs →
  NoDup ((λ k, (action_rowcols f).[k]) <$> l) →
  let m' := foldl (restore_entry f) m l in
  (length (Post.rcosts_ m') = length (Post.rcosts_ m)
   ∧ length (Post.cost_ m') = length (Post.cost_ m))
  ∧ (∀ c, c ∉ (λ k, (action_rowcols f).[k]) <$> l →
       (Post.rcosts_ m').[c] = (Post.rcosts_ m).[c]
       ∧ (Post.cost_ m').[c] = (Post.cost_ m).[c])
  ∧ (∀ k, k ∈ l →
       0 ≤ (action_rowcols f).[k] < Z.of_nat (length (Post.rcosts_ m)) →
       0 ≤ (action_rowcols f).[k] < Z.of_nat (length (Post.cost_ m)) →
       (Post.cost_ m').[(action_rowcols f).[k]] = save_costs.[k]
       ∧ (Post.rcosts_ m').[(action_rowcols f).[k]]
         = ((Post.rcosts_ m).[(action_rowcols f).[k]]
            + Post.maxmin_ m
              * (save_costs.[k] - (Post.cost_ m).[(action_rowcols f).[k]]))%num).
Proof.
  intros Hsc. revert m. induction l as [|x l IH]; intros m Hnd.
  - simpl. split; [done|]. split; [done|].
    intros k Hk. by apply elem_of_nil in Hk.
  - rewrite fmap_cons in Hnd. apply NoDup_cons in Hnd as [Hx Hnd].
    cbn [foldl].
    destruct (IH (restore_entry f m x) Hnd) as ((Hl1 & Hl2) & Hout & Hin).
    assert (Post.maxmin_ (restore_entry f m x) = Post.maxmin_ m) as Hmm
      by apply restore_entry_rest.
    rewrite Hmm in Hin.
    rewrite restore_entry_rcosts, Hsc in Hl1, Hout, Hin.
    rewrite restore_entry_cost, Hsc in Hl2, Hout, Hin.
    rewrite length_aset in Hl1, Hl2, Hin.
    split; [done|]. split.
    + intros c Hc. rewrite fmap_cons in Hc.
      destruct (Hout c) as [-> ->]; [intros Hc'; apply Hc; by right|].
      rewrite !aget_aset_ne; [done|intros Heq..]; apply Hc; rewrite Heq; by left.
    + intros k Hk Hr1 Hr2.
      apply elem_of_cons in Hk as [->|Hk].
      * destruct (Hout (action_rowcols f).[x] Hx) as [-> ->].
        rewrite !aget_aset_eq by done. done.
      * assert ((action_rowcols f).[x] ≠ (action_rowcols f).[k]) as Hne.
        { intros Heq. apply Hx. rewrite Heq.
          by apply (list_elem_of_fmap_2 (λ k, (action_rowcols f).[k])). }
        destruct (Hin k Hk) as [-> ->]; [by rewrite ?length_aset..|].
        by rewrite !aget_aset_ne.
Qed.

Lemma restore_costs_none f l m :
  action_costs f = None →
  Post.rcosts_ (foldl (restore_entry f) m l) = Post.rcosts_ m
  ∧ Post.cost_ (foldl (restore_entry f) m l) = Post.cost_ m.
Proof.
  intros Hsc.
  apply (foldl_invariant
           (λ m', Post.rcosts_ m' = Post.rcosts_ m
                  ∧ Post.cost_ m' = Post.cost_ m)); [|done].
  intros m' k [<- <-]. by rewrite restore_entry_rcosts, restore_entry_cost, Hsc.
Qed.

End ReplayFields.
Section ReplayStatus.
Context `{Helpers} `{PostsolveHelpers}.

Lemma length_spread_dual f possibleDual rcosts :
  length (spread_dual f possibleDual rcosts) = length rcosts.
Proof.
  unfold spread_dual.
  apply (foldl_invariant (λ r, length r = length rcosts)); [|done].
  intros r k <-. apply length_aset.
Qed.

Lemma length_restore_row_rcosts f m :
  length (Post.rcosts_ (restore_row f m)) = length (Post.rcosts_ m).
Proof.
  unfold restore_row. simpl.
  apply (foldl_invariant
           (λ m', length (Post.rcosts_ m') = length (Post.rcosts_ m))); [|done].
  intros m' k <-. rewrite restore_entry_rcosts.
  destruct (action_costs f); [apply length_aset|done].
Qed.

(** X11.  Replaying an undo record makes exactly one of the row and the
    column basic.  Either the column is basic, the row is at its upper or
    at its lower bound with that bound as its activity, and the reduced
    cost of the column is zero; or the row is basic with a zero dual, and
    the column is at its lower bound with a cost that is not negative, or
    at its upper bound with a negative cost, its value being that bound and
    its reduced cost [maxmin] times its cost. *)
Theorem replay_makes_one_basic (f : action) (m : Post.matrix) :
  let irow := action_row f in
  let icol := action_col f in
  let m' := postsolve_action m f in
  let thisCost := (Post.maxmin_ m' * (Post.cost_ m').[icol])%num in
  0 ≤ icol < Z.of_nat (length (Post.sol_ m)) →
  0 ≤ icol < Z.of_nat (length (Post.rcosts_ m)) →
  0 ≤ irow < Z.of_nat (length (Post.acts_ m)) →
  0 ≤ irow < Z.of_nat (length (Post.rowduals_ m)) →
  (∃ status bound,
     (status = atUpperBound ∧ bound = (Post.rup_ m').[irow]
      ∨ status = atLowerBound ∧ bound = (Post.rlo_ m').[irow])
     ∧ Post.status_arrays_ m'
       = setColumnStatus icol basic
           (setRowStatus irow status (Post.status_arrays_ m))
     ∧ (Post.acts_ m').[irow] = bound
     ∧ (Post.rcosts_ m').[icol] = lit_0)
  ∨ (∃ status bound,
       (status = atLowerBound ∧ bound = (Post.clo_ m').[icol]
        ∧ (thisCost >=? lit_0)%num = true
        ∨ status = atUpperBound ∧ bound = (Post.cup_ m').[icol]
          ∧ (thisCost <? lit_0)%num = true)
       ∧ Post.status_arrays_ m'
         = setColumnStatus icol status
             (setRowStatus irow basic (Post.status_arrays_ m))
       ∧ (Post.sol_ m').[icol] = bound
       ∧ (Post.rowduals_ m').[irow] = lit_0
       ∧ (Post.rcosts_ m').[icol] = thisCost).
Proof.
  intros irow icol m' thisCost Hsol Hrc Hacts Hduals.
  unfold thisCost, m', postsolve_action.
  destruct (compute_solution_frame f (restore_row f m))
    as ((-> & -> & -> & -> & ->) & _).
  destruct (restore_row_rest f m) as (Hs & Ha & Hd & Hst & Hmm & _).
  pose proof (length_restore_row_rcosts f m) as Hlr.
  assert (Post.maxmin_ (compute_solution f (restore_row f m))
          = Post.maxmin_ (restore_row f m)) as ->.
  { unfold compute_solution.
    destruct (rest_of_row f _) as [act coeff].
    destruct (where_to_put f (restore_row f m) =? 0); [destruct (_ || _)|]; done. }
  destruct (compute_solution_cases f (restore_row f m))
    as [(bound & status & Hcase & Hsol' & Hrc' & Hacts' & Hd' & Hst')
       |(bound & status & Hcase & Hsol' & Hrc' & Hacts' & Hd' & Hst')];
    fold irow icol in Hcase, Hsol', Hrc', Hacts', Hd', Hst';
    rewrite Hsol', Hrc', Hacts', Hd', Hst', Hst; [left|right];
    exists status, bound.
  - split; [done|]. split; [done|].
    rewrite !aget_aset_eq; [done|by rewrite length_spread_dual, Hlr|by rewrite Ha].
  - split; [done|]. split; [done|].
    rewrite !aget_aset_eq; [done|by rewrite Hlr|by rewrite Hd|by rewrite Hs].
Qed.

End ReplayStatus.
Lemma spread_dual_fold `{Num} (f : action) (possibleDual : num) (l : list Z)
  (rcosts : list num) :
  NoDup ((λ k, (action_rowcols f).[k]) <$> l) →
  let r :=
    foldl (λ rcosts k,
      rcosts.[(action_rowcols f).[k] <-
        (rcosts.[(action_rowcols f).[k]]
         - possibleDual * (action_rowels f).[k])%num]) rcosts l in
  (∀ c, c ∉ (λ k, (action_rowcols f).[k]) <$> l → r.[c] = rcosts.[c])
  ∧ (∀ k, k ∈ l →
       0 ≤ (action_rowcols f).[k] < Z.of_nat (length rcosts) →
       r.[(action_rowcols f).[k]]
       = (rcosts.[(action_rowcols f).[k]]
          - possibleDual * (action_rowels f).[k])%num).
Proof.
  revert rcosts. induction l as [|x l IH]; intros rcosts Hnd.
  - simpl. split; [done|]. intros k Hk. by apply elem_of_nil in Hk.
  - rewrite fmap_cons in Hnd. apply NoDup_cons in Hnd as [Hx Hnd].
    cbn [foldl].
    destruct (IH (rcosts.[(action_rowcols f).[x] <-
                    (rcosts.[(action_rowcols f).[x]]
                     - possibleDual * (action_rowels f).[x])%num]) Hnd)
      as (Hout & Hin).
    rewrite length_aset in Hin. split.
    + intros c Hc. rewrite fmap_cons in Hc.
      rewrite Hout by (intros Hc'; apply Hc; by right).
      apply aget_aset_ne. intros Heq. apply Hc. rewrite Heq. by left.
    + intros k Hk Hr. apply elem_of_cons in Hk as [->|Hk].
      * rewrite Hout by done. by apply aget_aset_eq.
      * rewrite Hin by done. rewrite aget_aset_ne; [done|].
        intros Heq. apply Hx. rewrite Heq.
        by apply (list_elem_of_fmap_2 (λ k, (action_rowcols f).[k])).
Qed.

(** ** The replayed row in exact arithmetic *)

Section ReplayExact.
Context (Hh : @Helpers Qc_num) (Hp : PostsolveHelpers).
Variable f : @action Qc_num.

Local Abbreviation icol := (action_col f).
Local Abbreviation irow := (action_row f).
Local Abbreviation cols := (λ k, (action_rowcols f).[k]).
Local Abbreviation els := (λ k, (action_rowels f).[k]).

Lemma value_fold_add (sol : list (@num Qc_num)) (a t : @num Qc_num) l :
  foldl (λ acc k, (acc + els k * sol.[cols k])%num) (a + t)%num l
  = (foldl (λ acc k, (acc + els k * sol.[cols k])%num) a l + t)%num.
Proof.
  revert a. induction l as [|x l IH]; intros a; [done|].
  cbn [foldl]. rewrite <- IH. f_equal. qc_ring.
Qed.

(** [act] and [coeff] of lines 683-693 against the activity of the row at
    values [sol'] that differ from [sol] at most at the column of the
    record. *)
Lemma rest_of_row_fold (sol sol' : list (@num Qc_num)) l :
  (∀ c, c ≠ icol → sol'.[c] = sol.[c]) →
  ∀ acc0 c0,
    let r :=
      foldl (λ '(act, coeff) k,
        if cols k =? icol then (act, els k)
        else ((act + els k * sol.[cols k])%num, coeff)) (acc0, c0) l in
    (icol ∉ cols <$> l →
     r.2 = c0
     ∧ foldl (λ acc k, (acc + els k * sol'.[cols k])%num) acc0 l = r.1)
    ∧ (NoDup (cols <$> l) → ∀ k0, k0 ∈ l → cols k0 = icol →
       r.2 = els k0
       ∧ foldl (λ acc k, (acc + els k * sol'.[cols k])%num) acc0 l
         = (r.1 + els k0 * sol'.[icol])%num).
Proof.
  intros Hsol. induction l as [|x l IH]; intros acc0 c0.
  - simpl. split; [done|]. intros _ k0 Hk0. by apply elem_of_nil in Hk0.
  - cbn [foldl]. rewrite fmap_cons.
    destruct (Z.eqb_spec (cols x) icol) as [Hx|Hx].
    + destruct (IH acc0 (els x)) as [Hi _]. split.
      * intros Hout. exfalso. apply Hout. rewrite <- Hx. by left.
      * intros Hnd k0 Hk0 Hc. apply NoDup_cons in Hnd as [Hnx _].
        rewrite Hx in Hnx. destruct (Hi Hnx) as [Hcoeff Hval].
        assert (k0 = x) as ->.
        { apply elem_of_cons in Hk0 as [->|Hk0]; [done|].
          exfalso. apply Hnx. rewrite <- Hc.
          by apply (list_elem_of_fmap_2 cols). }
        split; [done|]. rewrite value_fold_add, Hval, Hx. done.
    + rewrite <- (Hsol (cols x) Hx).
      destruct (IH (acc0 + els x * sol'.[cols x])%num c0) as [Hi Hii]. split.
      * intros Hout. apply Hi. intros Hin. apply Hout. by right.
      * intros Hnd k0 Hk0 Hc. apply NoDup_cons in Hnd as [_ Hnd].
        apply (Hii Hnd); [|done].
        apply elem_of_cons in Hk0 as [->|Hk0]; [done|done].
Qed.

Variable m : @Post.matrix Qc_num Hp.
Variable k0 : Z.

Hypothesis distinct_columns : NoDup (saved_columns f).
Hypothesis entry_of_column : 0 ≤ k0 < action_ninrow f ∧ cols k0 = icol.
Hypothesis coefficient_nonzero : els k0 ≠ 0%Qc.

Lemma rest_of_row_coeff (sol : list (@num Qc_num)) :
  (rest_of_row f sol).2 = els k0.
Proof using distinct_columns entry_of_column.
  destruct entry_of_column as [Hk Hc].
  destruct (rest_of_row_fold sol sol (range 0 (action_ninrow f)) (λ _ _, eq_refl)
              lit_0 lit_0) as [_ Hii].
  destruct (Hii distinct_columns k0) as [Hcoeff _]; [by apply elem_of_seqZ|done|].
  exact Hcoeff.
Qed.

Lemma rest_of_row_value (sol sol' : list (@num Qc_num)) :
  (∀ c, c ≠ icol → sol'.[c] = sol.[c]) →
  saved_row_value f sol' = ((rest_of_row f sol).1 + els k0 * sol'.[icol])%num.
Proof using distinct_columns entry_of_column.
  intros Hsol. destruct entry_of_column as [Hk Hc].
  destruct (rest_of_row_fold sol sol' (range 0 (action_ninrow f)) Hsol
              lit_0 lit_0) as [_ Hii].
  destruct (Hii distinct_columns k0) as [_ Hval]; [by apply elem_of_seqZ|done|].
  exact Hval.
Qed.

End ReplayExact.
(** X12.  In exact arithmetic, for an undo record whose saved row holds
    each column once and the column of the record with a coefficient that
    is not zero: after the replay the activity of the row is the activity
    of the saved row at the new solution, and the new solution differs
    from the old one at that column only. *)
Theorem replay_row_activity (Hh : @Helpers Qc_num) (Hp : PostsolveHelpers)
  (f : @action Qc_num) (m : @Post.matrix Qc_num Hp) (k0 : Z) :
  NoDup (saved_columns f) →
  0 ≤ k0 < action_ninrow f →
  (action_rowcols f).[k0] = action_col f →
  (action_rowels f).[k0] ≠ 0%Qc →
  0 ≤ action_col f < Z.of_nat (length (Post.sol_ m)) →
  0 ≤ action_row f < Z.of_nat (length (Post.acts_ m)) →
  let m' := postsolve_action m f in
  (Post.acts_ m').[action_row f] = saved_row_value f (Post.sol_ m')
  ∧ ∀ c, c ≠ action_col f → (Post.sol_ m').[c] = (Post.sol_ m).[c].
Proof.
  intros Hnd Hk0 Hcol Hnz Hsol Hacts m'. unfold m', postsolve_action.
  destruct (restore_row_rest f m) as (Hs & Ha & _).
  pose proof (rest_of_row_coeff f k0 Hnd (conj Hk0 Hcol)
                (Post.sol_ (restore_row f m))) as Hcoeff.
  assert (∀ v c, c ≠ action_col f →
            ((Post.sol_ (restore_row f m)).[action_col f <- v]).[c]
            = (Post.sol_ (restore_row f m)).[c]) as Hoff.
  { intros v c Hc. by apply aget_aset_ne, not_eq_sym. }
  destruct (compute_solution_cases f (restore_row f m))
    as [(bound & status & _ & -> & _ & -> & _)
       |(bound & status & _ & -> & _ & -> & _)].
  - split; [|intros c Hc; by rewrite Hoff, Hs].
    rewrite (rest_of_row_value f k0 Hnd (conj Hk0 Hcol)
               (Post.sol_ (restore_row f m)) _ (Hoff _)).
    rewrite !aget_aset_eq by (by rewrite ?Ha, ?Hs). rewrite Hcoeff.
    generalize ((rest_of_row f (Post.sol_ (restore_row f m))).1).
    intros act. cbn [num Qc_num] in bound, act. qc_field. exact Hnz.
  - split; [|intros c Hc; by rewrite Hoff, Hs].
    rewrite (rest_of_row_value f k0 Hnd (conj Hk0 Hcol)
               (Post.sol_ (restore_row f m)) _ (Hoff _)).
    rewrite !aget_aset_eq by (by rewrite ?Ha, ?Hs). rewrite Hcoeff.
    qc_ring.
Qed.

(** X13.  In exact arithmetic, for such a record with its columns among
    those of the matrix: after the replay the reduced cost of the column of
    the record is [maxmin] times its cost minus the dual of the row times
    its coefficient, and the reduced cost of every other column of the row
    has moved by [maxmin] times the change of its cost minus the dual of
    the row times its coefficient. *)
Theorem replay_reduced_costs (Hh : @Helpers Qc_num) (Hp : PostsolveHelpers)
  (f : @action Qc_num) (m : @Post.matrix Qc_num Hp) (k0 : Z) :
  NoDup (saved_columns f) →
  0 ≤ k0 < action_ninrow f →
  (action_rowcols f).[k0] = action_col f →
  (action_rowels f).[k0] ≠ 0%Qc →
  (∀ c, c ∈ saved_columns f →
        0 ≤ c < Z.of_nat (length (Post.rcosts_ m))
        ∧ 0 ≤ c < Z.of_nat (length (Post.cost_ m))) →
  0 ≤ action_row f < Z.of_nat (length (Post.rowduals_ m)) →
  let m' := postsolve_action m f in
  let dual := (Post.rowduals_ m').[action_row f] in
  (Post.rcosts_ m').[action_col f]
  = (Post.maxmin_ m * (Post.cost_ m').[action_col f]
     - dual * (action_rowels f).[k0])%num
  ∧ ∀ k, 0 ≤ k < action_ninrow f → (action_rowcols f).[k] ≠ action_col f →
      (Post.rcosts_ m').[(action_rowcols f).[k]]
      = ((Post.rcosts_ m).[(action_rowcols f).[k]]
         + Post.maxmin_ m
           * ((Post.cost_ m').[(action_rowcols f).[k]]
              - (Post.cost_ m).[(action_rowcols f).[k]])
         - dual * (action_rowels f).[k])%num.
Proof.
  intros Hnd Hk0 Hcol Hnz Hrange Hduals m' dual. unfold dual, m', postsolve_action.
  destruct (compute_solution_frame f (restore_row f m)) as ((-> & _) & _).
  destruct (restore_row_rest f m) as (_ & _ & Hd & _ & Hmm & _).
  pose proof (length_restore_row_rcosts f m) as Hlr.
  pose proof (rest_of_row_coeff f k0 Hnd (conj Hk0 Hcol)
                (Post.sol_ (restore_row f m))) as Hcoeff.
  assert (∀ k, 0 ≤ k < action_ninrow f →
            (Post.rcosts_ (restore_row f m)).[(action_rowcols f).[k]]
            = ((Post.rcosts_ m).[(action_rowcols f).[k]]
               + Post.maxmin_ m
                 * ((Post.cost_ (restore_row f m)).[(action_rowcols f).[k]]
                    - (Post.cost_ m).[(action_rowcols f).[k]]))%num) as Hrest.
  { intros k Hk.
    change (Post.rcosts_ (restore_row f m))
      with (Post.rcosts_ (foldl (restore_entry f) m (range 0 (action_ninrow f)))).
    change (Post.cost_ (restore_row f m))
      with (Post.cost_ (foldl (restore_entry f) m (range 0 (action_ninrow f)))).
    destruct (action_costs f) as [save_costs|] eqn:Hsc.
    - destruct (restore_costs_fold f (range 0 (action_ninrow f)) m save_costs
                  Hsc Hnd) as (_ & _ & Hin).
      destruct (Hrange (action_rowcols f).[k]) as [Hr1 Hr2].
      { apply (list_elem_of_fmap_2 (λ k, (action_rowcols f).[k])).
        by apply elem_of_seqZ. }
      destruct (Hin k) as [-> ->]; [by apply elem_of_seqZ|done..].
    - destruct (restore_costs_none f (range 0 (action_ninrow f)) m Hsc)
        as [-> ->]. qc_ring. }
  assert (0 ≤ action_col f < Z.of_nat (length (Post.rcosts_ m))) as Hic.
  { apply Hrange. rewrite <- Hcol.
    apply (list_elem_of_fmap_2 (λ k, (action_rowcols f).[k])).
    by apply elem_of_seqZ. }
  destruct (compute_solution_cases f (restore_row f m))
    as [(bound & status & _ & _ & -> & _ & -> & _)
       |(bound & status & _ & _ & -> & _ & -> & _)];
    rewrite (aget_aset_eq (Post.rowduals_ (restore_row f m))) by (by rewrite Hd);
    rewrite ?Hcoeff, ?Hmm.
  - split.
    + rewrite aget_aset_eq by (by rewrite length_spread_dual, Hlr).
      qc_field. exact Hnz.
    + intros k Hk Hne. rewrite aget_aset_ne by (by apply not_eq_sym).
      unfold spread_dual.
      destruct (spread_dual_fold f
                  (Post.maxmin_ m * (Post.cost_ (restore_row f m)).[action_col f]
                   / (action_rowels f).[k0])%num
                  (range 0 (action_ninrow f)) (Post.rcosts_ (restore_row f m)) Hnd)
        as [_ Hin].
      rewrite Hin; [by rewrite Hrest|by apply elem_of_seqZ|].
      rewrite Hlr. apply Hrange.
      apply (list_elem_of_fmap_2 (λ k, (action_rowcols f).[k])).
      by apply elem_of_seqZ.
  - split.
    + rewrite aget_aset_eq by (by rewrite Hlr). qc_ring.
    + intros k Hk Hne. rewrite aget_aset_ne by (by apply not_eq_sym).
      rewrite Hrest by done. qc_ring.
Qed.

(** ** What postsolve leaves alone *)

Section ReplayFrame.
Context `{Helpers} `{PostsolveHelpers}.

Lemma restore_entry_columns f m k :
  Post.mcstrt_ (restore_entry f m k)
  = (Post.mcstrt_ m).[(action_rowcols f).[k] <- Post.free_list_ m]
  ∧ Post.hincol_ (restore_entry f m k)
    = (Post.hincol_ m).[(action_rowcols f).[k] <-
        if (action_rowcols f).[k] =? action_col f then 1
        else (Post.hincol_ m).[(action_rowcols f).[k]] + 1]
  ∧ Post.link_ (restore_entry f m k)
    = (Post.link_ m).[Post.free_list_ m <- (Post.mcstrt_ m).[(action_rowcols f).[k]]]
  ∧ Post.hrow_ (restore_entry f m k)
    = (Post.hrow_ m).[Post.free_list_ m <- action_row f]
  ∧ Post.colels_ (restore_entry f m k)
    = (Post.colels_ m).[Post.free_list_ m <- (action_rowels f).[k]]
  ∧ Post.free_list_ (restore_entry f m k) = (Post.link_ m).[Post.free_list_ m].
Proof. unfold restore_entry. by destruct (action_costs f), (_ =? _). Qed.

Lemma foldl_invariant_in {S X} (P : S → Prop) (body : S → X → S) (l : list X) :
  (∀ s x, x ∈ l → P s → P (body s x)) →
  ∀ s, P s → P (foldl body s l).
Proof.
  induction l as [|x l IH]; intros Hbody s Hs; simpl; [done|].
  apply IH.
  - intros s' x' Hx'. apply Hbody. by right.
  - apply Hbody; [by left|done].
Qed.

Lemma restore_row_frame f m : replay_frame f m (restore_row f m).
Proof.
  destruct (restore_row_rest f m) as (Hs & Ha & Hd & _).
  destruct (restore_row_bounds f m) as (Hrlo & Hrup & _).
  split; [|split].
  - intros c Hc. rewrite Hs. split; [done|].
    unfold restore_row. simpl.
    apply (foldl_invariant
             (λ m', (Post.clo_ m').[c] = (Post.clo_ m).[c]
                    ∧ (Post.cup_ m').[c] = (Post.cup_ m).[c])); [|done].
    intros m' k [<- <-].
    destruct (restore_entry_bounds f m' k) as (_ & _ & -> & ->).
    destruct (_ =? _); [|done].
    by rewrite !aget_aset_ne by (by apply not_eq_sym).
  - intros r Hr. rewrite Ha, Hd, Hrlo, Hrup.
    by rewrite !aget_aset_ne by (by apply not_eq_sym).
  - intros c _ Hc. unfold restore_row. simpl.
    apply (foldl_invariant_in
             (λ m', (Post.rcosts_ m').[c] = (Post.rcosts_ m).[c]
                    ∧ (Post.cost_ m').[c] = (Post.cost_ m).[c]
                    ∧ (Post.hincol_ m').[c] = (Post.hincol_ m).[c]
                    ∧ (Post.mcstrt_ m').[c] = (Post.mcstrt_ m).[c])); [|done].
    intros m' k Hk (<- & <- & <- & <-).
    assert ((action_rowcols f).[k] ≠ c) as Hne.
    { intros <-. apply Hc.
      by apply (list_elem_of_fmap_2 (λ k, (action_rowcols f).[k])). }
    rewrite restore_entry_rcosts, restore_entry_cost.
    destruct (restore_entry_columns f m' k) as (-> & -> & _).
    rewrite !aget_aset_ne by done.
    destruct (action_costs f); by rewrite ?aget_aset_ne by done.
Qed.

Lemma spread_dual_other f possibleDual rcosts c :
  c ∉ saved_columns f → (spread_dual f possibleDual rcosts).[c] = rcosts.[c].
Proof.
  intros Hc. unfold spread_dual.
  apply (foldl_invariant_in (λ r, r.[c] = rcosts.[c])); [|done].
  intros r k Hk <-. apply aget_aset_ne. intros <-. apply Hc.
  by apply (list_elem_of_fmap_2 (λ k, (action_rowcols f).[k])).
Qed.

Lemma compute_solution_replay_frame f m : replay_frame f m (compute_solution f m).
Proof.
  destruct (compute_solution_frame f m)
    as ((Hcost & Hrlo & Hrup & Hclo & Hcup) & (_ & _ & Hst & Hn & _) & _).
  unfold replay_frame. rewrite Hcost, Hrlo, Hrup, Hclo, Hcup, Hst, Hn.
  destruct (compute_solution_cases f m)
    as [(bound & status & _ & -> & -> & -> & -> & _)
       |(bound & status & _ & -> & -> & -> & -> & _)].
  - split; [|split].
    + intros c Hc. by rewrite aget_aset_ne by (by apply not_eq_sym).
    + intros r Hr. by rewrite !aget_aset_ne by (by apply not_eq_sym).
    + intros c Hc Hout. rewrite aget_aset_ne by (by apply not_eq_sym).
      by rewrite spread_dual_other.
  - split; [|split].
    + intros c Hc. by rewrite aget_aset_ne by (by apply not_eq_sym).
    + intros r Hr. by rewrite !aget_aset_ne by (by apply not_eq_sym).
    + intros c Hc Hout. by rewrite aget_aset_ne by (by apply not_eq_sym).
Qed.

(** X14.  Postsolve writes only what its records name: the values and the
    bounds of a column that is the column of no replayed record, the
    activity, the dual and the bounds of a row that is the row of no
    replayed record, and the cost, the reduced cost, the length and the
    start of a column that is in no replayed record are after postsolve
    what they were before. *)
Theorem postsolve_touches_recorded_only (nactions : Z) (actions : list action)
  (m : Post.matrix) :
  let replayed := take (Z.to_nat nactions) actions in
  let m' := postsolve nactions actions m in
  (∀ c, c ∉ action_col <$> replayed →
     (Post.sol_ m').[c] = (Post.sol_ m).[c]
     ∧ (Post.clo_ m').[c] = (Post.clo_ m).[c]
     ∧ (Post.cup_ m').[c] = (Post.cup_ m).[c])
  ∧ (∀ r, r ∉ action_row <$> replayed →
       (Post.acts_ m').[r] = (Post.acts_ m).[r]
       ∧ (Post.rowduals_ m').[r] = (Post.rowduals_ m).[r]
       ∧ (Post.rlo_ m').[r] = (Post.rlo_ m).[r]
       ∧ (Post.rup_ m').[r] = (Post.rup_ m).[r])
  ∧ (∀ c, c ∉ action_col <$> replayed →
       (∀ f, f ∈ replayed → c ∉ saved_columns f) →
       (Post.rcosts_ m').[c] = (Post.rcosts_ m).[c]
       ∧ (Post.cost_ m').[c] = (Post.cost_ m).[c]
       ∧ (Post.hincol_ m').[c] = (Post.hincol_ m).[c]
       ∧ (Post.mcstrt_ m').[c] = (Post.mcstrt_ m).[c]).
Proof.
  intros replayed m'. unfold m', postsolve. fold replayed.
  assert (∀ f, f ∈ reverse replayed → f ∈ replayed) as Hrev
    by (intros f; apply elem_of_reverse).
  revert Hrev. generalize (reverse replayed) as l. intros l Hl.
  split; [|split].
  - intros c Hc.
    apply (foldl_invariant_in
             (λ m1, (Post.sol_ m1).[c] = (Post.sol_ m).[c]
                    ∧ (Post.clo_ m1).[c] = (Post.clo_ m).[c]
                    ∧ (Post.cup_ m1).[c] = (Post.cup_ m).[c])); [|done].
    intros m1 f Hf (<- & <- & <-). unfold postsolve_action.
    assert (c ≠ action_col f) as Hne.
    { intros ->. apply Hc. by apply list_elem_of_fmap_2, Hl. }
    destruct (compute_solution_replay_frame f (restore_row f m1)) as (Hf1 & _).
    destruct (restore_row_frame f m1) as (Hf2 & _).
    destruct (Hf1 c Hne) as (-> & -> & ->). by apply Hf2.
  - intros r Hr.
    apply (foldl_invariant_in
             (λ m1, (Post.acts_ m1).[r] = (Post.acts_ m).[r]
                    ∧ (Post.rowduals_ m1).[r] = (Post.rowduals_ m).[r]
                    ∧ (Post.rlo_ m1).[r] = (Post.rlo_ m).[r]
                    ∧ (Post.rup_ m1).[r] = (Post.rup_ m).[r])); [|done].
    intros m1 f Hf (<- & <- & <- & <-). unfold postsolve_action.
    assert (r ≠ action_row f) as Hne.
    { intros ->. apply Hr. by apply list_elem_of_fmap_2, Hl. }
    destruct (compute_solution_replay_frame f (restore_row f m1)) as (_ & Hf1 & _).
    destruct (restore_row_frame f m1) as (_ & Hf2 & _).
    destruct (Hf1 r Hne) as (-> & -> & -> & ->). by apply Hf2.
  - intros c Hc Hout.
    apply (foldl_invariant_in
             (λ m1, (Post.rcosts_ m1).[c] = (Post.rcosts_ m).[c]
                    ∧ (Post.cost_ m1).[c] = (Post.cost_ m).[c]
                    ∧ (Post.hincol_ m1).[c] = (Post.hincol_ m).[c]
                    ∧ (Post.mcstrt_ m1).[c] = (Post.mcstrt_ m).[c])); [|done].
    intros m1 f Hf (<- & <- & <- & <-). unfold postsolve_action.
    assert (c ≠ action_col f) as Hne.
    { intros ->. apply Hc. by apply list_elem_of_fmap_2, Hl. }
    destruct (compute_solution_replay_frame f (restore_row f m1)) as (_ & _ & Hf1).
    destruct (restore_row_frame f m1) as (_ & _ & Hf2).
    destruct (Hf1 c Hne (Hout f (Hl f Hf))) as (-> & -> & -> & ->).
    by apply Hf2, Hout, Hl.
Qed.

End ReplayFrame.
(** ** The threaded columns *)

Lemma thread_aset_notin (link : list Z) (kk v k : Z) (n : nat) :
  kk ∉ thread link k n → thread (link.[kk <- v]) k n = thread link k n.
Proof.
  revert k. induction n as [|n IH]; intros k Hk; simpl; [done|].
  simpl in Hk. apply not_elem_of_cons in Hk as [Hne Hk].
  rewrite aget_aset_ne by done. by rewrite IH.
Qed.

Lemma length_thread (link : list Z) (k : Z) (n : nat) :
  length (thread link k n) = n.
Proof. revert k. induction n as [|n IH]; intros k; simpl; [done|]. by rewrite IH. Qed.

Section Threads.
Context `{Helpers} `{PostsolveHelpers}.
Variable f : action.

Local Abbreviation cols := (λ k, (action_rowcols f).[k]).

Lemma restore_entry_in_range m k kk :
  entry_in_range m kk → entry_in_range (restore_entry f m k) kk.
Proof.
  unfold entry_in_range.
  destruct (restore_entry_columns f m k) as (_ & _ & -> & -> & -> & _).
  by rewrite !length_aset.
Qed.

(** The free list after one turn of the loop is the free list before
    without its first entry. *)
Lemma restore_entry_free_thread m k n :
  NoDup (free_thread m (S n)) →
  free_thread (restore_entry f m k) n = drop 1 (free_thread m (S n)).
Proof.
  unfold free_thread. simpl. intros Hnd. apply NoDup_cons in Hnd as [Hkk _].
  destruct (restore_entry_columns f m k) as (_ & _ & -> & _ & _ & ->).
  rewrite drop_0. by apply thread_aset_notin.
Qed.

(** One turn of the loop and the column [c]: nothing for another column,
    a new first entry for the column of the turn. *)
Lemma restore_entry_column m k c :
  entry_in_range m (Post.free_list_ m) →
  Post.free_list_ m ∉ column_thread m c →
  0 ≤ c < Z.of_nat (length (Post.mcstrt_ m)) →
  0 ≤ c < Z.of_nat (length (Post.hincol_ m)) →
  0 ≤ (Post.hincol_ m).[c] →
  let m' := restore_entry f m k in
  (0 ≤ c < Z.of_nat (length (Post.mcstrt_ m'))
   ∧ 0 ≤ c < Z.of_nat (length (Post.hincol_ m'))
   ∧ 0 ≤ (Post.hincol_ m').[c])
  ∧ (cols k ≠ c →
     column_thread m' c = column_thread m c
     ∧ column_entries m' c = column_entries m c)
  ∧ (cols k = c →
     column_thread m' c
     = Post.free_list_ m :: (if c =? action_col f then [] else column_thread m c)
     ∧ column_entries m' c
       = (action_row f, (action_rowels f).[k])
         :: (if c =? action_col f then [] else column_entries m c)).
Proof.
  intros (Hr1 & Hr2 & Hr3) Hkk Hc1 Hc2 Hn m'.
  set (kk := Post.free_list_ m) in *.
  assert (∀ l : list Z, kk ∉ l →
            (λ s, ((Post.hrow_ m').[s], (Post.colels_ m').[s])) <$> l
            = (λ s, ((Post.hrow_ m).[s], (Post.colels_ m).[s])) <$> l) as Hent.
  { intros l Hl. apply list_fmap_ext. intros i s Hs.
    assert (kk ≠ s) as Hne.
    { intros ->. apply Hl. by eapply list_elem_of_lookup_2. }
    unfold m'. destruct (restore_entry_columns f m k) as (_ & _ & _ & -> & -> & _).
    by rewrite !aget_aset_ne. }
  unfold column_entries, column_thread, m'.
  destruct (restore_entry_columns f m k) as (Hm & Hh & Hl & Hhr & Hce & _).
  rewrite Hm, Hh, Hl, !length_aset. fold kk.
  split; [|split].
  - split; [done|]. split; [done|].
    destruct (decide (cols k = c)) as [Heq|Hne].
    + rewrite Heq, aget_aset_eq by done. destruct (c =? action_col f); lia.
    + by rewrite aget_aset_ne.
  - intros Hne. rewrite !aget_aset_ne by done.
    rewrite thread_aset_notin by done. split; [done|].
    fold (column_thread m c). rewrite <- (Hent _ Hkk). unfold m'.
    by rewrite Hhr, Hce.
  - intros Heq. rewrite Heq, !aget_aset_eq by done.
    destruct (Z.eqb_spec c (action_col f)) as [Hi|Hi]; simpl.
    + split; [done|]. rewrite Hhr, Hce. fold kk. by rewrite !aget_aset_eq.
    + replace (Z.to_nat ((Post.hincol_ m).[c] + 1))
        with (S (Z.to_nat (Post.hincol_ m).[c])) by lia.
      simpl. rewrite aget_aset_eq by done.
      rewrite thread_aset_notin by done. split; [done|].
      fold (column_thread m c). f_equal; [|exact (Hent _ Hkk)].
      rewrite Hhr, Hce. fold kk. by rewrite !aget_aset_eq.
Qed.

(** The loop that puts the row back, over entries [l] in distinct columns,
    and the column [c] whose entries are no free entries. *)
Lemma restore_fold_column l m c :
  NoDup (cols <$> l) →
  NoDup (free_thread m (length l)) →
  (∀ kk, kk ∈ free_thread m (length l) → entry_in_range m kk) →
  (∀ kk, kk ∈ column_thread m c → kk ∉ free_thread m (length l)) →
  0 ≤ c < Z.of_nat (length (Post.mcstrt_ m)) →
  0 ≤ c < Z.of_nat (length (Post.hincol_ m)) →
  0 ≤ (Post.hincol_ m).[c] →
  let m1 := foldl (restore_entry f) m l in
  (c ∉ cols <$> l → column_entries m1 c = column_entries m c)
  ∧ (∀ k, k ∈ l → cols k = c →
       column_entries m1 c
       = (action_row f, (action_rowels f).[k])
         :: (if c =? action_col f then [] else column_entries m c)).
Proof.
  revert m. induction l as [|x l IH]; intros m Hnd Hfree Hrange Hdis Hc1 Hc2 Hn.
  - simpl. split; [done|]. intros k Hk. by apply elem_of_nil in Hk.
  - rewrite fmap_cons in Hnd. apply NoDup_cons in Hnd as [Hx Hnd].
    cbn [foldl]. simpl length in *.
    pose proof (restore_entry_free_thread m x (length l) Hfree) as Hft.
    assert (free_thread m (S (length l))
            = Post.free_list_ m :: free_thread (restore_entry f m x) (length l))
      as Hsplit.
    { rewrite Hft. unfold free_thread. simpl. by rewrite drop_0. }
    rewrite Hsplit in Hfree, Hrange, Hdis.
    apply NoDup_cons in Hfree as [Hfresh Hfree].
    assert (Post.free_list_ m ∉ column_thread m c) as Hnot.
    { intros Hin. apply (Hdis _ Hin). by left. }
    destruct (restore_entry_column m x c (Hrange _ ltac:(by left)) Hnot Hc1 Hc2 Hn)
      as ((Hc1' & Hc2' & Hn') & Hother & Hsame).
    assert (∀ kk, kk ∈ free_thread (restore_entry f m x) (length l) →
              entry_in_range (restore_entry f m x) kk) as Hrange'.
    { intros kk Hk. apply restore_entry_in_range, Hrange. by right. }
    assert (∀ kk, kk ∈ column_thread (restore_entry f m x) c →
              kk ∉ free_thread (restore_entry f m x) (length l)) as Hdis'.
    { intros kk Hk.
      destruct (decide (cols x = c)) as [Heq|Hne].
      - destruct (Hsame Heq) as [Ht _]. rewrite Ht in Hk.
        apply elem_of_cons in Hk as [->|Hk]; [done|].
        destruct (c =? action_col f); [by apply elem_of_nil in Hk|].
        intros Hf. apply (Hdis _ Hk). by right.
      - destruct (Hother Hne) as [Ht _]. rewrite Ht in Hk.
        intros Hf. apply (Hdis _ Hk). by right. }
    destruct (IH (restore_entry f m x) Hnd Hfree Hrange' Hdis' Hc1' Hc2' Hn')
      as [Hout Hin].
    split.
    + intros Hc. rewrite Hout by (intros Hc'; apply Hc; by right).
      apply Hother. intros Heq. apply Hc. rewrite <- Heq. by left.
    + intros k Hk Hcol. apply elem_of_cons in Hk as [->|Hk].
      * rewrite Hout by (by rewrite <- Hcol). by apply Hsame.
      * rewrite (Hin k Hk Hcol).
        assert (cols x ≠ c) as Hne.
        { intros Heq. apply Hx. rewrite Heq, <- Hcol.
          by apply (list_elem_of_fmap_2 cols). }
        by destruct (Hother Hne) as [_ ->].
Qed.

(** The free list through the loop. *)
Lemma restore_fold_free l m n :
  NoDup (free_thread m (length l + n)) →
  free_thread (foldl (restore_entry f) m l) n
  = drop (length l) (free_thread m (length l + n)).
Proof.
  revert m. induction l as [|x l IH]; intros m Hnd; [done|].
  cbn [foldl]. simpl length in *.
  pose proof (restore_entry_free_thread m x (length l + n) Hnd) as Hft.
  rewrite IH.
  - rewrite Hft, drop_drop. by replace (1 + length l)%nat with (S (length l)) by lia.
  - rewrite Hft. change (S (length l) + n)%nat with (S (length l + n)) in Hnd.
    unfold free_thread in *. simpl in *. rewrite drop_0.
    by apply NoDup_cons in Hnd as [_ Hnd].
Qed.

End Threads.

Section PutBack.
Context `{Helpers} `{PostsolveHelpers}.

Lemma postsolve_action_columns f m c :
  column_entries (postsolve_action m f) c
  = column_entries (foldl (restore_entry f) m (range 0 (action_ninrow f))) c
  ∧ ∀ n, free_thread (postsolve_action m f) n
         = free_thread (foldl (restore_entry f) m (range 0 (action_ninrow f))) n.
Proof.
  unfold postsolve_action, column_entries, column_thread, free_thread.
  destruct (compute_solution_frame f (restore_row f m))
    as (_ & (-> & -> & -> & -> & -> & ->) & _).
  done.
Qed.

(** X15.  Replaying an undo record puts the saved row back into the
    threaded columns.  When the saved row holds each column once, the
    first entries of the free list, as many as the row is long, are
    distinct entries of the arrays, and none of them is an entry of column
    [c]: afterwards column [c] is as before if the row does not hold it;
    if the row holds it, it has the row with the saved coefficient as its
    first entry, followed by its entries before, or by nothing when it is
    the column of the record. *)
Theorem replay_puts_row_back (f : action) (m : Post.matrix) (c : Z) :
  NoDup (saved_columns f) →
  NoDup (free_thread m (Z.to_nat (action_ninrow f))) →
  (∀ kk, kk ∈ free_thread m (Z.to_nat (action_ninrow f)) → entry_in_range m kk) →
  (∀ kk, kk ∈ column_thread m c →
         kk ∉ free_thread m (Z.to_nat (action_ninrow f))) →
  0 ≤ c < Z.of_nat (length (Post.mcstrt_ m)) →
  0 ≤ c < Z.of_nat (length (Post.hincol_ m)) →
  0 ≤ (Post.hincol_ m).[c] →
  let m' := postsolve_action m f in
  (c ∉ saved_columns f → column_entries m' c = column_entries m c)
  ∧ (∀ k, 0 ≤ k < action_ninrow f → (action_rowcols f).[k] = c →
       column_entries m' c
       = (action_row f, (action_rowels f).[k])
         :: (if c =? action_col f then [] else column_entries m c)).
Proof.
  intros Hnd Hfree Hrange Hdis Hc1 Hc2 Hn m'. unfold m'.
  destruct (postsolve_action_columns f m c) as [-> _].
  assert (length (range 0 (action_ninrow f)) = Z.to_nat (action_ninrow f)) as Hlen
    by apply length_seqZ.
  destruct (restore_fold_column f (range 0 (action_ninrow f)) m c Hnd)
    as [Hout Hin]; rewrite ?Hlen; [done..|].
  split; [exact Hout|].
  intros k Hk. apply Hin. by apply elem_of_seqZ.
Qed.

(** X16.  Replaying an undo record takes as many entries off the free
    list as the saved row is long, and leaves the rest of the free list as
    it was, when the entries of the free list are distinct. *)
Theorem replay_consumes_free_list (f : action) (m : Post.matrix) (n : nat) :
  NoDup (free_thread m (Z.to_nat (action_ninrow f) + n)) →
  free_thread (postsolve_action m f) n
  = drop (Z.to_nat (action_ninrow f))
      (free_thread m (Z.to_nat (action_ninrow f) + n)).
Proof.
  intros Hnd.
  destruct (postsolve_action_columns f m 0) as [_ ->].
  assert (length (range 0 (action_ninrow f)) = Z.to_nat (action_ninrow f)) as Hlen
    by apply length_seqZ.
  rewrite <- Hlen in Hnd |- *. by apply restore_fold_free.
Qed.

End PutBack.

(** ** What the activity figures say about the points of the problem *)

Lemma Qc_mul_le_pos (a x u : Qc) : (0 < a → x <= u → a * x <= u * a)%Qc.
Proof.
  intros Ha Hx. rewrite (Qcmult_comm a x).
  apply Qcmult_le_compat_r; [done|by apply Qclt_le_weak].
Qed.

Lemma Qc_mul_ge_pos (a x l : Qc) : (0 < a → l <= x → l * a <= a * x)%Qc.
Proof.
  intros Ha Hx. rewrite (Qcmult_comm a x).
  apply Qcmult_le_compat_r; [done|by apply Qclt_le_weak].
Qed.

Lemma Qc_opp_pos (a : Qc) : (a < 0 → 0 <= - a)%Qc.
Proof.
  intros Ha. apply Qclt_le_weak, Qcopp_le_compat in Ha.
  by replace (- 0)%Qc with 0%Qc in Ha by ring.
Qed.

Lemma Qc_mul_le_neg (a x l : Qc) : (a < 0 → l <= x → a * x <= l * a)%Qc.
Proof.
  intros Ha Hx. apply <- Qcle_minus_iff.
  replace (l * a + - (a * x))%Qc with (x * - a + - (l * - a))%Qc by ring.
  apply -> Qcle_minus_iff.
  apply Qcmult_le_compat_r; [done|by apply Qc_opp_pos].
Qed.

Lemma Qc_mul_ge_neg (a x u : Qc) : (a < 0 → x <= u → u * a <= a * x)%Qc.
Proof.
  intros Ha Hx. apply <- Qcle_minus_iff.
  replace (a * x + - (u * a))%Qc with (u * - a + - (x * - a))%Qc by ring.
  apply -> Qcle_minus_iff.
  apply Qcmult_le_compat_r; [done|by apply Qc_opp_pos].
Qed.

Section ActivityBounds.
Context {Hh : @Helpers Qc_num}.
Variable p : @problem Qc_num Hh.
Variable x : Z → Qc.

(** One entry of a row: what the loop of lines 160-186 adds to a sum that
    bounds the value of the entries before it bounds the value with the
    entry, as long as no unbounded contribution is counted. *)
Lemma activity_step_bounds (a : @activity Qc_num) (kk : Z) (v : Qc) :
  within_bounds p x [kk] →
  0 ≤ infiniteUpper a → 0 ≤ infiniteLower a →
  (infiniteUpper a = 0 → (v <= maximumUp a)%Qc) →
  (infiniteLower a = 0 → (maximumDown a <= v)%Qc) →
  let a' := activity_step p a kk in
  let v' := ((rowels_ p).[kk] * x (hcol_ p).[kk] + v)%Qc in
  0 ≤ infiniteUpper a' ∧ 0 ≤ infiniteLower a'
  ∧ (infiniteUpper a' = 0 → (v' <= maximumUp a')%Qc)
  ∧ (infiniteLower a' = 0 → (maximumDown a' <= v')%Qc).
Proof.
  intros Hx HnU HnL HU HL. destruct (Hx kk) as [Hlo Hup]; [by left|].
  unfold activity_step.
  set (value := (rowels_ p).[kk]) in *. set (c := (hcol_ p).[kk]) in *.
  destruct (value >? lit_0)%num eqn:Hpos.
  - apply Qcltb_lt in Hpos.
    destruct ((cup_ p).[c] >=? lit_1e20)%num,
      ((clo_ p).[c] <=? - lit_1e20)%num;
      cbn [infiniteUpper infiniteLower maximumUp maximumDown];
      (split; [lia|]); (split; [lia|]);
      (split; [intros Hz|intros Hz]); try lia.
    + rewrite (Qcplus_comm (maximumDown a)).
      apply Qcplus_le_compat; [by apply Qc_mul_ge_pos|apply HL, Hz].
    + rewrite (Qcplus_comm (maximumUp a)).
      apply Qcplus_le_compat; [by apply Qc_mul_le_pos|apply HU, Hz].
    + rewrite (Qcplus_comm (maximumUp a)).
      apply Qcplus_le_compat; [by apply Qc_mul_le_pos|apply HU, Hz].
    + rewrite (Qcplus_comm (maximumDown a)).
      apply Qcplus_le_compat; [by apply Qc_mul_ge_pos|apply HL, Hz].
  - destruct (value <? lit_0)%num eqn:Hneg.
    + apply Qcltb_lt in Hneg.
      destruct ((cup_ p).[c] >=? lit_1e20)%num,
        ((clo_ p).[c] <=? - lit_1e20)%num;
        cbn [infiniteUpper infiniteLower maximumUp maximumDown];
        (split; [lia|]); (split; [lia|]);
        (split; [intros Hz|intros Hz]); try lia.
      * rewrite (Qcplus_comm (maximumUp a)).
        apply Qcplus_le_compat; [by apply Qc_mul_le_neg|apply HU, Hz].
      * rewrite (Qcplus_comm (maximumDown a)).
        apply Qcplus_le_compat; [by apply Qc_mul_ge_neg|apply HL, Hz].
      * rewrite (Qcplus_comm (maximumUp a)).
        apply Qcplus_le_compat; [by apply Qc_mul_le_neg|apply HU, Hz].
      * rewrite (Qcplus_comm (maximumDown a)).
        apply Qcplus_le_compat; [by apply Qc_mul_ge_neg|apply HL, Hz].
    + apply Qcltb_ge in Hpos, Hneg.
      assert (value = 0%Qc) as -> by (by apply Qcle_antisym).
      split; [done|]. split; [done|].
      split; intros Hz.
      * replace (0 * x c + v)%Qc with v by ring. by apply HU.
      * replace (0 * x c + v)%Qc with v by ring. by apply HL.
Qed.

Lemma entries_value_cons (kk : Z) (l : list Z) :
  entries_value p x (kk :: l)
  = ((rowels_ p).[kk] * x (hcol_ p).[kk] + entries_value p x l)%Qc.
Proof. done. Qed.

Lemma entries_value_app (l1 l2 : list Z) :
  entries_value p x (l1 ++ l2)
  = (entries_value p x l1 + entries_value p x l2)%Qc.
Proof.
  induction l1 as [|kk l1 IH].
  - change (entries_value p x l2 = 0 + entries_value p x l2)%Qc. qc_eq.
  - rewrite <- app_comm_cons, !entries_value_cons, IH. qc_eq.
Qed.

Lemma activity_fold_bounds (l : list Z) (a : @activity Qc_num) (v : Qc) :
  within_bounds p x l →
  0 ≤ infiniteUpper a → 0 ≤ infiniteLower a →
  (infiniteUpper a = 0 → (v <= maximumUp a)%Qc) →
  (infiniteLower a = 0 → (maximumDown a <= v)%Qc) →
  let a' := foldl (activity_step p) a l in
  let v' := (entries_value p x l + v)%Qc in
  0 ≤ infiniteUpper a' ∧ 0 ≤ infiniteLower a'
  ∧ (infiniteUpper a' = 0 → (v' <= maximumUp a')%Qc)
  ∧ (infiniteLower a' = 0 → (maximumDown a' <= v')%Qc).
Proof.
  revert a v. induction l as [|kk l IH]; intros a v Hx HnU HnL HU HL.
  - cbn [foldl]. change (entries_value p x []) with 0%Qc.
    replace (0 + v)%Qc with v by qc_eq. done.
  - cbn [foldl]. rewrite entries_value_cons.
    assert (within_bounds p x [kk]) as Hkk.
    { intros k Hk. apply Hx. apply list_elem_of_singleton in Hk as ->.
      by left. }
    destruct (activity_step_bounds a kk v Hkk HnU HnL HU HL)
      as (HnU' & HnL' & HU' & HL').
    replace ((rowels_ p).[kk] * x (hcol_ p).[kk] + entries_value p x l + v)%Qc
      with (entries_value p x l + ((rowels_ p).[kk] * x (hcol_ p).[kk] + v))%Qc
      by qc_eq.
    apply IH; [|done..]. intros k Hk. apply Hx. by right.
Qed.
End ActivityBounds.

(** X17.  In exact arithmetic, at every point that lies within the declared
    bounds of the columns of a row, the value of the row is at most the
    sum [maximumUp] of lines 152-186 when no contribution to the largest
    activity is counted as unbounded, and at least the sum [maximumDown]
    when none to the smallest activity is. *)
Theorem activity_sums_bound_row_value (Hh : @Helpers Qc_num)
  (p : @problem Qc_num Hh) (row : Z) (x : Z → Qc) :
  within_bounds p x (range (mrstrt_ p).[row] (hinrow_ p).[row]) →
  let a := row_activity p row in
  (infiniteUpper a = 0 → (row_value p row x <= maximumUp a)%Qc)
  ∧ (infiniteLower a = 0 → (maximumDown a <= row_value p row x)%Qc).
Proof.
  intros Hx a.
  destruct (activity_fold_bounds p x
              (range (mrstrt_ p).[row] (hinrow_ p).[row])
              {| infiniteUpper := 0; infiniteLower := 0;
                 maximumUp := lit_0; maximumDown := lit_0 |} 0%Qc Hx)
    as (_ & _ & HU & HL); try done.
  change (entries_value p x (range (mrstrt_ p).[row] (hinrow_ p).[row]))
    with (row_value p row x) in HU, HL.
  replace (row_value p row x + 0)%Qc with (row_value p row x) in HU, HL
    by qc_eq.
  done.
Qed.

(** X18.  In exact arithmetic, what the tests of lines 189-206 find for a
    row with no contribution counted as unbounded is true at every point
    within the declared bounds of the columns of the row: when the largest
    activity is found below the lower bound of the row (line 195), the
    value of the row is below that bound by more than the tolerance; when
    the smallest activity is found above the upper bound (line 206), the
    value exceeds that bound by more than the tolerance; and when the row
    is found redundant (line 189), the value is within the bounds of the
    row widened by the tolerance. *)
Theorem classification_holds_within_bounds (Hh : @Helpers Qc_num)
  (p : @problem Qc_num Hh) (row : Z) (x : Z → Qc) :
  within_bounds p x (range (mrstrt_ p).[row] (hinrow_ p).[row]) →
  let a := row_activity p row in
  let tol := feasibilityTolerance_ p in
  (classify p row a = UpperUnreachable → infiniteUpper a = 0 →
     (row_value p row x < (rlo_ p).[row] - tol)%Qc)
  ∧ (classify p row a = LowerUnreachable → infiniteLower a = 0 →
       ((rup_ p).[row] + tol < row_value p row x)%Qc)
  ∧ (classify p row a = Redundant →
       (infiniteUpper a = 0 → (row_value p row x <= (rup_ p).[row] + tol)%Qc)
       ∧ (infiniteLower a = 0 →
            ((rlo_ p).[row] - tol <= row_value p row x)%Qc)).
Proof.
  intros Hx a tol.
  destruct (activity_fold_bounds p x
              (range (mrstrt_ p).[row] (hinrow_ p).[row])
              {| infiniteUpper := 0; infiniteLower := 0;
                 maximumUp := lit_0; maximumDown := lit_0 |} 0%Qc Hx)
    as (HnU & HnL & HU & HL); try done.
  change (entries_value p x (range (mrstrt_ p).[row] (hinrow_ p).[row]))
    with (row_value p row x) in HU, HL. fold (row_activity p row) in *.
  fold a in HnU, HnL, HU, HL.
  replace (row_value p row x + 0)%Qc with (row_value p row x) in HU, HL
    by qc_eq.
  assert (infiniteUpper a = 0 → maxUpx a = maximumUp a) as HUx.
  { intros Hz. destruct (maxUpx_cases a HnU) as [[_ ->]|[Hne _]]; [done|].
    rewrite Hz in Hne. done. }
  assert (infiniteLower a = 0 → maxDownx a = maximumDown a) as HLx.
  { intros Hz. destruct (maxDownx_cases a HnL) as [[_ ->]|[Hne _]]; [done|].
    rewrite Hz in Hne. done. }
  unfold classify. fold tol.
  destruct (maxUpx a <=? (rup_ p).[row] + tol)%num eqn:H1;
    destruct (maxDownx a >=? (rlo_ p).[row] - tol)%num eqn:H2;
    cbn [andb].
  - split; [done|]. split; [done|]. intros _.
    apply Qcleb_le in H1, H2. split; intros Hz.
    + rewrite (HUx Hz) in H1. eapply Qcle_trans; [by apply HU|done].
    + rewrite (HLx Hz) in H2. eapply Qcle_trans; [done|by apply HL].
  - destruct (maxUpx a <? (rlo_ p).[row] - tol)%num eqn:H3.
    + split; [|done]. intros _ Hz. apply Qcltb_lt in H3.
      rewrite (HUx Hz) in H3. eapply Qcle_lt_trans; [by apply HU|done].
    + destruct (maxDownx a >? (rup_ p).[row] + tol)%num eqn:H4; [|done].
      split; [done|]. split; [|done]. intros _ Hz. apply Qcltb_lt in H4.
      rewrite (HLx Hz) in H4. eapply Qclt_le_trans; [done|by apply HL].
  - destruct (maxUpx a <? (rlo_ p).[row] - tol)%num eqn:H3.
    + split; [|done]. intros _ Hz. apply Qcltb_lt in H3.
      rewrite (HUx Hz) in H3. eapply Qcle_lt_trans; [by apply HU|done].
    + destruct (maxDownx a >? (rup_ p).[row] + tol)%num eqn:H4; [|done].
      split; [done|]. split; [|done]. intros _ Hz. apply Qcltb_lt in H4.
      rewrite (HLx Hz) in H4. eapply Qclt_le_trans; [done|by apply HL].
  - destruct (maxUpx a <? (rlo_ p).[row] - tol)%num eqn:H3.
    + split; [|done]. intros _ Hz. apply Qcltb_lt in H3.
      rewrite (HUx Hz) in H3. eapply Qcle_lt_trans; [by apply HU|done].
    + destruct (maxDownx a >? (rup_ p).[row] + tol)%num eqn:H4; [|done].
      split; [done|]. split; [|done]. intros _ Hz. apply Qcltb_lt in H4.
      rewrite (HLx Hz) in H4. eapply Qclt_le_trans; [done|by apply HL].
Qed.

(** ** The bounds a row implies on a column *)

Lemma Qc_le_by1 (p q p1 q1 : Qc) :
  (p1 <= q1 → q + - p = q1 + - p1 → p <= q)%Qc.
Proof.
  intros H1 Heq. apply <- Qcle_minus_iff. rewrite Heq.
  by apply -> Qcle_minus_iff.
Qed.

Lemma Qc_le_by2 (p q p1 q1 p2 q2 : Qc) :
  (p1 <= q1 → p2 <= q2 → q + - p = (q1 + - p1) + (q2 + - p2) → p <= q)%Qc.
Proof.
  intros H1 H2 Heq. apply <- Qcle_minus_iff. rewrite Heq.
  replace 0%Qc with (0 + 0)%Qc by ring.
  apply Qcplus_le_compat; by apply -> Qcle_minus_iff.
Qed.

(** An inequality of exact arithmetic that is the sum of one or of two
    known ones. *)
Ltac qc_le1 H := apply (Qc_le_by1 _ _ _ _ H); qc_eq.
Ltac qc_le2 H1 H2 := apply (Qc_le_by2 _ _ _ _ _ _ H1 H2); qc_eq.

Lemma Qc_div_le_pos (a c y : Qc) : (0 < a → c <= a * y → c / a <= y)%Qc.
Proof.
  intros Ha Hc. apply (Qcmult_lt_0_le_reg_r _ _ a Ha).
  assert (a ≠ 0%Qc) as Hne by (intros ->; by apply Qclt_not_eq in Ha).
  replace (c / a * a)%Qc with c by (field; done).
  by rewrite (Qcmult_comm y a).
Qed.

Lemma Qc_div_ge_pos (a c y : Qc) : (0 < a → a * y <= c → y <= c / a)%Qc.
Proof.
  intros Ha Hc. apply (Qcmult_lt_0_le_reg_r _ _ a Ha).
  assert (a ≠ 0%Qc) as Hne by (intros ->; by apply Qclt_not_eq in Ha).
  replace (c / a * a)%Qc with c by (field; done).
  by rewrite (Qcmult_comm y a).
Qed.

Lemma Qc_neg_pos (a : Qc) : (a < 0 → 0 < - a)%Qc.
Proof.
  intros Ha. apply Qclt_minus_iff in Ha.
  by replace (0 + - a)%Qc with (- a)%Qc in Ha by ring.
Qed.

Lemma Qc_div_le_neg (a c y : Qc) : (a < 0 → a * y <= c → c / a <= y)%Qc.
Proof.
  intros Ha Hc. apply (Qcmult_lt_0_le_reg_r _ _ (- a) (Qc_neg_pos a Ha)).
  assert (a ≠ 0%Qc) as Hne by (intros ->; by apply Qclt_not_eq in Ha).
  replace (c / a * - a)%Qc with (- c)%Qc by (field; done).
  replace (y * - a)%Qc with (- (a * y))%Qc by ring.
  by apply Qcopp_le_compat.
Qed.

Lemma Qc_div_ge_neg (a c y : Qc) : (a < 0 → c <= a * y → y <= c / a)%Qc.
Proof.
  intros Ha Hc. apply (Qcmult_lt_0_le_reg_r _ _ (- a) (Qc_neg_pos a Ha)).
  assert (a ≠ 0%Qc) as Hne by (intros ->; by apply Qclt_not_eq in Ha).
  replace (c / a * - a)%Qc with (- c)%Qc by (field; done).
  replace (y * - a)%Qc with (- (a * y))%Qc by ring.
  by apply Qcopp_le_compat.
Qed.

Lemma lit_1em12_nonneg : (0 <= @lit_1em12 Qc_num)%Qc.
Proof. by apply Qcleb_le. Qed.

Lemma relax_down_le (newBound maximum : Qc) :
  (@relax_down Qc_num newBound maximum <= newBound)%Qc.
Proof.
  unfold relax_down. case_if Hbig.
  - apply (Qc_le_by1 _ _ 0 (@lit_1em12 Qc_num * @nabs Qc_num maximum)%Qc).
    + replace 0%Qc with (0 * @nabs Qc_num maximum)%Qc by qc_eq.
      apply Qcmult_le_compat_r; [apply lit_1em12_nonneg|apply Qcabs_nonneg].
    + qc_eq.
  - apply Qcle_refl.
Qed.

Lemma relax_up_ge (newBound maximum : Qc) :
  (newBound <= @relax_up Qc_num newBound maximum)%Qc.
Proof.
  unfold relax_up. case_if Hbig.
  - apply (Qc_le_by1 _ _ 0 (@lit_1em12 Qc_num * @nabs Qc_num maximum)%Qc).
    + replace 0%Qc with (0 * @nabs Qc_num maximum)%Qc by qc_eq.
      apply Qcmult_le_compat_r; [apply lit_1em12_nonneg|apply Qcabs_nonneg].
    + qc_eq.
  - apply Qcle_refl.
Qed.

Lemma nmin_Qc (a b : @num Qc_num) :
  (nmin a b <= a)%Qc ∧ (nmin a b <= b)%Qc ∧ (nmin a b = a ∨ nmin a b = b).
Proof.
  unfold nmin. simpl. destruct (Qcltb b a) eqn:Hab.
  - apply Qcltb_lt in Hab. split; [by apply Qclt_le_weak|].
    split; [apply Qcle_refl|by right].
  - apply Qcltb_ge in Hab. split; [apply Qcle_refl|]. split; [done|by left].
Qed.

Section TightenSound.
Context (Hh : @Helpers Qc_num).
Variables a xj D : Qc.

Local Abbreviation large := (@lit_1e20 Qc_num).
Local Abbreviation dbl_max := (@COIN_DBL_MAX Qc_num Hh).

Lemma tighten_lower_bounds (down : bool) (nb : Qc) (t : @tighten_state Qc_num) :
  low (@tighten_lower Qc_num down a nb t) = @nmax Qc_num (low t) nb
  ∧ high (@tighten_lower Qc_num down a nb t) = high t.
Proof. unfold tighten_lower. by case_if Hnb. Qed.

Lemma tighten_upper_bounds (up : bool) (nb : Qc) (t : @tighten_state Qc_num) :
  low (@tighten_upper Qc_num up a nb t) = low t
  ∧ high (@tighten_upper Qc_num up a nb t) = @nmin Qc_num (high t) nb.
Proof. unfold tighten_upper. by case_if Hnb. Qed.

Lemma above_large (u nb : Qc) :
  (- large <= u)%Qc → (u + @lit_1em12 Qc_num < nb)%Qc → (nb < - large)%Qc →
  False.
Proof.
  intros H1 H2 H3. apply (Qclt_not_eq (- large) (- large))%Qc; [|done].
  eapply Qclt_trans; [|exact H3].
  eapply Qcle_lt_trans; [exact H1|]. eapply Qcle_lt_trans; [|exact H2].
  apply (Qc_le_by1 _ _ _ _ lit_1em12_nonneg). qc_eq.
Qed.

Lemma below_large (u nb : Qc) :
  (u <= large)%Qc → (nb < u - @lit_1em12 Qc_num)%Qc → (large < nb)%Qc →
  False.
Proof.
  intros H1 H2 H3. apply (Qclt_not_eq large large)%Qc; [|done].
  eapply Qclt_le_trans; [exact H3|]. eapply Qcle_trans; [|exact H1].
  apply Qclt_le_weak. eapply Qclt_le_trans; [exact H2|].
  apply (Qc_le_by1 _ _ _ _ lit_1em12_nonneg). qc_eq.
Qed.

(** Tightening the lower bound of a column with a positive coefficient
    (lines 253-265) keeps what the figures of the smallest activity say;
    so does tightening the upper bound of one with a negative coefficient
    (lines 317-329). *)
Lemma tighten_lower_down (nb : Qc) (t : @tighten_state Qc_num) :
  down_inv true a D t →
  ((nowLower t < - large)%Qc → infiniteLower (act t) ≤ 1) →
  down_inv true a D (@tighten_lower Qc_num true a nb t).
Proof.
  intros [H0 H1] Hone. unfold tighten_lower.
  destruct (@nltb Qc_num (@nadd Qc_num (nowLower t) lit_1em12) nb) eqn:Hnb;
    [|done].
  apply Qcltb_lt in Hnb.
  destruct (@nltb Qc_num (nowLower t) (@nopp Qc_num large)) eqn:Hun;
    cbv [down_inv]; cbn [act nowLower nowUpper infiniteLower maximumDown].
  - apply Qcltb_lt in Hun. split.
    + intros Hz. assert (infiniteLower (act t) = 1) as Hi by lia.
      qc_le1 (H1 Hi Hun).
    + intros Hz. specialize (Hone Hun). lia.
  - apply Qcltb_ge in Hun. split.
    + intros Hz. qc_le1 (H0 Hz).
    + intros _ Hlt. destruct (above_large _ _ Hun Hnb Hlt).
Qed.

Lemma tighten_upper_down (nb : Qc) (t : @tighten_state Qc_num) :
  down_inv false a D t →
  ((large < nowUpper t)%Qc → infiniteLower (act t) ≤ 1) →
  down_inv false a D (@tighten_upper Qc_num false a nb t).
Proof.
  intros [H0 H1] Hone. unfold tighten_upper.
  destruct (@nltb Qc_num nb (@nsub Qc_num (nowUpper t) lit_1em12)) eqn:Hnb;
    [|done].
  apply Qcltb_lt in Hnb.
  destruct (@nltb Qc_num large (nowUpper t)) eqn:Hun;
    cbv [down_inv]; cbn [act nowLower nowUpper infiniteLower maximumDown].
  - apply Qcltb_lt in Hun. split.
    + intros Hz. assert (infiniteLower (act t) = 1) as Hi by lia.
      qc_le1 (H1 Hi Hun).
    + intros Hz. specialize (Hone Hun). lia.
  - apply Qcltb_ge in Hun. split.
    + intros Hz. qc_le1 (H0 Hz).
    + intros _ Hlt. destruct (below_large _ _ Hun Hnb Hlt).
Qed.

(** The bound the lower side of a row gives (lines 238-252 and 302-316),
    and the one its upper side gives (lines 269-283 and 333-347), hold at a
    point where the row holds. *)
Lemma positive_lower_side (lower : Qc) (t : @tighten_state Qc_num) :
  (0 < a)%Qc → up_inv true a D t →
  (lower <= a * xj + D)%Qc → (- dbl_max <= xj)%Qc →
  ((if infiniteUpper (act t) =? 0 then
      @relax_down Qc_num (nowUpper t + (lower - maximumUp (act t)) / a)%Qc
        (maximumUp (act t))
    else if (infiniteUpper (act t) =? 1) && @nltb Qc_num large (nowUpper t)
    then @relax_down Qc_num ((lower - maximumUp (act t)) / a)%Qc
           (maximumUp (act t))
    else (- dbl_max)%Qc) <= xj)%Qc.
Proof.
  intros Ha [H0 H1] Hrow Hmin.
  destruct (Z.eqb_spec (infiniteUpper (act t)) 0) as [Hz|_].
  - eapply Qcle_trans; [apply relax_down_le|].
    assert ((lower - maximumUp (act t)) / a <= xj - nowUpper t)%Qc as Hd.
    { apply Qc_div_le_pos; [done|]. qc_le2 Hrow (H0 Hz). }
    qc_le1 Hd.
  - destruct (Z.eqb_spec (infiniteUpper (act t)) 1) as [Hi|_]; [|done].
    destruct (@nltb Qc_num large (nowUpper t)) eqn:Hun; [|done].
    apply Qcltb_lt in Hun. cbn [andb].
    eapply Qcle_trans; [apply relax_down_le|].
    apply Qc_div_le_pos; [done|]. qc_le2 Hrow (H1 Hi Hun).
Qed.

Lemma positive_upper_side (upper : Qc) (t : @tighten_state Qc_num) :
  (0 < a)%Qc → down_inv true a D t →
  (a * xj + D <= upper)%Qc → (xj <= dbl_max)%Qc →
  (xj <=
   (if infiniteLower (act t) =? 0 then
      @relax_up Qc_num (nowLower t + (upper - maximumDown (act t)) / a)%Qc
        (maximumDown (act t))
    else if (infiniteLower (act t) =? 1)
            && @nltb Qc_num (nowLower t) (- large)%Qc
    then @relax_up Qc_num ((upper - maximumDown (act t)) / a)%Qc
           (maximumDown (act t))
    else dbl_max))%Qc.
Proof.
  intros Ha [H0 H1] Hrow Hmax.
  destruct (Z.eqb_spec (infiniteLower (act t)) 0) as [Hz|_].
  - eapply Qcle_trans; [|apply relax_up_ge].
    assert (xj - nowLower t <= (upper - maximumDown (act t)) / a)%Qc as Hd.
    { apply Qc_div_ge_pos; [done|]. qc_le2 Hrow (H0 Hz). }
    qc_le1 Hd.
  - destruct (Z.eqb_spec (infiniteLower (act t)) 1) as [Hi|_]; [|done].
    destruct (@nltb Qc_num (nowLower t) (- large)%Qc) eqn:Hun; [|done].
    apply Qcltb_lt in Hun. cbn [andb].
    eapply Qcle_trans; [|apply relax_up_ge].
    apply Qc_div_ge_pos; [done|]. qc_le2 Hrow (H1 Hi Hun).
Qed.

Lemma negative_lower_side (lower : Qc) (t : @tighten_state Qc_num) :
  (a < 0)%Qc → up_inv false a D t →
  (lower <= a * xj + D)%Qc → (xj <= dbl_max)%Qc →
  (xj <=
   (if infiniteUpper (act t) =? 0 then
      @relax_up Qc_num (nowLower t + (lower - maximumUp (act t)) / a)%Qc
        (maximumUp (act t))
    else if (infiniteUpper (act t) =? 1)
            && @nltb Qc_num (nowLower t) (- large)%Qc
    then @relax_up Qc_num ((lower - maximumUp (act t)) / a)%Qc
           (maximumUp (act t))
    else dbl_max))%Qc.
Proof.
  intros Ha [H0 H1] Hrow Hmax.
  destruct (Z.eqb_spec (infiniteUpper (act t)) 0) as [Hz|_].
  - eapply Qcle_trans; [|apply relax_up_ge].
    assert (xj - nowLower t <= (lower - maximumUp (act t)) / a)%Qc as Hd.
    { apply Qc_div_ge_neg; [done|]. qc_le2 Hrow (H0 Hz). }
    qc_le1 Hd.
  - destruct (Z.eqb_spec (infiniteUpper (act t)) 1) as [Hi|_]; [|done].
    destruct (@nltb Qc_num (nowLower t) (- large)%Qc) eqn:Hun; [|done].
    apply Qcltb_lt in Hun. cbn [andb].
    eapply Qcle_trans; [|apply relax_up_ge].
    apply Qc_div_ge_neg; [done|]. qc_le2 Hrow (H1 Hi Hun).
Qed.

Lemma negative_upper_side (upper : Qc) (t : @tighten_state Qc_num) :
  (a < 0)%Qc → down_inv false a D t →
  (a * xj + D <= upper)%Qc → (- dbl_max <= xj)%Qc →
  ((if infiniteLower (act t) =? 0 then
      @relax_down Qc_num (nowUpper t + (upper - maximumDown (act t)) / a)%Qc
        (maximumDown (act t))
    else if (infiniteLower (act t) =? 1) && @nltb Qc_num large (nowUpper t)
    then @relax_down Qc_num ((upper - maximumDown (act t)) / a)%Qc
           (maximumDown (act t))
    else (- dbl_max)%Qc) <= xj)%Qc.
Proof.
  intros Ha [H0 H1] Hrow Hmin.
  destruct (Z.eqb_spec (infiniteLower (act t)) 0) as [Hz|_].
  - eapply Qcle_trans; [apply relax_down_le|].
    assert ((upper - maximumDown (act t)) / a <= xj - nowUpper t)%Qc as Hd.
    { apply Qc_div_le_neg; [done|]. qc_le2 Hrow (H0 Hz). }
    qc_le1 Hd.
  - destruct (Z.eqb_spec (infiniteLower (act t)) 1) as [Hi|_]; [|done].
    destruct (@nltb Qc_num large (nowUpper t)) eqn:Hun; [|done].
    apply Qcltb_lt in Hun. cbn [andb].
    eapply Qcle_trans; [apply relax_down_le|].
    apply Qc_div_le_neg; [done|]. qc_le2 Hrow (H1 Hi Hun).
Qed.

Lemma nmax_le (u v : Qc) : (u <= xj → v <= xj → @nmax Qc_num u v <= xj)%Qc.
Proof. intros Hu Hv. by destruct (nmax_Qc u v) as (_ & _ & [-> | ->]). Qed.

Lemma nmin_ge (u v : Qc) : (xj <= u → xj <= v → xj <= @nmin Qc_num u v)%Qc.
Proof. intros Hu Hv. by destruct (nmin_Qc u v) as (_ & _ & [-> | ->]). Qed.

(** Lines 235-298 and 299-363: the two bounds of the block hold at a point
    where the row holds, the second one as long as the first has not
    turned a contribution that was counted as unbounded into a bounded
    one while another one is left. *)
Lemma tighten_positive_sound (lower upper : Qc) (t : @tighten_state Qc_num) :
  (0 < a)%Qc → up_inv true a D t → down_inv true a D t →
  ((nowLower t < - large)%Qc → infiniteLower (act t) ≤ 1) →
  (lower <= a * xj + D)%Qc → (a * xj + D <= upper)%Qc →
  (- dbl_max <= xj)%Qc → (xj <= dbl_max)%Qc →
  (low t <= xj)%Qc → (xj <= high t)%Qc →
  (low (@tighten_positive Qc_num Hh lower upper a t) <= xj)%Qc
  ∧ (xj <= high (@tighten_positive Qc_num Hh lower upper a t))%Qc.
Proof.
  intros Ha HU HD Hone Hlo Hup Hmin Hmax Hlow Hhigh.
  unfold tighten_positive. cbv zeta.
  match goal with
  | |- context [@tighten_upper _ true _ _ ?t'] => set (t1 := t')
  end.
  assert ((low t1 <= xj)%Qc ∧ (xj <= high t1)%Qc ∧ down_inv true a D t1)
    as (Hlow1 & Hhigh1 & HD1).
  { subst t1. destruct (@nltb Qc_num (@nopp Qc_num large) lower); [|done].
    match goal with
    | |- context [@tighten_lower _ true _ ?nb t] =>
        destruct (tighten_lower_bounds true nb t) as [-> ->];
        assert (nb <= xj)%Qc by (by apply positive_lower_side)
    end.
    split; [by apply nmax_le|]. split; [done|]. by apply tighten_lower_down. }
  clearbody t1.
  destruct (@nltb Qc_num upper large); [|done].
  match goal with
  | |- context [@tighten_upper _ true _ ?nb t1] =>
      destruct (tighten_upper_bounds true nb t1) as [-> ->];
      assert (xj <= nb)%Qc by (by apply positive_upper_side)
  end.
  split; [done|]. by apply nmin_ge.
Qed.

Lemma tighten_negative_sound (lower upper : Qc) (t : @tighten_state Qc_num) :
  (a < 0)%Qc → up_inv false a D t → down_inv false a D t →
  ((large < nowUpper t)%Qc → infiniteLower (act t) ≤ 1) →
  (lower <= a * xj + D)%Qc → (a * xj + D <= upper)%Qc →
  (- dbl_max <= xj)%Qc → (xj <= dbl_max)%Qc →
  (low t <= xj)%Qc → (xj <= high t)%Qc →
  (low (@tighten_negative Qc_num Hh lower upper a t) <= xj)%Qc
  ∧ (xj <= high (@tighten_negative Qc_num Hh lower upper a t))%Qc.
Proof.
  intros Ha HU HD Hone Hlo Hup Hmin Hmax Hlow Hhigh.
  unfold tighten_negative. cbv zeta.
  match goal with
  | |- context [@tighten_lower _ false _ _ ?t'] => set (t1 := t')
  end.
  assert ((low t1 <= xj)%Qc ∧ (xj <= high t1)%Qc ∧ down_inv false a D t1)
    as (Hlow1 & Hhigh1 & HD1).
  { subst t1. destruct (@nltb Qc_num (@nopp Qc_num large) lower); [|done].
    match goal with
    | |- context [@tighten_upper _ false _ ?nb t] =>
        destruct (tighten_upper_bounds false nb t) as [-> ->];
        assert (xj <= nb)%Qc by (by apply negative_lower_side)
    end.
    split; [done|]. split; [by apply nmin_ge|]. by apply tighten_upper_down. }
  clearbody t1.
  destruct (@nltb Qc_num upper large); [|done].
  match goal with
  | |- context [@tighten_lower _ false _ ?nb t1] =>
      destruct (tighten_lower_bounds false nb t1) as [-> ->];
      assert (nb <= xj)%Qc by (by apply negative_upper_side)
  end.
  split; [|done]. by apply nmax_le.
Qed.
End TightenSound.

(** *** The figures of a row without one of its entries *)

Lemma range_split (lo n k0 : Z) :
  lo ≤ k0 < lo + n →
  range lo n = range lo (k0 - lo) ++ k0 :: range (k0 + 1) (lo + n - (k0 + 1)).
Proof.
  intros Hk. unfold range.
  replace n with ((k0 - lo) + (lo + n - k0)) at 1 by lia.
  rewrite seqZ_app by lia. f_equal.
  replace (lo + (k0 - lo)) with k0 by lia.
  rewrite seqZ_cons by lia. f_equal. f_equal; lia.
Qed.

Lemma act_add_assoc (a b c : @activity Qc_num) :
  act_add (act_add a b) c = act_add a (act_add b c).
Proof. unfold act_add; cbn. f_equal; [lia|lia|qc_eq|qc_eq]. Qed.

Lemma act_add_swap (a b c : @activity Qc_num) :
  act_add (act_add a b) c = act_add (act_add a c) b.
Proof. unfold act_add; cbn. f_equal; [lia|lia|qc_eq|qc_eq]. Qed.

Lemma act_add_none (a : @activity Qc_num) : act_add a no_activity = a.
Proof.
  destruct a. unfold act_add, no_activity; cbn. f_equal; [lia|lia|qc_eq|qc_eq].
Qed.

Section RowSplit.
Context (Hh : @Helpers Qc_num).
Variable p : @problem Qc_num Hh.

Lemma activity_step_add (a : @activity Qc_num) (kk : Z) :
  activity_step p a kk = act_add a (activity_step p no_activity kk).
Proof.
  unfold activity_step.
  destruct (@nltb Qc_num lit_0 (rowels_ p).[kk]);
    [|destruct (@nltb Qc_num (rowels_ p).[kk] lit_0);
      [|by rewrite act_add_none]];
    destruct (@nleb Qc_num lit_1e20 (cup_ p).[(hcol_ p).[kk]]),
      (@nleb Qc_num (clo_ p).[(hcol_ p).[kk]] (@nopp Qc_num lit_1e20));
    unfold act_add, no_activity; cbn; f_equal; first [lia|qc_eq].
Qed.

Lemma foldl_activity_add (l : list Z) (a : @activity Qc_num) :
  foldl (activity_step p) a l
  = act_add a (foldl (activity_step p) no_activity l).
Proof.
  induction l as [|kk l IH] using rev_ind.
  - by rewrite act_add_none.
  - rewrite !foldl_snoc, IH, activity_step_add.
    rewrite (activity_step_add (foldl _ _ _)). by rewrite act_add_assoc.
Qed.

Lemma row_activity_split (row k0 : Z) :
  k0 ∈ range (mrstrt_ p).[row] (hinrow_ p).[row] →
  row_activity p row
  = act_add (foldl (activity_step p) no_activity (other_entries p row k0))
      (activity_step p no_activity k0).
Proof.
  intros Hk. apply elem_of_seqZ in Hk.
  unfold row_activity, other_entries. cbv zeta.
  rewrite (range_split _ _ k0 Hk). fold no_activity.
  rewrite !foldl_app. cbn [foldl].
  rewrite foldl_activity_add, (activity_step_add (foldl _ _ _)).
  rewrite (foldl_activity_add _ (foldl _ _ _)). apply act_add_swap.
Qed.

Lemma row_value_split (row k0 : Z) (x : Z → Qc) :
  k0 ∈ range (mrstrt_ p).[row] (hinrow_ p).[row] →
  row_value p row x
  = ((rowels_ p).[k0] * x (hcol_ p).[k0]
     + entries_value p x (other_entries p row k0))%Qc.
Proof.
  intros Hk. apply elem_of_seqZ in Hk.
  change (row_value p row x)
    with (entries_value p x (range (mrstrt_ p).[row] (hinrow_ p).[row])).
  unfold other_entries.
  rewrite (range_split _ _ k0 Hk).
  rewrite !entries_value_app, entries_value_cons. qc_eq.
Qed.
End RowSplit.

Section ImpliedBounds.
Context (Hh : @Helpers Qc_num).
Variable p : @problem Qc_num Hh.
Variables (row k0 : Z) (x : Z → Qc).

Local Abbreviation large := (@lit_1e20 Qc_num).
Local Abbreviation j := ((hcol_ p).[k0]).
Local Abbreviation a := ((rowels_ p).[k0]).
Local Abbreviation D := (entries_value p x (other_entries p row k0)).
Local Abbreviation others :=
  (foldl (activity_step p) no_activity (other_entries p row k0)).

Hypothesis others_within_bounds : within_bounds p x (other_entries p row k0).

Lemma others_bounds :
  0 ≤ infiniteUpper others ∧ 0 ≤ infiniteLower others
  ∧ (infiniteUpper others = 0 → (D <= maximumUp others)%Qc)
  ∧ (infiniteLower others = 0 → (maximumDown others <= D)%Qc).
Proof using others_within_bounds.
  destruct (activity_fold_bounds p x (other_entries p row k0) no_activity
              0%Qc others_within_bounds) as (HnU & HnL & HU & HL);
    try done.
  replace (D + 0)%Qc with D in HU, HL by qc_eq. done.
Qed.

Lemma not_both (u v : Qc) : (u < v)%Qc → (v <= u)%Qc → False.
Proof. intros H1 H2. by apply Qclt_not_le in H1. Qed.

(** The figures of the row and the declared bounds of the column, with
    which the block of lines 224-363 starts. *)
Lemma initial_positive (low0 high0 : Qc) :
  (0 < a)%Qc →
  let t := {| act := act_add others (activity_step p no_activity k0);
              nowLower := (clo_ p).[j]; nowUpper := (cup_ p).[j];
              low := low0; high := high0 |} in
  up_inv true a D t ∧ down_inv true a D t.
Proof using others_within_bounds.
  intros Ha t. pose proof others_bounds as HB. subst t.
  set (A := foldl (activity_step p) no_activity (other_entries p row k0))
    in *.
  set (Dv := entries_value p x (other_entries p row k0)) in *.
  clearbody A Dv. destruct HB as (HnU & HnL & HU & HL).
  unfold up_inv, down_inv, activity_step.
  cbn [act nowLower nowUpper].
  assert (@nltb Qc_num lit_0 a = true) as -> by (by apply Qcltb_lt).
  destruct (@nleb Qc_num large (cup_ p).[j]) eqn:Hcup;
    destruct (@nleb Qc_num (clo_ p).[j] (@nopp Qc_num large)) eqn:Hclo;
    unfold act_add, no_activity;
    cbn [infiniteUpper infiniteLower maximumUp maximumDown];
    (split; split); try (intros Hz; lia).
  all: try (intros Hz; first [qc_le1 (HU ltac:(lia))|qc_le1 (HL ltac:(lia))]).
  all: try (intros Hz Hlt; first [qc_le1 (HU ltac:(lia))
                                 |qc_le1 (HL ltac:(lia))]).
  all: intros Hz Hlt.
  all: first [apply Qcleb_gt in Hcup; destruct (not_both _ _ Hcup);
              by apply Qclt_le_weak
             |apply Qcleb_gt in Hclo; destruct (not_both _ _ Hclo);
              by apply Qclt_le_weak].
Qed.

Lemma initial_negative (low0 high0 : Qc) :
  (a < 0)%Qc →
  let t := {| act := act_add others (activity_step p no_activity k0);
              nowLower := (clo_ p).[j]; nowUpper := (cup_ p).[j];
              low := low0; high := high0 |} in
  up_inv false a D t ∧ down_inv false a D t.
Proof using others_within_bounds.
  intros Ha t. pose proof others_bounds as HB. subst t.
  set (A := foldl (activity_step p) no_activity (other_entries p row k0))
    in *.
  set (Dv := entries_value p x (other_entries p row k0)) in *.
  clearbody A Dv. destruct HB as (HnU & HnL & HU & HL).
  unfold up_inv, down_inv, activity_step.
  cbn [act nowLower nowUpper].
  assert (@nltb Qc_num lit_0 a = false) as ->.
  { apply Qcltb_ge. by apply Qclt_le_weak. }
  assert (@nltb Qc_num a lit_0 = true) as -> by (by apply Qcltb_lt).
  destruct (@nleb Qc_num large (cup_ p).[j]) eqn:Hcup;
    destruct (@nleb Qc_num (clo_ p).[j] (@nopp Qc_num large)) eqn:Hclo;
    unfold act_add, no_activity;
    cbn [infiniteUpper infiniteLower maximumUp maximumDown];
    (split; split); try (intros Hz; lia).
  all: try (intros Hz; first [qc_le1 (HU ltac:(lia))|qc_le1 (HL ltac:(lia))]).
  all: try (intros Hz Hlt; first [qc_le1 (HU ltac:(lia))
                                 |qc_le1 (HL ltac:(lia))]).
  all: intros Hz Hlt.
  all: first [apply Qcleb_gt in Hcup; destruct (not_both _ _ Hcup);
              by apply Qclt_le_weak
             |apply Qcleb_gt in Hclo; destruct (not_both _ _ Hclo);
              by apply Qclt_le_weak].
Qed.
End ImpliedBounds.

(** The block of lines 224-363, started from the figures of the row. *)
Lemma implied_bounds_of_figures (Hh : @Helpers Qc_num)
  (p : @problem Qc_num Hh) (row j k0 : Z) (coeffj : Qc) (x : Z → Qc)
  (low0 high0 : Qc) :
  k0 ∈ range (mrstrt_ p).[row] (hinrow_ p).[row] →
  (hcol_ p).[k0] = j → (rowels_ p).[k0] = coeffj → coeffj ≠ 0%Qc →
  within_bounds p x (other_entries p row k0) →
  ((rlo_ p).[row] <= row_value p row x)%Qc →
  (row_value p row x <= (rup_ p).[row])%Qc →
  infiniteLower (row_activity p row) ≤ 1
  ∨ ((- @lit_1e20 Qc_num <= (clo_ p).[j])%Qc
     ∧ ((cup_ p).[j] <= @lit_1e20 Qc_num)%Qc) →
  (- @COIN_DBL_MAX Qc_num Hh <= x j)%Qc →
  (x j <= @COIN_DBL_MAX Qc_num Hh)%Qc →
  (low0 <= x j)%Qc → (x j <= high0)%Qc →
  let t := {| act := row_activity p row;
              nowLower := (clo_ p).[j]; nowUpper := (cup_ p).[j];
              low := low0; high := high0 |} in
  let t' := if @nltb Qc_num lit_0 coeffj
            then tighten_positive (rlo_ p).[row] (rup_ p).[row] coeffj t
            else tighten_negative (rlo_ p).[row] (rup_ p).[row] coeffj t in
  (low t' <= x j)%Qc ∧ (x j <= high t')%Qc.
Proof.
  intros Hk <- <- Hne Hx Hlo Hup Hone Hmin Hmax Hlow Hhigh t t'.
  subst t t'.
  pose proof (row_activity_split Hh p row k0 Hk) as Hsplit.
  rewrite (row_value_split Hh p row k0 x Hk) in Hlo, Hup.
  rewrite Hsplit in Hone |- *.
  destruct (@nltb Qc_num lit_0 (rowels_ p).[k0]) eqn:Hpos.
  - apply Qcltb_lt in Hpos.
    destruct (initial_positive Hh p row k0 x Hx low0 high0 Hpos) as [HU HD].
    apply (tighten_positive_sound Hh (rowels_ p).[k0] (x (hcol_ p).[k0])
             (entries_value p x (other_entries p row k0))); try done.
    cbn [act nowLower]. intros Hlt. destruct Hone as [Hone|[Hc _]]; [done|].
    destruct (not_both _ _ Hlt Hc).
  - apply Qcltb_ge in Hpos.
    assert ((rowels_ p).[k0] < 0)%Qc as Hneg.
    { by destruct (Qcle_lt_or_eq _ _ Hpos). }
    destruct (initial_negative Hh p row k0 x Hx low0 high0 Hneg) as [HU HD].
    apply (tighten_negative_sound Hh (rowels_ p).[k0] (x (hcol_ p).[k0])
             (entries_value p x (other_entries p row k0))); try done.
    cbn [act nowUpper]. intros Hlt. destruct Hone as [Hone|[_ Hc]]; [done|].
    destruct (not_both _ _ Hlt Hc).
Qed.

(** X19.  In exact arithmetic, the bounds that the block of lines 224-363
    derives for a column from a row with cached figures hold at every
    point where the row holds and the other columns of the row are within
    their declared bounds: the block needs no bound of the column itself.
    The figures are those of the row, as the first loop caches them; the
    coefficient is not zero; the value of the column is a [double]; and
    either the row has at most one contribution to its smallest activity
    that is counted as unbounded, or the declared bounds of the column are
    within [1e20] in magnitude. *)
Theorem implied_bounds_hold (Hh : @Helpers Qc_num) (p : @problem Qc_num Hh)
  (w : @work Qc_num) (row k0 : Z) (x : Z → Qc) (low0 high0 : Qc) :
  let a := row_activity p row in
  let j := (hcol_ p).[k0] in
  let coeffj := (rowels_ p).[k0] in
  k0 ∈ range (mrstrt_ p).[row] (hinrow_ p).[row] →
  coeffj ≠ 0%Qc →
  (infiniteUp w).[row] = infiniteUpper a →
  (infiniteDown w).[row] = infiniteLower a →
  (maxUp w).[row] = maximumUp a →
  (maxDown w).[row] = maximumDown a →
  within_bounds p x (other_entries p row k0) →
  ((rlo_ p).[row] <= row_value p row x)%Qc →
  (row_value p row x <= (rup_ p).[row])%Qc →
  infiniteLower a ≤ 1
  ∨ ((- @lit_1e20 Qc_num <= (clo_ p).[j])%Qc
     ∧ ((cup_ p).[j] <= @lit_1e20 Qc_num)%Qc) →
  (- @COIN_DBL_MAX Qc_num Hh <= x j)%Qc →
  (x j <= @COIN_DBL_MAX Qc_num Hh)%Qc →
  (low0 <= x j)%Qc → (x j <= high0)%Qc →
  let b := implied_by_row p w j row coeffj low0 high0 in
  (b.1 <= x j)%Qc ∧ (x j <= b.2)%Qc.
Proof.
  intros a j coeffj Hk Hne HcU HcL HcMU HcMD Hx Hlo Hup Hone Hmin Hmax
    Hlow Hhigh b.
  subst b. unfold implied_by_row. cbv zeta. cbn [fst snd].
  rewrite HcU, HcL, HcMU, HcMD.
  replace {| infiniteUpper := infiniteUpper a;
             infiniteLower := infiniteLower a;
             maximumUp := maximumUp a;
             maximumDown := maximumDown a |} with a by (by destruct a).
  by apply (implied_bounds_of_figures Hh p row j k0 coeffj x low0 high0).
Qed.

(** ** Marked columns of two or three entries *)

Section MarkedImplied.
Context (Hh : @Helpers Qc_num).
Variable p : @problem Qc_num Hh.
Variables (j : Z) (x : Z → Qc).

Local Abbreviation dbl_max := (@COIN_DBL_MAX Qc_num Hh).

Hypothesis tolerance_nonneg : (0 <= @ZTOLDP Qc_num Hh)%Qc.
Hypothesis rows_support :
  ∀ k, k ∈ range (mcstrt_ p).[j] (hincol_ p).[j] → row_supports p x j k.
Hypothesis value_is_double : (- dbl_max <= x j)%Qc ∧ (x j <= dbl_max)%Qc.

(** The walk over the rows of the column keeps the cache sound and the
    value of the column between [low] and [high]. *)
Lemma walk_step_sound (s : @work Qc_num * Qc * Qc) (k : Z) :
  k ∈ range (mcstrt_ p).[j] (hincol_ p).[j] →
  cache_sound p s.1.1 ∧ (s.1.2 <= x j)%Qc ∧ (x j <= s.2)%Qc →
  cache_sound p (walk_step p j s k).1.1.1
  ∧ ((walk_step p j s k).1.1.2 <= x j)%Qc
  ∧ (x j <= (walk_step p j s k).1.2)%Qc.
Proof using tolerance_nonneg rows_support value_is_double.
  intros Hk (Hc & Hlow & Hhigh).
  split; [by apply cache_sound_walk_step|].
  destruct s as [[w low0] high0]. cbn [fst snd] in *.
  destruct (rows_support k Hk)
    as (Hrow & Hlo & Hup & Hone & k0 & Hk0 & Hcol & Hel & Hx).
  destruct value_is_double as [Hmin Hmax].
  unfold walk_step.
  destruct (@nltb Qc_num ZTOLDP (@nabs Qc_num (colels_ p).[k])) eqn:Hbig;
    [|done].
  assert ((colels_ p).[k] ≠ 0%Qc) as Hne.
  { intros Hz. rewrite Hz in Hbig. apply Qcltb_lt in Hbig.
    by apply Qclt_not_le in Hbig. }
  assert (cache_sound p
            (if (infiniteUp w).[(hrow_ p).[k]] =? -1
             then compute_row p w (hrow_ p).[k] else (w, false)).1) as Hc1.
  { destruct (_ =? -1); [by apply cache_sound_compute_row|done]. }
  destruct (if (infiniteUp w).[(hrow_ p).[k]] =? -1
            then compute_row p w (hrow_ p).[k] else (w, false))
    as [w1 broke]. cbn [fst] in Hc1.
  destruct broke; [done|].
  destruct (Z.leb_spec 0 (infiniteUp w1).[(hrow_ p).[k]]) as [Htag|_].
  - destruct Hc1 as [_ Hfig].
    destruct (Hfig _ Hrow Htag) as (HcU & HcL & HcMU & HcMD).
    destruct (implied_by_row p w1 j (hrow_ p).[k] (colels_ p).[k] low0 high0)
      as [low1 high1] eqn:Hb. cbn [fst snd].
    unfold implied_by_row in Hb. cbv zeta in Hb.
    rewrite HcU, HcL, HcMU, HcMD in Hb.
    replace {| infiniteUpper := infiniteUpper (row_activity p (hrow_ p).[k]);
               infiniteLower := infiniteLower (row_activity p (hrow_ p).[k]);
               maximumUp := maximumUp (row_activity p (hrow_ p).[k]);
               maximumDown := maximumDown (row_activity p (hrow_ p).[k]) |}
      with (row_activity p (hrow_ p).[k]) in Hb
      by (by destruct (row_activity p (hrow_ p).[k])).
    injection Hb as <- <-.
    by apply (implied_bounds_of_figures Hh p (hrow_ p).[k] j k0
                (colels_ p).[k] x low0 high0).
  - by destruct (_ =? -3).
Qed.

Lemma walk_sound (w : @work Qc_num) :
  cache_sound p w →
  cache_sound p (walk p j w).1.1.1
  ∧ ((walk p j w).1.1.2 <= x j)%Qc
  ∧ (x j <= (walk p j w).1.2)%Qc.
Proof using tolerance_nonneg rows_support value_is_double.
  intros Hc. destruct value_is_double as [Hmin Hmax]. unfold walk.
  apply (for_break_invariant_in
           (λ s : @work Qc_num * Qc * Qc,
              cache_sound p s.1.1 ∧ (s.1.2 <= x j)%Qc ∧ (x j <= s.2)%Qc));
    [|done].
  intros s k Hk Hs. by apply walk_step_sound.
Qed.

(** One look at the column: its mark stays, or the walk has found its
    declared bounds around the range the rows leave. *)
Lemma scan_multi_sound (w : @work Qc_num) :
  cache_sound p w →
  (implied_free (scan_multi p j w)).[j] = (implied_free w).[j]
  ∨ ((clo_ p).[j] <= x j)%Qc ∧ (x j <= (cup_ p).[j])%Qc.
Proof using tolerance_nonneg rows_support value_is_double.
  intros Hc. destruct (walk_sound w Hc) as (_ & Hlow & Hhigh).
  rewrite scan_multi_eq.
  destruct (_ && negb _); [|by left].
  destruct (@nleb Qc_num (clo_ p).[j] (walk p j w).1.1.2) eqn:H1;
    destruct (@nleb Qc_num (walk p j w).1.2 (cup_ p).[j]) eqn:H2;
    cbn [andb]; try (left; by rewrite walk_marks).
  right. apply Qcleb_le in H1, H2.
  split; eapply Qcle_trans; done.
Qed.
End MarkedImplied.

(** X20.  In exact arithmetic, a column of two or three entries that the
    first loop has marked has declared bounds that the rows imply: they
    hold at every point at which the rows of the column hold and the other
    columns of these rows are within their declared bounds, the value of
    the column being a [double].  The rows are rows of the problem whose
    row-major copy agrees with the column; each of them has at most one
    contribution to its smallest activity that is counted as unbounded,
    unless the declared bounds of the column are within [1e20] in
    magnitude; and [ZTOLDP] is not negative. *)
Theorem marked_column_is_implied_free (Hh : @Helpers Qc_num)
  (p : @problem Qc_num Hh) (look : list Z) (j : Z) (x : Z → Qc) :
  (0 <= @ZTOLDP Qc_num Hh)%Qc →
  0 ≤ j < ncols_ p → 1 < (hincol_ p).[j] →
  (∀ k, k ∈ range (mcstrt_ p).[j] (hincol_ p).[j] → row_supports p x j k) →
  (- @COIN_DBL_MAX Qc_num Hh <= x j)%Qc →
  (x j <= @COIN_DBL_MAX Qc_num Hh)%Qc →
  (implied_free (scan p look (work_init p)).1).[j] ≠ -1 →
  ((clo_ p).[j] <= x j)%Qc ∧ (x j <= (cup_ p).[j])%Qc.
Proof.
  intros Htol Hj Hn Hsup Hmin Hmax Hmark.
  assert (cache_sound p (scan p look (work_init p)).1
          ∧ ((implied_free (scan p look (work_init p)).1).[j] ≠ -1 →
             ((clo_ p).[j] <= x j)%Qc ∧ (x j <= (cup_ p).[j])%Qc))
    as [_ Hinv]; [|by apply Hinv].
  unfold scan.
  apply (for_break_invariant
           (λ w : @work Qc_num,
              cache_sound p w
              ∧ ((implied_free w).[j] ≠ -1 →
                 ((clo_ p).[j] <= x j)%Qc ∧ (x j <= (cup_ p).[j])%Qc))).
  - intros w j' [Hc Hm]. split; [by apply cache_sound_scan_column|].
    destruct (decide (j' = j)) as [->|Hne].
    + destruct ((integerType_ p).[j]) eqn:Hint.
      { rewrite scan_column_ineligible by (by left). exact Hm. }
      destruct (Z.le_gt_cases (hincol_ p).[j] 3) as [Hle|Hgt].
      * rewrite scan_column_multi by (done || lia). cbn [fst].
        destruct (scan_multi_sound Hh p j x Htol Hsup (conj Hmin Hmax) w Hc)
          as [-> | Hb]; done.
      * rewrite scan_column_ineligible by (right; left; lia). exact Hm.
    + by rewrite scan_column_marks_other.
  - split; [apply cache_sound_init|]. intros Hm. destruct Hm.
    unfold work_init. cbn [implied_free]. apply aget_replicate. lia.
Qed.

(** ** What the second loop leaves alone *)

(** X21.  The second loop writes neither the entries of the row-major copy
    of the matrix nor the starts of the rows and of the columns: an
    eliminated row keeps its entries and loses its length only.  And the
    loop only clears marks: after it a column has the mark it had, or
    none. *)
Theorem second_loop_keeps_row_copy `{Helpers} (p : problem)
  (marks look : list Z) :
  let e := eliminate_singletons look p marks in
  (rowels_ (e_prob e) = rowels_ p ∧ hcol_ (e_prob e) = hcol_ p
   ∧ mrstrt_ (e_prob e) = mrstrt_ p ∧ mcstrt_ (e_prob e) = mcstrt_ p)
  ∧ ∀ j, (e_implied_free e).[j] = marks.[j] ∨ (e_implied_free e).[j] = -1.
Proof.
  intros e. unfold e, eliminate_singletons.
  apply (for_break_invariant
           (λ s, (rowels_ (e_prob s) = rowels_ p ∧ hcol_ (e_prob s) = hcol_ p
                  ∧ mrstrt_ (e_prob s) = mrstrt_ p
                  ∧ mcstrt_ (e_prob s) = mcstrt_ p)
                 ∧ ∀ j, (e_implied_free s).[j] = marks.[j]
                        ∨ (e_implied_free s).[j] = -1)).
  - intros s j [(H1 & H2 & H3 & H4) Hm].
    destruct (eliminate_column_cases s j) as [-> | [-> | (_ & _ & _ & ->)]];
      [done..|].
    destruct (eliminate_fields s j)
      as (_ & (E1 & E2 & E3 & E4 & _) & Em & _).
    cbv zeta in E1, E2, E3, E4. rewrite E1, E2, E3, E4, Em.
    split; [done|]. intros j'.
    destruct (aget_aset_cases (e_implied_free s) j j' (-1)) as [-> | ->];
      [by right|apply Hm].
  - cbn. split; [done|]. intros j. by left.
Qed.

(** ** Sample runs of the further properties *)

Lemma scan_marks_only_eligible_witness :
  let P := tightened_column_problem in
  (implied_free (scan P [0] (work_init P)).1).[1] = (implied_free (work_init P)).[1].
Proof.
  intros P. apply (scan_marks_only_eligible P [0] (work_init P) 1).
  left. intros Hin. apply list_elem_of_singleton in Hin. discriminate.
Defined.

Lemma marked_row_holds_column_witness :
  let P := tightened_column_problem in
  let mark := (implied_free (scan P [0] (work_init P)).1).[0] in
  mark = -1
  ∨ ∃ k, k ∈ range (mcstrt_ P).[0] (hincol_ P).[0] ∧ (hrow_ P).[k] = mark.
Proof.
  intros P. apply (marked_row_holds_column P [0] 0).
  - assert (ncols_ P = 3) as -> by vm_refl. lia.
  - assert ((hincol_ P).[0] = 2) as -> by vm_refl. lia.
Defined.

Lemma given_up_row_stays_given_up_witness :
  let S := shared_row_problem in
  (infiniteUp (scan S [1] (scan S [0] (work_init S)).1).1).[0] = -3.
Proof.
  intros S. apply (given_up_row_stays_given_up S [1]). vm_refl.
Defined.

Lemma singleton_columns_take_distinct_rows_witness :
  let P := isolated_row_problem in
  let marks := implied_free (scan P [0; 1; 2; 3; 4] (work_init P)).1 in
  marks.[0] ≠ marks.[2]
  ∧ marks.[0] = (hrow_ P).[(mcstrt_ P).[0]]
  ∧ marks.[2] = (hrow_ P).[(mcstrt_ P).[2]].
Proof.
  intros P.
  apply (singleton_columns_take_distinct_rows P [0; 1; 2; 3; 4] 0 2).
  - intros j [Hj Hs]. assert (ncols_ P = 5) as Hn by vm_refl. rewrite Hn in Hj.
    assert (j = 0 ∨ j = 1 ∨ j = 2 ∨ j = 3 ∨ j = 4) as Hc by lia.
    destruct Hc as [->|[->|[->|[->| ->]]]]; vm_compute;
      (split; [discriminate|reflexivity]).
  - assert (ncols_ P = 5) as -> by vm_refl. lia.
  - vm_refl.
  - assert (ncols_ P = 5) as -> by vm_refl. lia.
  - vm_refl.
  - lia.
  - vm_compute. discriminate.
  - vm_compute. discriminate.
Defined.

Lemma cached_figures_are_row_activity_witness :
  let P := tightened_column_problem in
  let w := (scan P [0] (work_init P)).1 in
  (infiniteUp w).[1] = infiniteUpper (row_activity P 1)
  ∧ (infiniteDown w).[1] = infiniteLower (row_activity P 1)
  ∧ (maxUp w).[1] = maximumUp (row_activity P 1)
  ∧ (maxDown w).[1] = maximumDown (row_activity P 1).
Proof.
  intros P. apply (cached_figures_are_row_activity P [0] 1).
  - assert (nrows_ P = 2) as -> by vm_refl. lia.
  - vm_compute. discriminate.
Defined.

Lemma undo_records_hold_original_rows_witness :
  let P := singleton_problem in
  let a := singleton_record in
  (action_rlo a = (rlo_ P).[action_row a]
   ∧ action_rup a = (rup_ P).[action_row a]
   ∧ action_clo a = (clo_ P).[action_col a]
   ∧ action_cup a = (cup_ P).[action_col a])
  ∧ (action_ninrow a = (hinrow_ P).[action_row a]
     ∧ action_rowels a
       = (λ k, (rowels_ P).[k])
           <$> range (mrstrt_ P).[action_row a] (hinrow_ P).[action_row a]
     ∧ action_rowcols a
       = (λ k, (hcol_ P).[k])
           <$> range (mrstrt_ P).[action_row a] (hinrow_ P).[action_row a])
  ∧ action_col a ∈ [0; 1; 2] ∧ 0 ≤ [0; -1; -1].[action_col a].
Proof.
  intros P a.
  apply (undo_records_hold_original_rows P [0; -1; -1] [0; 1; 2] a).
  - reflexivity.
  - reflexivity.
  - change (a ∈ e_actions singleton_eliminated).
    assert (e_actions singleton_eliminated = [a]) as -> by vm_refl. by left.
Defined.

Lemma eliminated_rows_emptied_witness :
  let P := singleton_problem in
  let e := singleton_eliminated in
  (∀ a, a ∈ e_actions e →
     (hinrow_ (e_prob e)).[action_row a] = 0
     ∧ (rlo_ (e_prob e)).[action_row a] = lit_0
     ∧ (rup_ (e_prob e)).[action_row a] = lit_0)
  ∧ (∀ row, row ∉ action_row <$> e_actions e →
       (hinrow_ (e_prob e)).[row] = (hinrow_ P).[row]
       ∧ (rlo_ (e_prob e)).[row] = (rlo_ P).[row]
       ∧ (rup_ (e_prob e)).[row] = (rup_ P).[row])
  ∧ NoDup (action_row <$> e_actions e).
Proof.
  intros P e.
  apply (eliminated_rows_emptied P [0; -1; -1] [0; 1; 2]).
  - reflexivity.
  - reflexivity.
  - intros a Ha. change (a ∈ e_actions singleton_eliminated) in Ha.
    assert (e_actions singleton_eliminated = [singleton_record]) as Heq by vm_refl.
    rewrite Heq in Ha. apply list_elem_of_singleton in Ha as ->.
    vm_compute. split; [discriminate|reflexivity].
Defined.

Lemma saved_costs_are_costs_before_witness :
  let P := singleton_problem in
  let s := {| e_prob := P; e_implied_free := [0; -1; -1];
              e_actions := []; e_isolated_row := -1 |} in
  ∃ save_costs,
    e_actions (eliminate s 0) = [] ++ [saved_row P 0 0 (Some save_costs)]
    ∧ save_costs
      = (λ k, (cost_ P).[(hcol_ P).[k]]) <$> range (mrstrt_ P).[0] (hinrow_ P).[0]
    ∧ length (cost_ (e_prob (eliminate s 0))) = length (cost_ P)
    ∧ ∀ c, c ≠ 0 → c ∉ row_columns P 0 →
        (cost_ (e_prob (eliminate s 0))).[c] = (cost_ P).[c].
Proof.
  intros P s. apply (saved_costs_are_costs_before s 0).
  - vm_refl.
  - change (NoDup [0; 1]). nodup_literal.
Defined.

Lemma postsolve_restores_costs_and_bounds_witness :
  @same_data Qc_num Qc_helpers sample_postsolve_helpers
    (@postsolve Qc_num Qc_helpers sample_postsolve_helpers 1
       (e_actions singleton_eliminated) singleton_solved)
    singleton_problem.
Proof.
  apply (@postsolve_restores_costs_and_bounds Qc_num Qc_helpers
           sample_postsolve_helpers singleton_problem [0; -1; -1] [0; 1; 2]
           singleton_solved).
  - intros a Ha. change (a ∈ e_actions singleton_eliminated) in Ha.
    assert (e_actions singleton_eliminated = [singleton_record]) as Heq by vm_refl.
    rewrite Heq in Ha. apply list_elem_of_singleton in Ha as ->.
    split; [|split].
    + change (NoDup [0; 1]). nodup_literal.
    + change (0 ∈ [0; 1]). by left.
    + intros c Hc. clear Heq. change (c ∈ [0; 1]) in Hc. change (0 ≤ c < 3).
      elem_cases Hc; lia.
  - repeat split.
Defined.

Lemma replay_makes_one_basic_witness :
  let f := singleton_record in
  let m := singleton_solved in
  let m' := @postsolve_action Qc_num Qc_helpers sample_postsolve_helpers m f in
  let thisCost := (Post.maxmin_ m' * (Post.cost_ m').[0])%num in
  (∃ status bound,
     (status = atUpperBound ∧ bound = (Post.rup_ m').[0]
      ∨ status = atLowerBound ∧ bound = (Post.rlo_ m').[0])
     ∧ Post.status_arrays_ m'
       = setColumnStatus 0 basic (setRowStatus 0 status (Post.status_arrays_ m))
     ∧ (Post.acts_ m').[0] = bound
     ∧ (Post.rcosts_ m').[0] = lit_0)
  ∨ (∃ status bound,
       (status = atLowerBound ∧ bound = (Post.clo_ m').[0]
        ∧ (thisCost >=? lit_0)%num = true
        ∨ status = atUpperBound ∧ bound = (Post.cup_ m').[0]
          ∧ (thisCost <? lit_0)%num = true)
       ∧ Post.status_arrays_ m'
         = setColumnStatus 0 status (setRowStatus 0 basic (Post.status_arrays_ m))
       ∧ (Post.sol_ m').[0] = bound
       ∧ (Post.rowduals_ m').[0] = lit_0
       ∧ (Post.rcosts_ m').[0] = thisCost).
Proof.
  intros f m.
  apply (@replay_makes_one_basic Qc_num Qc_helpers sample_postsolve_helpers f m);
    vm_compute; (split; [discriminate|reflexivity]).
Defined.

Lemma replay_row_activity_witness :
  let f := singleton_record in
  let m := singleton_solved in
  let m' := @postsolve_action Qc_num Qc_helpers sample_postsolve_helpers m f in
  (Post.acts_ m').[0] = saved_row_value f (Post.sol_ m')
  ∧ ∀ c, c ≠ 0 → (Post.sol_ m').[c] = (Post.sol_ m).[c].
Proof.
  intros f m.
  apply (replay_row_activity Qc_helpers sample_postsolve_helpers f m 0).
  - change (NoDup [0; 1]). nodup_literal.
  - change (0 ≤ 0 < 2). lia.
  - reflexivity.
  - intros Heq. apply (f_equal this) in Heq. vm_compute in Heq. discriminate.
  - change (0 ≤ 0 < 3). lia.
  - change (0 ≤ 0 < 2). lia.
Defined.

Lemma replay_reduced_costs_witness :
  let f := singleton_record in
  let m := singleton_solved in
  let m' := @postsolve_action Qc_num Qc_helpers sample_postsolve_helpers m f in
  let dual := (Post.rowduals_ m').[0] in
  (Post.rcosts_ m').[0]
  = (Post.maxmin_ m * (Post.cost_ m').[0] - dual * (action_rowels f).[0])%num
  ∧ ∀ k, 0 ≤ k < 2 → (action_rowcols f).[k] ≠ 0 →
      (Post.rcosts_ m').[(action_rowcols f).[k]]
      = ((Post.rcosts_ m).[(action_rowcols f).[k]]
         + Post.maxmin_ m
           * ((Post.cost_ m').[(action_rowcols f).[k]]
              - (Post.cost_ m).[(action_rowcols f).[k]])
         - dual * (action_rowels f).[k])%num.
Proof.
  intros f m.
  apply (replay_reduced_costs Qc_helpers sample_postsolve_helpers f m 0).
  - change (NoDup [0; 1]). nodup_literal.
  - change (0 ≤ 0 < 2). lia.
  - reflexivity.
  - intros Heq. apply (f_equal this) in Heq. vm_compute in Heq. discriminate.
  - intros c Hc. change (c ∈ [0; 1]) in Hc.
    change (0 ≤ c < 3 ∧ 0 ≤ c < 3). elem_cases Hc; lia.
  - change (0 ≤ 0 < 2). lia.
Defined.

Lemma replay_puts_row_back_witness :
  let f := singleton_record in
  let m := singleton_solved in
  let m' := @postsolve_action Qc_num Qc_helpers sample_postsolve_helpers m f in
  (1 ∉ saved_columns f → column_entries m' 1 = column_entries m 1)
  ∧ (∀ k, 0 ≤ k < action_ninrow f → (action_rowcols f).[k] = 1 →
       column_entries m' 1
       = (action_row f, (action_rowels f).[k])
         :: (if 1 =? action_col f then [] else column_entries m 1)).
Proof.
  intros f m.
  apply (@replay_puts_row_back Qc_num Qc_helpers sample_postsolve_helpers f m 1).
  - change (NoDup [0; 1]). nodup_literal.
  - change (NoDup [2; 3]). nodup_literal.
  - intros kk Hk. change (kk ∈ [2; 3]) in Hk.
    change (0 ≤ kk < 6 ∧ 0 ≤ kk < 6 ∧ 0 ≤ kk < 6). elem_cases Hk; lia.
  - intros kk Hk. change (kk ∈ [0]) in Hk. change (kk ∉ [2; 3]).
    elem_cases Hk. intros Hin.
    repeat (apply elem_of_cons in Hin as [Hin|Hin]; [discriminate Hin|]).
    by apply elem_of_nil in Hin.
  - change (0 ≤ 1 < 3). lia.
  - change (0 ≤ 1 < 3). lia.
  - change (0 ≤ 1). lia.
Defined.

Lemma replay_consumes_free_list_witness :
  let f := singleton_record in
  let m := singleton_solved in
  free_thread (@postsolve_action Qc_num Qc_helpers sample_postsolve_helpers m f) 2
  = drop 2 (free_thread m 4).
Proof.
  intros f m.
  apply (@replay_consumes_free_list Qc_num Qc_helpers sample_postsolve_helpers
           f m 2).
  change (NoDup [2; 3; 4; 5]). nodup_literal.
Defined.

Lemma activity_sums_bound_row_value_witness :
  let P := tightened_column_problem in
  let a := row_activity P 0 in
  (infiniteUpper a = 0 → (row_value P 0 sample_point <= maximumUp a)%Qc)
  ∧ (infiniteLower a = 0 → (maximumDown a <= row_value P 0 sample_point)%Qc).
Proof.
  intros P.
  apply (activity_sums_bound_row_value Qc_helpers P 0 sample_point).
  intros kk Hkk. change (kk ∈ [0; 1]) in Hkk.
  elem_cases Hkk; split; apply Qcleb_le; vm_refl.
Defined.

Lemma classification_holds_within_bounds_witness :
  let P := unreachable_row_problem in
  let a := row_activity P 1 in
  let tol := feasibilityTolerance_ P in
  (classify P 1 a = UpperUnreachable → infiniteUpper a = 0 →
     (row_value P 1 unit_point < (rlo_ P).[1] - tol)%Qc)
  ∧ (classify P 1 a = LowerUnreachable → infiniteLower a = 0 →
       ((rup_ P).[1] + tol < row_value P 1 unit_point)%Qc)
  ∧ (classify P 1 a = Redundant →
       (infiniteUpper a = 0 →
          (row_value P 1 unit_point <= (rup_ P).[1] + tol)%Qc)
       ∧ (infiniteLower a = 0 →
            ((rlo_ P).[1] - tol <= row_value P 1 unit_point)%Qc)).
Proof.
  intros P.
  apply (classification_holds_within_bounds Qc_helpers P 1 unit_point).
  intros kk Hkk. change (kk ∈ [2; 3]) in Hkk.
  elem_cases Hkk; split; apply Qcleb_le; vm_refl.
Defined.

Lemma implied_bounds_hold_witness :
  let P := tightened_column_problem in
  let w := (scan P [0] (work_init P)).1 in
  let b := implied_by_row P w 0 1 (q 1) (q 0) (q 10) in
  (b.1 <= sample_point 0)%Qc ∧ (sample_point 0 <= b.2)%Qc.
Proof.
  intros P w.
  apply (implied_bounds_hold Qc_helpers P w 1 2 sample_point (q 0) (q 10)).
  - change (2 ∈ [2; 3]). by left.
  - intros Heq. apply (f_equal this) in Heq. vm_compute in Heq. discriminate.
  - vm_refl.
  - vm_refl.
  - vm_refl.
  - vm_refl.
  - intros kk Hkk. change (kk ∈ [3]) in Hkk.
    elem_cases Hkk; split; apply Qcleb_le; vm_refl.
  - apply Qcleb_le; vm_refl.
  - apply Qcleb_le; vm_refl.
  - left. apply Z.leb_le. vm_refl.
  - apply Qcleb_le; vm_refl.
  - apply Qcleb_le; vm_refl.
  - apply Qcleb_le; vm_refl.
  - apply Qcleb_le; vm_refl.
Defined.

Lemma marked_column_is_implied_free_witness :
  let P := tightened_column_problem in
  ((clo_ P).[0] <= sample_point 0)%Qc ∧ (sample_point 0 <= (cup_ P).[0])%Qc.
Proof.
  intros P.
  apply (marked_column_is_implied_free Qc_helpers P [0] 0 sample_point).
  - apply Qcleb_le; vm_refl.
  - change (0 ≤ 0 < 3). lia.
  - change (1 < 2). lia.
  - intros k Hk. change (k ∈ [0; 1]) in Hk.
    elem_cases Hk.
    + split; [change (0 ≤ 0 < 2); lia|].
      split; [apply Qcleb_le; vm_refl|]. split; [apply Qcleb_le; vm_refl|].
      split; [left; apply Z.leb_le; vm_refl|].
      exists 0. split; [change (0 ∈ [0; 1]); by left|].
      split; [vm_refl|]. split; [vm_refl|].
      intros kk Hkk. change (kk ∈ [1]) in Hkk.
      elem_cases Hkk; split; apply Qcleb_le; vm_refl.
    + split; [change (0 ≤ 1 < 2); lia|].
      split; [apply Qcleb_le; vm_refl|]. split; [apply Qcleb_le; vm_refl|].
      split; [left; apply Z.leb_le; vm_refl|].
      exists 2. split; [change (2 ∈ [2; 3]); by left|].
      split; [vm_refl|]. split; [vm_refl|].
      intros kk Hkk. change (kk ∈ [3]) in Hkk.
      elem_cases Hkk; split; apply Qcleb_le; vm_refl.
  - apply Qcleb_le; vm_refl.
  - apply Qcleb_le; vm_refl.
  - intros Heq. vm_compute in Heq. discriminate.
Defined.
